(** * BirdSong-Visualizer: the DSP pipeline and its worker, embedded in Rocq

    The development follows the TypeScript sources under [web/src/dsp]
    (windowing, fft, spectrogram, melFilterbank, mfcc, pca), the Web Worker
    [web/src/workers/audioProcessor.worker.ts], the [AudioProcessor] class
    through which the page talks to the worker, and [normalizePoints] of the
    manifold view.

    Numbers.  A JavaScript [number] is modelled by [num]: a real number, one of
    the two infinities, or NaN.  Arithmetic between finite values is exact real
    arithmetic (no rounding, no overflow, no negative zero; a [Float32Array]
    store keeps the value it is given); the exceptional results of IEEE-754
    (0/0, x/0, Infinity - Infinity, 0 * Infinity, the square root or logarithm
    of a negative number, log10 0) are modelled as JavaScript produces them.
    Array sizes and loop counters are integers ([Z]).

    What the exact arithmetic leaves out.  The code rounds every operation to
    a double and every store into a [Float32Array] to single precision: the
    window of [hannWindow], the arrays of [fft] and [magnitudeSpectrum], the
    weights of the mel filters, the arrays of [computeMFCC], and in
    [computePCA3D] the means, the covariance and the vectors of the power
    iteration.  A value of the model is therefore the real number that the
    value of the code approximates, and a large enough value of the code
    overflows to an infinity where the model stays finite.  Three kinds of
    statements are made below:
    - statements about lengths, counts, exceptions, messages and their order,
      which do not depend on the arithmetic;
    - statements that a value is a given formula of the inputs ("the code
      computes F"), to be read up to the rounding of the code;
    - statements that two computed values are equal, that a value lies within
      a bound, or that it is finite.  Where such a statement holds of the
      rounded code as well (an all-zero buffer, a single frame of single
      precision features) it is stated as it is; where it is a fact of the
      exact arithmetic only, the statement says so, and it then tells that no
      guard is missing and no formula is wrong, not that the rounded values
      obey it to the last bit.

    Exceptions.  A function that can throw returns a [result].  The recursion
    of [fft] consumes call stack; the depth available is the parameter [stack]
    and exhausting it is the RangeError a JavaScript engine raises. *)

From Stdlib Require Import String.
From Stdlib Require Import Reals Lra Lia ZArith List Bool Sorted.
Import ListNotations.

(* ================================================================= *)
(** ** JavaScript numbers *)

Module Num.

Local Open Scope R_scope.

Inductive num : Type :=
| Fin (r : R)
| PInf
| NInf
| NaN.

Definition zero : num := Fin 0.
Definition one : num := Fin 1.
Definition ofZ (z : Z) : num := Fin (IZR z).
Definition ofNat (n : nat) : num := Fin (INR n).

(** A value read from an array: an index out of range reads [undefined],
    which every arithmetic operator converts to NaN. *)
Definition get (l : list num) (i : nat) : num := nth i l NaN.

Definition Rltb (a b : R) : bool := if Rlt_dec a b then true else false.
Definition Rleb (a b : R) : bool := if Rle_dec a b then true else false.
Definition Reqb (a b : R) : bool := if Req_dec_T a b then true else false.

Definition finite (x : num) : Prop :=
  match x with Fin _ => True | _ => False end.

Definition is_finite (x : num) : bool :=
  match x with Fin _ => true | _ => false end.

Definition neg (x : num) : num :=
  match x with
  | Fin a => Fin (- a)
  | PInf => NInf
  | NInf => PInf
  | NaN => NaN
  end.

Definition add (x y : num) : num :=
  match x, y with
  | NaN, _ | _, NaN => NaN
  | Fin a, Fin b => Fin (a + b)
  | PInf, NInf | NInf, PInf => NaN
  | PInf, _ | _, PInf => PInf
  | NInf, _ | _, NInf => NInf
  end.

Definition sub (x y : num) : num := add x (neg y).

(** The infinity whose sign is that of [r] times [s]; NaN for [r = 0]. *)
Definition inf_times (s : bool) (r : R) : num :=
  if Reqb r 0 then NaN
  else if Rltb 0 r then (if s then PInf else NInf)
  else (if s then NInf else PInf).

Definition mul (x y : num) : num :=
  match x, y with
  | NaN, _ | _, NaN => NaN
  | Fin a, Fin b => Fin (a * b)
  | PInf, Fin b => inf_times true b
  | NInf, Fin b => inf_times false b
  | Fin a, PInf => inf_times true a
  | Fin a, NInf => inf_times false a
  | PInf, PInf | NInf, NInf => PInf
  | PInf, NInf | NInf, PInf => NInf
  end.

(** Division.  A zero divisor is the positive zero: [a / 0] is NaN for
    [a = 0] and the infinity of the sign of [a] otherwise. *)
Definition div (x y : num) : num :=
  match x, y with
  | NaN, _ | _, NaN => NaN
  | Fin a, Fin b =>
      if Reqb b 0 then
        (if Reqb a 0 then NaN else if Rltb 0 a then PInf else NInf)
      else Fin (a / b)
  | Fin _, PInf | Fin _, NInf => Fin 0
  | PInf, Fin b => if Rltb b 0 then NInf else PInf
  | NInf, Fin b => if Rltb b 0 then PInf else NInf
  | _, _ => NaN
  end.

(** [Math.sqrt] *)
Definition sqrt (x : num) : num :=
  match x with
  | Fin a => if Rltb a 0 then NaN else Fin (R_sqrt.sqrt a)
  | PInf => PInf
  | _ => NaN
  end.

(** [Math.cos], [Math.sin] *)
Definition cos (x : num) : num :=
  match x with Fin a => Fin (Rtrigo_def.cos a) | _ => NaN end.
Definition sin (x : num) : num :=
  match x with Fin a => Fin (Rtrigo_def.sin a) | _ => NaN end.

(** [Math.log10] *)
Definition log10 (x : num) : num :=
  match x with
  | Fin a =>
      if Rltb a 0 then NaN
      else if Reqb a 0 then NInf
      else Fin (ln a / ln 10)
  | PInf => PInf
  | _ => NaN
  end.

(** [Math.pow(10, x)] *)
Definition pow10 (x : num) : num :=
  match x with
  | Fin a => Fin (Rpower 10 a)
  | PInf => PInf
  | NInf => Fin 0
  | NaN => NaN
  end.

(** The relational operators; every comparison with NaN is false. *)
Definition lt (x y : num) : bool :=
  match x, y with
  | NaN, _ | _, NaN => false
  | Fin a, Fin b => Rltb a b
  | NInf, NInf | PInf, _ | _, NInf => false
  | _, _ => true
  end.

Definition le (x y : num) : bool :=
  match x, y with
  | NaN, _ | _, NaN => false
  | Fin a, Fin b => Rleb a b
  | NInf, _ | _, PInf => true
  | _, _ => false
  end.

Definition gt (x y : num) : bool := lt y x.
Definition ge (x y : num) : bool := le y x.

(** [===] (and [==]) on numbers: NaN differs from everything, itself
    included. *)
Definition eqb (x y : num) : bool :=
  match x, y with
  | Fin a, Fin b => Reqb a b
  | PInf, PInf | NInf, NInf => true
  | _, _ => false
  end.

(** [Math.min] *)
Definition min (x y : num) : num :=
  match x, y with
  | NaN, _ | _, NaN => NaN
  | _, _ => if lt y x then y else x
  end.

End Num.

Abbreviation num := Num.num.
Abbreviation Fin := Num.Fin.
Abbreviation PInf := Num.PInf.
Abbreviation NInf := Num.NInf.
Abbreviation NaN := Num.NaN.
Abbreviation zero := Num.zero.
Abbreviation one := Num.one.
Abbreviation ofZ := Num.ofZ.
Abbreviation ofNat := Num.ofNat.
Abbreviation get := Num.get.
Abbreviation finite := Num.finite.
Abbreviation Rltb := Num.Rltb.
Abbreviation Rleb := Num.Rleb.
Abbreviation Reqb := Num.Reqb.

Declare Scope num_scope.
Delimit Scope num_scope with num.
Bind Scope num_scope with Num.num.
Infix "+" := Num.add : num_scope.
Infix "-" := Num.sub : num_scope.
Infix "*" := Num.mul : num_scope.
Infix "/" := Num.div : num_scope.

(* ================================================================= *)
(** ** Exceptions *)

Inductive exn : Type :=
| RangeError_InvalidLength          (* new Float32Array(n), n < 0 *)
| RangeError_OffsetOutOfBounds      (* TypedArray.prototype.set *)
| RangeError_CallStack              (* Maximum call stack size exceeded *)
| Error_WindowLength                (* 'Samples and window must have the same length' *)
| Error_SpectrumSize (expected got : Z).
                                    (* 'Magnitude spectrum size mismatch: ...' *)

Inductive result (A : Type) : Type :=
| Ok (a : A)
| Throw (e : exn).

Arguments Ok {A} a.
Arguments Throw {A} e.

Definition bind {A B : Type} (r : result A) (k : A -> result B) : result B :=
  match r with
  | Ok a => k a
  | Throw e => Throw e
  end.

Notation "'let*' x ':=' r 'in' k" := (bind r (fun x => k))
  (at level 10, x name, r at level 100, k at level 200).

(** [new Float32Array(n)]: [n] zeros; a negative length throws. *)
Definition newFloat32Array (n : Z) : result (list num) :=
  if (n <? 0)%Z then Throw RangeError_InvalidLength
  else Ok (repeat zero (Z.to_nat n)).

(* ================================================================= *)
(** ** windowing.ts *)

Definition two_pi : num := (Fin 2 * Fin PI)%num.

(** [hannWindow(size)]: [window[i] = 0.5 * (1 - cos(2 * PI * (i / n)))] with
    [n = size - 1].  (The code rounds the quotient, the product and the
    cosine to doubles and the value stored to single precision; the value
    here is the real number they approximate.) *)
Definition hannWindow (size : Z) : result (list num) :=
  let* _ := newFloat32Array size in
  let n := ofZ (size - 1) in
  Ok (map (fun i : nat =>
             let x := (ofNat i / n)%num in
             (Fin (1/2) * (one - Num.cos (two_pi * x)))%num)
          (seq 0 (Z.to_nat size))).

(** The value of the Hann window at index [i] for a size of at least 2:
    [0.5 * (1 - cos(2 * PI * i / (size - 1)))]. *)
Definition hannValue (size : Z) (i : nat) : R :=
  (1 / 2 * (1 + - Rtrigo_def.cos (2 * PI * (INR i / IZR (size - 1)))))%R.

(** [applyWindow(samples, window)] *)
Fixpoint pointwise_mul (xs ys : list num) : list num :=
  match xs, ys with
  | x :: xs', y :: ys' => (x * y)%num :: pointwise_mul xs' ys'
  | _, _ => []
  end.

Definition applyWindow (samples window : list num) : result (list num) :=
  if negb (length samples =? length window)%nat then Throw Error_WindowLength
  else Ok (pointwise_mul samples window).

(* ================================================================= *)
(** ** fft.ts *)

Record FFTResult : Type := mkFFT { real : list num; imag : list num }.

(** [Math.pow(2, Math.ceil(Math.log2(n)))] for an integer [n]: the least power
    of two that is at least [n] when [n >= 1].  For [n = 0] the logarithm is
    -Infinity and the power is 0; for [n < 0] it is NaN, which as an array
    length is 0 as well. *)
Definition nextPow2 (n : Z) : Z :=
  if (n <=? 0)%Z then 0%Z else (2 ^ Z.log2_up n)%Z.

(** The twiddle factor of index [k]: [angle = (-2 * Math.PI * k) / N]. *)
Definition angle (k N : nat) : num :=
  ((Fin (-2) * Fin PI * ofNat k) / ofNat N)%num.

(** The combining loop of [fft]: [k] runs over [0 <= k < N / 2]; [real] and
    [imag] are fresh arrays of [N] zeros.  For an odd [N] the index
    [k + N / 2] is not an integer and the store is dropped.  ([real] and
    [imag] are [Float32Array]s: the code rounds each butterfly to single
    precision, and a sum beyond the range of single precision is stored as
    an infinity; the values here are the exact sums.) *)
Definition combine_re (N : nat) (e o : FFTResult) (k : nat) : num * num :=
  let c := Num.cos (angle k N) in
  let s := Num.sin (angle k N) in
  let tReal := (c * get (real o) k - s * get (imag o) k)%num in
  ((get (real e) k + tReal)%num, (get (real e) k - tReal)%num).

Definition combine_im (N : nat) (e o : FFTResult) (k : nat) : num * num :=
  let c := Num.cos (angle k N) in
  let s := Num.sin (angle k N) in
  let tImag := (s * get (real o) k + c * get (imag o) k)%num in
  ((get (imag e) k + tImag)%num, (get (imag e) k - tImag)%num).

Definition butterfly (N : nat) (e o : FFTResult) : FFTResult :=
  let h := (N / 2)%nat in
  let iters := (N - h)%nat in
  let upper (f : nat -> num * num) : list num :=
    if Nat.even N then map (fun k => snd (f k)) (seq 0 h) else repeat zero h in
  mkFFT (map (fun k => fst (combine_re N e o k)) (seq 0 iters)
           ++ upper (combine_re N e o))
        (map (fun k => fst (combine_im N e o k)) (seq 0 iters)
           ++ upper (combine_im N e o)).

(** [fft(x)], the recursive radix-2 transform.  Each call takes one frame of
    the call stack; with no frame left the engine throws a RangeError.
    [computeFFT], its only caller, passes an array whose length is a power of
    two, or the empty array; [N / 2] is then an integer at every level. *)
Fixpoint fft (stack : nat) (x : list num) : result FFTResult :=
  match stack with
  | O => Throw RangeError_CallStack
  | S stack' =>
      let N := length x in
      if (N =? 1)%nat then Ok (mkFFT [get x 0] [zero])
      else
        let even := map (fun i => get x (2 * i)) (seq 0 (N / 2)) in
        let odd := map (fun i => get x (2 * i + 1)) (seq 0 (N / 2)) in
        let* evenFFT := fft stack' even in
        let* oddFFT := fft stack' odd in
        Ok (butterfly N evenFFT oddFFT)
  end.

(** The input copied into a zeroed array of [size] elements: the first
    [min(samples.length, size)] samples, then zeros. *)
Definition zeroPad (size : nat) (samples : list num) : list num :=
  firstn size samples ++ repeat zero (size - length samples).

Definition computeFFT (stack : nat) (samples : list num) (fftSize : Z)
  : result FFTResult :=
  let actualSize := nextPow2 fftSize in
  let input := zeroPad (Z.to_nat actualSize) samples in
  fft stack input.

(** [magnitudeSpectrum(fftResult)].  (The magnitudes are stored in a
    [Float32Array]; the value here is the exact square root.) *)
Definition magnitudeSpectrum (fftResult : FFTResult) : list num :=
  map (fun i =>
         Num.sqrt (get (real fftResult) i * get (real fftResult) i
                   + get (imag fftResult) i * get (imag fftResult) i)%num)
      (seq 0 (length (real fftResult))).

(* ================================================================= *)
(** ** config.ts *)

Module DSP_CONFIG.
Definition windowSize : Z := 2048.
Definition hopSize : Z := 512.
Definition melBins : Z := 128.
Definition mfccCount : Z := 40.
Definition fMin : num := Fin 500.
Definition fMax : num := Fin 12000.
Definition preEmphasisCoeff : num := Fin (97 / 100).
Definition maxFrames : Z := 2000.
End DSP_CONFIG.

(* ================================================================= *)
(** ** spectrogram.ts *)

Module Spectrogram.

Record SpectrogramResult : Type := mkSpectrogram {
  data : list (list num);
  sampleRate : num;
  hopSize : Z;
  windowSize : Z;
  nFrames : nat;
  nBins : nat
}.

(** [TypedArray.prototype.slice(start, end)]: a negative index counts from the
    end; both are clamped to the array. *)
Definition slice (l : list num) (b e : Z) : list num :=
  let len := Z.of_nat (length l) in
  let k := if (b <? 0)%Z then Z.max (len + b) 0 else Z.min b len in
  let final := if (e <? 0)%Z then Z.max (len + e) 0 else Z.min e len in
  firstn (Z.to_nat (final - k)) (skipn (Z.to_nat k) l).

(** [TypedArray.prototype.set(source)] at offset 0. *)
Definition set (target source : list num) : result (list num) :=
  if (length target <? length source)%nat then Throw RangeError_OffsetOutOfBounds
  else Ok (source ++ skipn (length source) target).

(** The pre-emphasis filter: [y[0] = x[0]], [y[i] = x[i] - 0.97 * x[i-1]]. *)
Definition preEmphasis (samples : list num) : list num :=
  map (fun i =>
         if (i =? 0)%nat then get samples 0
         else (get samples i
               - DSP_CONFIG.preEmphasisCoeff * get samples (i - 1))%num)
      (seq 0 (length samples)).

(** The value of [Math.floor(a / b)] for integers [a] and [b], and of what is
    computed from it: an integer, an infinity, or NaN (for [b = 0]). *)
Inductive jsint : Type :=
| JInt (z : Z)
| JPosInf
| JNegInf
| JNaN.

Definition floor_div (a b : Z) : jsint :=
  if (b =? 0)%Z then
    (if (0 <? a)%Z then JPosInf else if (a <? 0)%Z then JNegInf else JNaN)
  else JInt (a / b).

Definition js_plus1 (x : jsint) : jsint :=
  match x with JInt z => JInt (z + 1) | other => other end.

(** [Math.min(m, x)] for an integer [m]. *)
Definition js_min (m : Z) (x : jsint) : jsint :=
  match x with
  | JInt z => JInt (Z.min m z)
  | JPosInf => JInt m
  | other => other
  end.

(** How many [frameIdx = 0, 1, 2, ...] satisfy [frameIdx < n]; no comparison
    with NaN or -Infinity holds.  ([js_min] never returns +Infinity.) *)
Definition iterations (n : jsint) : nat :=
  match n with JInt z => Z.to_nat z | _ => O end.

Section FrameLoop.

Variable stack : nat.
Variable preEmphasized : list num.
Variable window : list num.
Variables windowSize hopSize fftSize : Z.

(** The body of the frame loop for one [frameIdx]: the magnitude frame. *)
Definition frameBody (start : Z) : result (list num) :=
  let frame := slice preEmphasized start (start + windowSize) in
  let* windowed := applyWindow frame window in
  let* zeros := newFloat32Array fftSize in
  let* padded := set zeros windowed in
  let* fftResult := computeFFT stack padded fftSize in
  let magnitude := magnitudeSpectrum fftResult in
  let nBins := (fftSize / 2 + 1)%Z in
  Ok (slice magnitude 0 nBins).

(** [for (frameIdx = 0; frameIdx < nFrames; frameIdx++)], with [remaining]
    the number of indices still below [nFrames]. *)
Fixpoint frameLoop (remaining : nat) (frameIdx : Z)
    (spectrogram : list (list num)) : result (list (list num)) :=
  match remaining with
  | O => Ok spectrogram
  | S remaining' =>
      let start := (frameIdx * hopSize)%Z in
      if (start + windowSize >? Z.of_nat (length preEmphasized))%Z
      then Ok spectrogram (* break *)
      else
        let* frameMagnitude := frameBody start in
        frameLoop remaining' (frameIdx + 1)%Z (spectrogram ++ [frameMagnitude])
  end.

End FrameLoop.

Definition computeSpectrogram (stack : nat) (samples : list num)
    (sampleRate : num) (windowSize hopSize maxFrames : Z)
  : result SpectrogramResult :=
  let preEmphasized := preEmphasis samples in
  let nFrames :=
    js_min maxFrames
      (js_plus1 (floor_div (Z.of_nat (length preEmphasized) - windowSize)
                           hopSize)) in
  let* window := hannWindow windowSize in
  let fftSize := nextPow2 windowSize in
  let* spectrogram :=
    frameLoop stack preEmphasized window windowSize hopSize fftSize
      (iterations nFrames) 0%Z [] in
  Ok (mkSpectrogram spectrogram sampleRate hopSize windowSize
        (length spectrogram)
        (match spectrogram with [] => O | frame0 :: _ => length frame0 end)).

End Spectrogram.

(* ================================================================= *)
(** ** melFilterbank.ts *)

Module Mel.

Record MelFilterbank : Type := mkMelFilterbank {
  filters : list (list num);
  sampleRate : num;
  fftSize : Z;
  melBins : Z;
  fMin : num;
  fMax : num
}.

Definition hzToMel (hz : num) : num :=
  (Fin 2595 * Num.log10 (one + hz / Fin 700))%num.

Definition melToHz (mel : num) : num :=
  (Fin 700 * (Num.pow10 (mel / Fin 2595) - one))%num.

(** The weight of one triangular filter at one frequency bin; a bin outside
    both slopes keeps the 0 the array was created with.  (The comparisons
    and the quotient are those of the exact frequencies; the code compares
    and divides the rounded ones and stores the weight in single precision,
    so that on a band only a few ulps wide, or at a bin that lies on a center
    frequency, the two can take different branches.) *)
Definition triangle (leftFreq centerFreq rightFreq freq : num) : num :=
  if Num.ge freq leftFreq && Num.le freq centerFreq
  then ((freq - leftFreq) / (centerFreq - leftFreq))%num
  else if Num.gt freq centerFreq && Num.le freq rightFreq
  then ((rightFreq - freq) / (rightFreq - centerFreq))%num
  else zero.

(** The [melBins + 2] center frequencies.  (Exact logarithms and powers: the
    first and the last are the band edges themselves, where the code gets
    them back up to rounding, 500.0000000000001 for 500.) *)
Definition centerFreqs (melBins : Z) (fMin fMax : num) : list num :=
  let melMin := hzToMel fMin in
  let melMax := hzToMel fMax in
  let melSpacing := ((melMax - melMin) / ofZ (melBins + 1))%num in
  map (fun i => melToHz (melMin + melSpacing * ofNat i)%num)
      (seq 0 (Z.to_nat (melBins + 2))).

(** The loop of [createFilters] over [melIdx]; each filter is a new
    [Float32Array(nFreqBins)]. *)
Fixpoint filterLoop (freqResolution : num) (nFreqBins : Z) (cf : list num)
    (melIdxs : list nat) : result (list (list num)) :=
  match melIdxs with
  | [] => Ok []
  | melIdx :: rest =>
      let* filter := newFloat32Array nFreqBins in
      let leftFreq := get cf melIdx in
      let centerFreq := get cf (melIdx + 1) in
      let rightFreq := get cf (melIdx + 2) in
      let filter' :=
        map (fun freqIdx =>
               triangle leftFreq centerFreq rightFreq
                        (ofNat freqIdx * freqResolution)%num)
            (seq 0 (length filter)) in
      let* others := filterLoop freqResolution nFreqBins cf rest in
      Ok (filter' :: others)
  end.

Definition createFilters (sampleRate : num) (fftSize melBins : Z)
    (fMin fMax : num) : result (list (list num)) :=
  let freqResolution := (sampleRate / ofZ fftSize)%num in
  let nFreqBins := (fftSize / 2 + 1)%Z in
  filterLoop freqResolution nFreqBins (centerFreqs melBins fMin fMax)
             (seq 0 (Z.to_nat melBins)).

(** [new MelFilterbank(sampleRate, fftSize, melBins, fMin, fMax)] *)
Definition new (sampleRate : num) (fftSize melBins : Z) (fMin fMax : num)
  : result MelFilterbank :=
  let fMax' := Num.min fMax (sampleRate / Fin 2)%num in
  let* filters := createFilters sampleRate fftSize melBins fMin fMax' in
  Ok (mkMelFilterbank filters sampleRate fftSize melBins fMin fMax').

(** [new MelFilterbank(sampleRate, fftSize)] with the defaults of
    [DSP_CONFIG]. *)
Definition newDefault (sampleRate : num) (fftSize : Z) : result MelFilterbank :=
  new sampleRate fftSize DSP_CONFIG.melBins DSP_CONFIG.fMin DSP_CONFIG.fMax.

(** The inner loop of [apply]: [sum += filter[freqIdx] * spectrum[freqIdx]]
    for [freqIdx < min(filter.length, spectrum.length)]. *)
Definition filterSum (filter magnitudeSpectrum : list num) : num :=
  let filterSize := Nat.min (length filter) (length magnitudeSpectrum) in
  fold_left (fun sum freqIdx =>
               (sum + get filter freqIdx * get magnitudeSpectrum freqIdx)%num)
            (seq 0 filterSize) zero.

(** [apply(magnitudeSpectrum)].  The method is given the object and returns
    it with the outcome; it assigns to no field.  [filters] holds [melBins]
    filters in every constructed object, and a missing one reads as an empty
    filter here. *)
Definition apply (this : MelFilterbank) (magnitudeSpectrum : list num)
  : result (list num) * MelFilterbank :=
  let expectedBins := (fftSize this / 2 + 1)%Z in
  if negb (Z.of_nat (length magnitudeSpectrum) =? expectedBins)%Z
  then (Throw (Error_SpectrumSize expectedBins
                 (Z.of_nat (length magnitudeSpectrum))), this)
  else
    (let* melSpectrum := newFloat32Array (melBins this) in
     Ok (map (fun melIdx =>
                filterSum (nth melIdx (filters this) []) magnitudeSpectrum)
             (seq 0 (length melSpectrum))),
     this).

End Mel.

(* ================================================================= *)
(** ** mfcc.ts *)

Module MFCC.

Definition epsilon : num := Fin (1 / 10000000000).

(** [dct2(input, count)] *)
Definition dct2 (input : list num) (count : Z) : result (list num) :=
  let n := length input in
  let* output := newFloat32Array count in
  Ok (map (fun k =>
             let sum :=
               fold_left
                 (fun sum i =>
                    let angle :=
                      ((Fin PI * ofNat k * (ofNat i + Fin (1/2))) / ofNat n)%num in
                    (sum + get input i * Num.cos angle)%num)
                 (seq 0 n) zero in
             if (k =? 0)%nat then (sum / Num.sqrt (ofNat n))%num
             else (sum * Num.sqrt (Fin 2 / ofNat n))%num)
          (seq 0 (length output))).

(** The loop of [computeMFCC] over the frames of the spectrogram; the
    filterbank object is the same one at every call of [apply]. *)
Fixpoint mfccLoop (frames : list (list num)) (melFilterbank : Mel.MelFilterbank)
    (mfccCount : Z) (mfccFrames : list (list num))
  : result (list (list num)) * Mel.MelFilterbank :=
  match frames with
  | [] => (Ok mfccFrames, melFilterbank)
  | magnitudeFrame :: rest =>
      match Mel.apply melFilterbank magnitudeFrame with
      | (Throw e, fb) => (Throw e, fb)
      | (Ok melSpectrum, fb) =>
          let powerSpectrum := map (fun m => (m * m)%num) melSpectrum in
          let logMel :=
            map (fun p => Num.log10 (p + epsilon)%num) powerSpectrum in
          match dct2 logMel mfccCount with
          | Throw e => (Throw e, fb)
          | Ok mfcc => mfccLoop rest fb mfccCount (mfccFrames ++ [mfcc])
          end
      end
  end.

Definition computeMFCC (spectrogram : Spectrogram.SpectrogramResult)
    (melFilterbank : Mel.MelFilterbank) (mfccCount : Z)
  : result (list (list num)) * Mel.MelFilterbank :=
  mfccLoop (Spectrogram.data spectrogram) melFilterbank mfccCount [].

End MFCC.

(* ================================================================= *)
(** ** pca.ts *)

Module PCA.

(** [matrix[t * featureCount + f]] *)
Definition at_ (matrix : list num) (featureCount t f : nat) : num :=
  get matrix (t * featureCount + f).

(** [dot += u[i] * v[i]] for [i < n] *)
Definition dot (n : nat) (u v : list num) : num :=
  fold_left (fun d i => (d + get u i * get v i)%num) (seq 0 n) zero.

(** Orthogonalization of [vec] against the components found so far
    ([prevIdx < pcIdx] ranges over all of them). *)
Definition orthogonalize (n : nat) (components : list (list num))
    (vec : list num) : list num :=
  fold_left
    (fun vec comp =>
       let d := dot n vec comp in
       map (fun i => (get vec i - d * get comp i)%num) (seq 0 n))
    components vec.

Definition norm_threshold : num := Fin (1 / 1000000).

(** One round of the power iteration. *)
Definition powerStep (covariance : list num) (n : nat)
    (components : list (list num)) (vec : list num) : list num :=
  let newVec :=
    map (fun i =>
           fold_left (fun acc j =>
                        (acc + get covariance (i * n + j) * get vec j)%num)
                     (seq 0 n) zero)
        (seq 0 n) in
  let norm :=
    Num.sqrt (fold_left (fun acc i => (acc + get newVec i * get newVec i)%num)
                        (seq 0 n) zero) in
  let newVec' :=
    if Num.gt norm norm_threshold
    then map (fun i => (get newVec i / norm)%num) (seq 0 n)
    else newVec in
  orthogonalize n components newVec'.

(** The vector found for component [pcIdx], given the earlier ones. *)
Definition eigenvector (covariance : list num) (n : nat)
    (components : list (list num)) (pcIdx : nat) : list num :=
  let vec :=
    map (fun i => if (i =? pcIdx mod n)%nat then one else zero) (seq 0 n) in
  let vec := orthogonalize n components vec in
  Nat.iter 10 (powerStep covariance n components) vec.

Fixpoint eigenLoop (covariance : list num) (n : nat) (pcIdxs : list nat)
    (components : list (list num)) : list (list num) :=
  match pcIdxs with
  | [] => components
  | pcIdx :: rest =>
      eigenLoop covariance n rest
        (components ++ [eigenvector covariance n components pcIdx])
  end.

Definition computeTopEigenvectors (covariance : list num) (n k : nat)
  : list (list num) :=
  eigenLoop covariance n (seq 0 k) [].

(** Mean, variance and standard deviation of output axis [pc] over the rows
    of [projected], as the normalization loop computes them. *)
Definition axisMean (pc : nat) (projected : list (list num)) : num :=
  (fold_left (fun mean row => (mean + get row pc)%num) projected zero
   / ofNat (length projected))%num.

Definition axisVariance (pc : nat) (projected : list (list num)) : num :=
  let mean := axisMean pc projected in
  (fold_left (fun variance row =>
                let diff := (get row pc - mean)%num in
                (variance + diff * diff)%num)
             projected zero
   / ofNat (length projected))%num.

Definition axisStd (pc : nat) (projected : list (list num)) : num :=
  Num.sqrt (axisVariance pc projected).

(** [row[pc] = v] on a row that has index [pc]. *)
Fixpoint store (pc : nat) (v : num) (row : list num) : list num :=
  match row, pc with
  | [], _ => []
  | _ :: rest, O => v :: rest
  | x :: rest, S pc' => x :: store pc' v rest
  end.

Definition std_threshold : num := Fin (1 / 1000000).

(** The normalization of one output axis. *)
Definition normalizeAxis (projected : list (list num)) (pc : nat)
  : list (list num) :=
  let mean := axisMean pc projected in
  let std := axisStd pc projected in
  if Num.gt std std_threshold
  then map (fun row => store pc ((get row pc - mean) / std)%num row) projected
  else projected.

(** The data after centering, read at [t * featureCount + f] for
    [t < timeSteps] and [f < featureCount], the only places it is read at.
    (A row shorter than the first one makes [matrix] shorter than
    [timeSteps * featureCount]; the missing reads are [undefined].) *)
Definition center (matrix means : list num) (featureCount timeSteps : nat)
  : list num :=
  flat_map (fun t =>
              map (fun f => (at_ matrix featureCount t f - get means f)%num)
                  (seq 0 featureCount))
           (seq 0 timeSteps).

(** The means of the features.  ([means] is a [Float32Array]: the code
    rounds every partial sum and the quotient to single precision; the mean
    here is the exact one.) *)
Definition featureMeans (matrix : list num) (featureCount timeSteps : nat)
  : list num :=
  map (fun f =>
         (fold_left (fun m t => (m + at_ matrix featureCount t f)%num)
                    (seq 0 timeSteps) zero
          / ofNat timeSteps)%num)
      (seq 0 featureCount).

(** [1.0 / Math.max(1, timeSteps - 1)] *)
Definition covarianceDivisor (timeSteps : nat) : nat :=
  Nat.max 1 (timeSteps - 1).

(** The covariance matrix.  ([covariance] is a [Float32Array]: the code
    rounds every entry to single precision, an entry beyond its range to an
    infinity; the entry here is the exact one.) *)
Definition covarianceMatrix (centered : list num) (featureCount timeSteps : nat)
  : list num :=
  let scale := (one / ofNat (covarianceDivisor timeSteps))%num in
  flat_map (fun i =>
              map (fun j =>
                     (fold_left
                        (fun sum t =>
                           (sum + at_ centered featureCount t i
                                  * at_ centered featureCount t j)%num)
                        (seq 0 timeSteps) zero
                      * scale)%num)
                  (seq 0 featureCount))
           (seq 0 featureCount).

Definition project (centered : list num) (featureCount timeSteps : nat)
    (components : list (list num)) : list (list num) :=
  map (fun t =>
         map (fun pc =>
                fold_left
                  (fun sum f =>
                     (sum + at_ centered featureCount t f
                            * get (nth pc components []) f)%num)
                  (seq 0 featureCount) zero)
             (seq 0 3))
      (seq 0 timeSteps).

(** The projection before the normalization loop. *)
Definition projectedRaw (frames : list (list num)) : list (list num) :=
  match frames with
  | [] => []
  | frame0 :: _ =>
      let featureCount := length frame0 in
      let timeSteps := length frames in
      let matrix := concat frames in
      let means := featureMeans matrix featureCount timeSteps in
      let centered := center matrix means featureCount timeSteps in
      let covariance := covarianceMatrix centered featureCount timeSteps in
      let components := computeTopEigenvectors covariance featureCount 3 in
      project centered featureCount timeSteps components
  end.

Definition computePCA3D (mfcc : list (list num)) : list (list num) :=
  match mfcc with
  | [] => []
  | _ :: _ => fold_left normalizeAxis (seq 0 3) (projectedRaw mfcc)
  end.

End PCA.

(* ================================================================= *)
(** ** types.ts and audioProcessor.worker.ts *)

Module Worker.

Inductive WorkerMessage : Type :=
| LOAD_VIDEO (file : string)
| EXTRACT_AUDIO (file : string)
| COMPUTE_SPECTROGRAM (samples : list num) (sampleRate : num)
| COMPUTE_MFCC_PCA (samples : list num) (sampleRate : num)
| CANCEL.

(** The text of an ERROR response: the message of the exception caught, or
    the complaint about an unknown message type. *)
Inductive message : Type :=
| ErrorMessage (e : exn)
| UnknownMessageType (type : string).

Inductive WorkerResponse : Type :=
| PROGRESS (stage : string) (progress : num)
| AUDIO_EXTRACTED (samples : list num) (sampleRate : num) (durationSec : num)
| SPECTROGRAM_COMPUTED (data : list (list num)) (sampleRate : num)
| MFCC_PCA_COMPUTED (points : list (list num)) (mfcc : list (list num))
| ERROR (msg : message).

Definition typeOf (m : WorkerMessage) : string :=
  match m with
  | LOAD_VIDEO _ => "LOAD_VIDEO"
  | EXTRACT_AUDIO _ => "EXTRACT_AUDIO"
  | COMPUTE_SPECTROGRAM _ _ => "COMPUTE_SPECTROGRAM"
  | COMPUTE_MFCC_PCA _ _ => "COMPUTE_MFCC_PCA"
  | CANCEL => "CANCEL"
  end.

(** [computeSpectrogram(samples, sampleRate)] with the default window, hop
    and frame cap. *)
Definition computeSpectrogramDefault (stack : nat) (samples : list num)
    (sampleRate : num) : result Spectrogram.SpectrogramResult :=
  Spectrogram.computeSpectrogram stack samples sampleRate
    DSP_CONFIG.windowSize DSP_CONFIG.hopSize DSP_CONFIG.maxFrames.

(** [spectrogram.data[0]?.length ? (spectrogram.data[0].length - 1) * 2 : 2048] *)
Definition melFftSize (spectrogram : Spectrogram.SpectrogramResult) : Z :=
  match Spectrogram.data spectrogram with
  | [] => 2048
  | frame0 :: _ =>
      if (length frame0 =? 0)%nat then 2048
      else ((Z.of_nat (length frame0) - 1) * 2)%Z
  end.

(** The handler [self.onmessage]: the responses it posts, in order.  A
    response posted before an exception is thrown stays posted; the [catch]
    block adds the ERROR. *)
Definition onmessage (stack : nat) (message : WorkerMessage)
  : list WorkerResponse :=
  match message with
  | COMPUTE_SPECTROGRAM samples sampleRate =>
      PROGRESS "Computing spectrogram" (Fin (1 / 10)) ::
      match computeSpectrogramDefault stack samples sampleRate with
      | Throw e => [ERROR (ErrorMessage e)]
      | Ok result =>
          [PROGRESS "Computing spectrogram" (Fin (9 / 10));
           SPECTROGRAM_COMPUTED (Spectrogram.data result)
                                (Spectrogram.sampleRate result)]
      end
  | COMPUTE_MFCC_PCA samples sampleRate =>
      PROGRESS "Computing spectrogram" (Fin (1 / 10)) ::
      match computeSpectrogramDefault stack samples sampleRate with
      | Throw e => [ERROR (ErrorMessage e)]
      | Ok spectrogram =>
          PROGRESS "Computing mel features" (Fin (3 / 10)) ::
          match Mel.newDefault sampleRate (melFftSize spectrogram) with
          | Throw e => [ERROR (ErrorMessage e)]
          | Ok melFilterbank =>
              PROGRESS "Computing MFCC" (Fin (5 / 10)) ::
              match fst (MFCC.computeMFCC spectrogram melFilterbank
                           DSP_CONFIG.mfccCount) with
              | Throw e => [ERROR (ErrorMessage e)]
              | Ok mfcc =>
                  [PROGRESS "Computing PCA" (Fin (8 / 10));
                   MFCC_PCA_COMPUTED (PCA.computePCA3D mfcc) mfcc]
              end
          end
      end
  | CANCEL => []
  | other => [ERROR (UnknownMessageType (typeOf other))]
  end.

(** The worker as the event loop runs it.  A message posted to the worker is
    queued in [inbox]; the handler is called on the oldest queued message and
    runs to completion before the next one is taken, so a message that
    arrives while a handler runs waits in the queue.  The worker script keeps
    no variable of its own between two calls: its whole state is what is
    queued and what it has posted. *)
Record state : Type := mkState {
  inbox : list WorkerMessage;
  posted : list WorkerResponse
}.

Definition initial : state := mkState [] [].

Inductive event : Type :=
| Arrive (m : WorkerMessage)   (* the page calls worker.postMessage(m) *)
| Dispatch.                    (* the event loop calls onmessage *)

Definition step (stack : nat) (s : state) (e : event) : state :=
  match e with
  | Arrive m => mkState (inbox s ++ [m]) (posted s)
  | Dispatch =>
      match inbox s with
      | [] => s
      | m :: rest => mkState rest (posted s ++ onmessage stack m)
      end
  end.

Definition run (stack : nat) (events : list event) (s : state) : state :=
  fold_left (step stack) events s.

(** Dispatching until the queue is empty. *)
Definition drain (stack : nat) (s : state) : state :=
  run stack (repeat Dispatch (length (inbox s))) s.

Definition isResult (r : WorkerResponse) : bool :=
  match r with
  | SPECTROGRAM_COMPUTED _ _ | MFCC_PCA_COMPUTED _ _ => true
  | _ => false
  end.

Definition isCancel (m : WorkerMessage) : bool :=
  match m with CANCEL => true | _ => false end.

End Worker.

(* ================================================================= *)
(** ** The computations as the specification words them *)

Module Spec.

(** Mel filterbank, application: the weighted sum of the magnitude spectrum
    over the weights of one filter. *)
Definition weightedSum (weights spectrum : list num) : num :=
  fold_left (fun acc ws => (acc + fst ws * snd ws)%num)
            (combine weights spectrum) zero.

Definition applyFilterbank (filters : list (list num)) (spectrum : list num)
  : list num :=
  map (fun weights => weightedSum weights spectrum) filters.

(** Feature extractor: square to power, [log10(power + 1e-10)], then a
    DCT-II restricted to the first [mfccCount] coefficients, coefficient 0
    scaled by [1 / sqrt(n)] and coefficient [k > 0] by [sqrt(2 / n)], [n]
    being the number of mel bins. *)
Definition power (mel : list num) : list num :=
  map (fun m => (m * m)%num) mel.

Definition logPower (p : list num) : list num :=
  map (fun x => Num.log10 (x + Fin (1 / 10000000000))%num) p.

Definition dctSum (x : list num) (k : nat) : num :=
  let n := length x in
  fold_left
    (fun acc xi =>
       (acc + fst xi
              * Num.cos ((Fin PI * ofNat k * (ofNat (snd xi) + Fin (1/2)))
                         / ofNat n))%num)
    (combine x (seq 0 n)) zero.

Definition orthonormalScale (n k : nat) : num :=
  if (k =? 0)%nat then (one / Num.sqrt (ofNat n))%num
  else Num.sqrt (Fin 2 / ofNat n)%num.

Definition dct (x : list num) (count : nat) : list num :=
  map (fun k => (dctSum x k * orthonormalScale (length x) k)%num) (seq 0 count).

Definition cepstralFrame (filters : list (list num)) (mfccCount : nat)
    (spectralFrame : list num) : list num :=
  dct (logPower (power (applyFilterbank filters spectralFrame))) mfccCount.

(** Dimensionality reducer, step 5: the mean of the coordinates of one output
    axis across the frames, their standard deviation (the square root of the
    mean squared distance to the mean), and the z-score normalization
    (subtract the mean, divide by the standard deviation). *)
Definition mean (xs : list R) : R :=
  (fold_right Rplus 0 xs / INR (length xs))%R.



End Spec.

(* ================================================================= *)
(** ** Notions the properties are stated with *)

Section Notions.

Local Open Scope R_scope.

(** A value that is finite and not negative, or finite and positive. *)
Definition nonneg (x : num) : Prop :=
  match x with Fin a => 0 <= a | _ => False end.

Definition positive (x : num) : Prop :=
  match x with Fin a => 0 < a | _ => False end.

(** Arrays of a given length whose values are all finite. *)
Definition farray (n : nat) (l : list num) : Prop :=
  length l = n /\ Forall finite l.

(** Sums of reals, as a loop accumulates them. *)
Fixpoint Rsum (f : R -> R) (xs : list R) : R :=
  match xs with
  | [] => 0
  | x :: rest => f x + Rsum f rest
  end.

(** The real numbers that an element of a [Float32Array] holds exactly:
    [m * 2^e] with a significand of 24 bits and the exponents of single
    precision. *)
Definition float32 (x : R) : Prop :=
  exists m e : Z,
    (Z.abs m < 2 ^ 24)%Z /\ (-149 <= e <= 104)%Z /\ x = IZR m * powerRZ 2 e.

(** A coefficient of a cepstral frame: [computeMFCC] copies every frame out
    of the [Float32Array] that [dct2] returns. *)
Definition coefficient (x : num) : Prop :=
  match x with Fin a => float32 a | _ => False end.

(** The column of output axis [pc] of the projected points. *)
Definition column (pc : nat) (rows : list (list num)) : list num :=
  map (fun row => get row pc) rows.

(** The mel-spaced center frequencies as reals: [melToHz(a + d * i)]. *)
Definition centerHz (a d : R) (i : nat) : R :=
  700 * (Rpower 10 ((a + d * INR i) / 2595) + - 1).

(** The mel value of a frequency above -700 Hz, as a real. *)
Definition melOf (hz : R) : R := 2595 * (ln (1 + hz / 700) / ln 10).

(** The responses of the worker, by kind. *)
Definition isProgress (r : Worker.WorkerResponse) : bool :=
  match r with Worker.PROGRESS _ _ => true | _ => false end.

Definition isError (r : Worker.WorkerResponse) : bool :=
  match r with Worker.ERROR _ => true | _ => false end.

(** The fractions of the progress reports among some responses, in order. *)
Definition progressOf (rs : list Worker.WorkerResponse) : list num :=
  flat_map (fun r => match r with
                     | Worker.PROGRESS _ progress => [progress]
                     | _ => []
                     end) rs.

End Notions.

(* ================================================================= *)
(** ** The discrete Fourier transform, as a sum *)

Module DFT.

Local Open Scope R_scope.

(** [f 0 + f 1 + ... + f (N - 1)] *)
Fixpoint sum (f : nat -> R) (N : nat) : R :=
  match N with
  | O => 0
  | S n => sum f n + f n
  end.

(** The real and the imaginary part of bin [j] of the transform of the real
    sequence [x] of [N] values: the sum of [x[n] * exp(-2 * PI * i * j * n / N)]. *)
Definition re (x : list R) (j : nat) : R :=
  sum (fun n => nth n x 0
                * Rtrigo_def.cos (2 * PI * INR j * INR n / INR (length x)))
      (length x).

Definition im (x : list R) (j : nat) : R :=
  - sum (fun n => nth n x 0
                  * Rtrigo_def.sin (2 * PI * INR j * INR n / INR (length x)))
        (length x).

(** The first [size] values of [x], followed by zeros up to [size] values. *)
Definition pad (size : nat) (x : list R) : list R :=
  firstn size x ++ repeat 0 (size - length x).

End DFT.

(* ================================================================= *)
(** ** audioProcessor.ts: the page's side of the worker *)

Module Client.

(** Which of the two request methods registered a callback: its [onComplete]
    resolves on the response type of that method. *)
Inductive method : Type :=
| ComputeSpectrogram
| ComputeMFCCPCA.

Record callback : Type := mkCallback {
  requested : method;
  onProgress : bool   (* whether the caller passed [onProgress] *)
}.

(** What the page sees of the processor: a call of a caller's [onProgress],
    and a call of [resolve] or [reject] of the promise of request [id].  (A
    caller's [onProgress] is taken not to call back into the processor.) *)
Inductive observation : Type :=
| Progress (id : nat) (stage : string) (progress : num)
| Resolve (id : nat) (response : Worker.WorkerResponse)
| Reject (id : nat) (msg : Worker.message)
| RejectNotInitialized.

(** The fields of an [AudioProcessor]; [callbacks] is the [Map], in insertion
    order. *)
Record state : Type := mkState {
  worker : bool;   (* [this.worker] is not null *)
  messageId : nat;
  callbacks : list (nat * callback);
  observed : list observation
}.

Definition initial : state := mkState true 0 [] [].

(** [Map.prototype.set]: the value of an existing key is replaced in place, a
    new key is appended. *)
Fixpoint map_set (id : nat) (cb : callback) (m : list (nat * callback))
  : list (nat * callback) :=
  match m with
  | [] => [(id, cb)]
  | (k, v) :: rest =>
      if (k =? id)%nat then (k, cb) :: rest else (k, v) :: map_set id cb rest
  end.

(** [Map.prototype.delete] *)
Definition map_delete (id : nat) (m : list (nat * callback))
  : list (nat * callback) :=
  filter (fun kv => negb (fst kv =? id)%nat) m.

Definition matches (m : method) (response : Worker.WorkerResponse) : bool :=
  match m, response with
  | ComputeSpectrogram, Worker.SPECTROGRAM_COMPUTED _ _ => true
  | ComputeMFCCPCA, Worker.MFCC_PCA_COMPUTED _ _ => true
  | _, _ => false
  end.

(** The [onComplete] closure registered for request [id]. *)
Definition onComplete (id : nat) (cb : callback)
    (response : Worker.WorkerResponse) (s : state) : state :=
  let observed' :=
    if matches (requested cb) response then observed s ++ [Resolve id response]
    else match response with
         | Worker.ERROR msg => observed s ++ [Reject id msg]
         | _ => observed s
         end in
  mkState (worker s) (messageId s) (map_delete id (callbacks s)) observed'.

(** The [onError] closure registered for request [id]. *)
Definition onError (id : nat) (msg : Worker.message) (s : state) : state :=
  mkState (worker s) (messageId s) (map_delete id (callbacks s))
          (observed s ++ [Reject id msg]).

(** [this.worker.onmessage] *)
Definition onmessage (response : Worker.WorkerResponse) (s : state) : state :=
  match response with
  | Worker.PROGRESS stage progress =>
      mkState (worker s) (messageId s) (callbacks s)
        (observed s
         ++ flat_map (fun kv =>
                        if onProgress (snd kv)
                        then [Progress (fst kv) stage progress] else [])
                     (callbacks s))
  | _ =>
      match callbacks s with
      | [] => s
      | (id, cb) :: _ =>
          match response with
          | Worker.ERROR msg => onError id msg s
          | _ => onComplete id cb response s
          end
      end
  end.

(** The body shared by the two request methods: the new state and the
    messages posted to the worker. *)
Definition request (m : method) (message : Worker.WorkerMessage)
    (progress : bool) (s : state) : state * list Worker.WorkerMessage :=
  if worker s then
    let id := messageId s in
    (mkState (worker s) (S id)
             (map_set id (mkCallback m progress) (callbacks s)) (observed s),
     [message])
  else
    (mkState (worker s) (messageId s) (callbacks s)
             (observed s ++ [RejectNotInitialized]),
     []).

Definition computeSpectrogram (samples : list num) (sampleRate : num)
    (progress : bool) (s : state) : state * list Worker.WorkerMessage :=
  request ComputeSpectrogram (Worker.COMPUTE_SPECTROGRAM samples sampleRate)
          progress s.

Definition computeMFCCPCA (samples : list num) (sampleRate : num)
    (progress : bool) (s : state) : state * list Worker.WorkerMessage :=
  request ComputeMFCCPCA (Worker.COMPUTE_MFCC_PCA samples sampleRate)
          progress s.

Definition cancel (s : state) : state * list Worker.WorkerMessage :=
  (mkState (worker s) (messageId s) [] (observed s),
   if worker s then [Worker.CANCEL] else []).

Definition terminate (s : state) : state :=
  mkState false (messageId s) [] (observed s).

(** The page and the worker together.  Messages travel in order in both
    directions: [inbox] holds what the page has posted and the worker has not
    handled yet, [channel] what the worker has posted and the page has not
    handled yet.  A terminated worker handles nothing more; what it had
    posted before is still delivered here (no callback is left to see it). *)
Inductive call : Type :=
| CallSpectrogram (samples : list num) (sampleRate : num) (progress : bool)
| CallMFCCPCA (samples : list num) (sampleRate : num) (progress : bool)
| CallCancel
| CallTerminate.

Record system : Type := mkSystem {
  page : state;
  inbox : list Worker.WorkerMessage;
  channel : list Worker.WorkerResponse
}.

Definition start : system := mkSystem initial [] [].

Inductive event : Type :=
| Call (c : call)   (* the page calls a method of the processor *)
| Dispatch          (* the worker handles its oldest message *)
| Deliver.          (* the page handles the oldest response *)

Definition perform (c : call) (sys : system) : system :=
  match c with
  | CallSpectrogram samples sampleRate progress =>
      let (p, msgs) := computeSpectrogram samples sampleRate progress (page sys) in
      mkSystem p (inbox sys ++ msgs) (channel sys)
  | CallMFCCPCA samples sampleRate progress =>
      let (p, msgs) := computeMFCCPCA samples sampleRate progress (page sys) in
      mkSystem p (inbox sys ++ msgs) (channel sys)
  | CallCancel =>
      let (p, msgs) := cancel (page sys) in
      mkSystem p (inbox sys ++ msgs) (channel sys)
  | CallTerminate => mkSystem (terminate (page sys)) [] (channel sys)
  end.

Definition step (stack : nat) (sys : system) (e : event) : system :=
  match e with
  | Call c => perform c sys
  | Dispatch =>
      match inbox sys with
      | [] => sys
      | m :: rest =>
          mkSystem (page sys) rest (channel sys ++ Worker.onmessage stack m)
      end
  | Deliver =>
      match channel sys with
      | [] => sys
      | response :: rest =>
          mkSystem (onmessage response (page sys)) (inbox sys) rest
      end
  end.

Definition run (stack : nat) (events : list event) (sys : system) : system :=
  fold_left (step stack) events sys.

(** The calls of [resolve] and [reject] among the observations, with the
    request they settle. *)
Definition settled (o : observation) : list nat :=
  match o with
  | Resolve id _ | Reject id _ => [id]
  | _ => []
  end.

Definition isSettlement (o : observation) : bool :=
  match o with
  | Resolve _ _ | Reject _ _ => true
  | _ => false
  end.

Definition isRequest (e : event) : bool :=
  match e with
  | Call (CallSpectrogram _ _ _) | Call (CallMFCCPCA _ _ _) => true
  | _ => false
  end.

Definition isCancelOrTerminate (e : event) : bool :=
  match e with
  | Call CallCancel | Call CallTerminate => true
  | _ => false
  end.

(** The requests among some events, in order; the message a request posts
    and the callback it registers. *)
Definition requestsOf (events : list event) : list call :=
  flat_map (fun e => match e with
                     | Call (CallSpectrogram samples sampleRate progress) =>
                         [CallSpectrogram samples sampleRate progress]
                     | Call (CallMFCCPCA samples sampleRate progress) =>
                         [CallMFCCPCA samples sampleRate progress]
                     | _ => []
                     end) events.

Definition messageOf (c : call) : Worker.WorkerMessage :=
  match c with
  | CallSpectrogram samples sampleRate _ =>
      Worker.COMPUTE_SPECTROGRAM samples sampleRate
  | CallMFCCPCA samples sampleRate _ =>
      Worker.COMPUTE_MFCC_PCA samples sampleRate
  | _ => Worker.CANCEL
  end.

Definition callbackOf (c : call) : callback :=
  match c with
  | CallMFCCPCA _ _ progress => mkCallback ComputeMFCCPCA progress
  | CallSpectrogram _ _ progress => mkCallback ComputeSpectrogram progress
  | _ => mkCallback ComputeSpectrogram false
  end.

(** What the worker posts for a request, its progress reports apart. *)
Definition answerOf (stack : nat) (c : call) : list Worker.WorkerResponse :=
  filter (fun r => match r with Worker.PROGRESS _ _ => false | _ => true end)
         (Worker.onmessage stack (messageOf c)).

(** Every request resolved with the answer to its own message; the requests
    are numbered from [first]. *)
Fixpoint answers (stack : nat) (first : nat) (requests : list call)
  : list observation :=
  match requests with
  | [] => []
  | c :: rest =>
      map (Resolve first) (answerOf stack c) ++ answers stack (S first) rest
  end.

End Client.

(* ================================================================= *)
(** ** ManifoldView.tsx: the points as they are displayed *)

Module Manifold.

(** [Math.max] *)
Definition max (x y : num) : num :=
  match x, y with
  | Num.NaN, _ | _, Num.NaN => NaN
  | _, _ => if Num.lt x y then y else x
  end.

Record bounds : Type := mkBounds {
  minX : num; maxX : num;
  minY : num; maxY : num;
  minZ : num; maxZ : num
}.

(** The loop that finds the bounds. *)
Definition findBounds (points : list (list num)) : bounds :=
  fold_left
    (fun b point =>
       mkBounds (Num.min (minX b) (get point 0)) (max (maxX b) (get point 0))
                (Num.min (minY b) (get point 1)) (max (maxY b) (get point 1))
                (Num.min (minZ b) (get point 2)) (max (maxZ b) (get point 2)))
    points (mkBounds PInf NInf PInf NInf PInf NInf).

Definition range_threshold : num := Fin (1 / 1000000).

(** [normalizePoints(points)].  (Doubles throughout in the code; the center,
    the scale and the products here are exact, neither rounded nor
    overflowing.) *)
Definition normalizePoints (points : list (list num)) : list (list num) :=
  match points with
  | [] => points
  | _ :: _ =>
      let b := findBounds points in
      let centerX := ((minX b + maxX b) / Fin 2)%num in
      let centerY := ((minY b + maxY b) / Fin 2)%num in
      let centerZ := ((minZ b + maxZ b) / Fin 2)%num in
      let rangeX := max (maxX b - minX b)%num range_threshold in
      let rangeY := max (maxY b - minY b)%num range_threshold in
      let rangeZ := max (maxZ b - minZ b)%num range_threshold in
      let maxRange := max (max rangeX rangeY) rangeZ in
      let scale := (Fin 2 / maxRange)%num in
      map (fun point =>
             [((get point 0 - centerX) * scale)%num;
              ((get point 1 - centerY) * scale)%num;
              ((get point 2 - centerZ) * scale)%num])
          points
  end.

End Manifold.

(* ================================================================= *)
(** * Properties *)

(** ** Comparisons of reals as booleans *)

Section RealTests.

Local Open Scope R_scope.

Lemma Rltb_true (a b : R) : Rltb a b = true <-> a < b.
Proof. unfold Rltb; destruct (Rlt_dec a b); split; auto; discriminate. Qed.

Lemma Rltb_false (a b : R) : Rltb a b = false <-> b <= a.
Proof.
  unfold Rltb; destruct (Rlt_dec a b); split; intros; try discriminate;
    try lra; reflexivity.
Qed.

Lemma Rleb_true (a b : R) : Rleb a b = true <-> a <= b.
Proof. unfold Rleb; destruct (Rle_dec a b); split; auto; discriminate. Qed.

Lemma Reqb_true (a b : R) : Reqb a b = true <-> a = b.
Proof. unfold Reqb; destruct (Req_dec_T a b); split; auto; discriminate. Qed.

Lemma Reqb_false (a b : R) : Reqb a b = false <-> a <> b.
Proof.
  unfold Reqb; destruct (Req_dec_T a b); split; intros H;
    solve [discriminate | contradiction | assumption | reflexivity].
Qed.

Lemma Reqb_refl (a : R) : Reqb a a = true.
Proof. apply Reqb_true; reflexivity. Qed.

End RealTests.

(** ** Reading the arrays built by a counted loop *)

Lemma get_map_seq (f : nat -> num) (n i : nat) :
  (i < n)%nat -> get (map f (seq 0 n)) i = f i.
Proof.
  intros Hi. unfold get.
  rewrite (nth_indep _ NaN (f 0%nat)) by (rewrite length_map, length_seq; exact Hi).
  rewrite (map_nth f (seq 0 n) 0%nat i), seq_nth by exact Hi.
  reflexivity.
Qed.

(** ** windowing.ts: the Hann window *)

Section Hann.

Local Open Scope R_scope.

Lemma hannWindow_ok (size : Z) :
  (0 <= size)%Z ->
  exists w, hannWindow size = Ok w /\ length w = Z.to_nat size.
Proof.
  intros Hs. unfold hannWindow, newFloat32Array.
  destruct (Z.ltb_spec size 0); [lia|]. cbn [bind].
  eexists; split; [reflexivity|].
  now rewrite length_map, length_seq.
Qed.

Lemma hannWindow_value (size : Z) (w : list num) (i : nat) :
  (2 <= size)%Z -> hannWindow size = Ok w -> (i < Z.to_nat size)%nat ->
  get w i = Fin (hannValue size i).
Proof.
  intros Hs Hw Hi. unfold hannWindow, newFloat32Array in Hw.
  destruct (Z.ltb_spec size 0); [lia|]. cbn [bind] in Hw.
  injection Hw as <-. rewrite get_map_seq by exact Hi.
  cbn [Num.ofNat Num.ofZ Num.div].
  assert (Hn : IZR (size - 1) <> 0) by (apply not_0_IZR; lia).
  apply Reqb_false in Hn. rewrite Hn. reflexivity.
Qed.

Lemma hannValue_sym (size : Z) (i : nat) :
  (2 <= size)%Z -> (i < Z.to_nat size)%nat ->
  hannValue size (Z.to_nat size - 1 - i) = hannValue size i.
Proof.
  intros Hs Hi. unfold hannValue. do 3 f_equal.
  assert (Hn : IZR (size - 1) <> 0) by (apply not_0_IZR; lia).
  replace (INR (Z.to_nat size - 1 - i)) with (IZR (size - 1) - INR i).
  - replace (2 * PI * ((IZR (size - 1) - INR i) / IZR (size - 1)))
      with (- (2 * PI * (INR i / IZR (size - 1))) + 2 * INR 1 * PI)
      by (simpl; field; exact Hn).
    rewrite cos_period. apply cos_neg.
  - rewrite !minus_INR by lia.
    rewrite (INR_IZR_INZ (Z.to_nat size)), Z2Nat.id by lia.
    rewrite minus_IZR. simpl. lra.
Qed.

(** C5, as amended: for every window size [N >= 2], [hannWindow] returns a
    window of [N] values; the value at every index [0 <= i < N] and the value
    at the mirror index [N-1-i] are the formula
    [0.5 * (1 - cos(2 * PI * i / (N - 1)))] at the two indices, and over the
    real numbers the formula takes the same value at both: the window is
    symmetric up to the rounding of the code ([i / n], the product, the
    cosine and the single precision store are each rounded, and two mirror
    values can differ in their last bits).  The first and the last value are
    equal as they are stored, both being 0. *)
Theorem hannWindow_symmetric (N : Z) (i : nat) :
  (2 <= N)%Z -> (i < Z.to_nat N)%nat ->
  exists window,
    hannWindow N = Ok window /\
    length window = Z.to_nat N /\
    get window i = Fin (hannValue N i) /\
    get window (Z.to_nat N - 1 - i) = Fin (hannValue N (Z.to_nat N - 1 - i)) /\
    hannValue N (Z.to_nat N - 1 - i) = hannValue N i /\
    Num.eqb (get window 0) (get window (Z.to_nat N - 1)) = true.
Proof.
  intros HN Hi.
  destruct (hannWindow_ok N) as [w [Hw Hlen]]; [lia|].
  exists w. split; [exact Hw|]. split; [exact Hlen|].
  split; [now apply hannWindow_value|].
  split; [apply hannWindow_value; auto; lia|].
  split; [now apply hannValue_sym|].
  rewrite (hannWindow_value N w 0 HN Hw) by lia.
  rewrite (hannWindow_value N w (Z.to_nat N - 1) HN Hw) by lia.
  replace (Z.to_nat N - 1)%nat with (Z.to_nat N - 1 - 0)%nat by lia.
  rewrite hannValue_sym by (auto; lia).
  apply Reqb_refl.
Qed.

Lemma hannWindow_symmetric_witness :
  exists window,
    hannWindow 4 = Ok window /\
    length window = Z.to_nat 4 /\
    get window 1 = Fin (hannValue 4 1) /\
    get window (Z.to_nat 4 - 1 - 1) = Fin (hannValue 4 (Z.to_nat 4 - 1 - 1)) /\
    hannValue 4 (Z.to_nat 4 - 1 - 1) = hannValue 4 1 /\
    Num.eqb (get window 0) (get window (Z.to_nat 4 - 1)) = true.
Proof.
  apply (hannWindow_symmetric 4 1); [lia | simpl; lia].
Defined.

(** C5 as stated fails at [N = 1]: the only value is [0.5 * (1 - cos(2 * PI *
    (0 / 0)))], which is NaN, and NaN is not equal to itself. *)
Lemma hannWindow_size1_not_symmetric :
  hannWindow 1 = Ok [NaN] /\
  Num.eqb (get [NaN] 0) (get [NaN] (Z.to_nat 1 - 1 - 0)) = false.
Proof.
  split; [|reflexivity].
  unfold hannWindow, newFloat32Array.
  change (Z.to_nat 1) with 1%nat. change (1 - 1)%Z with 0%Z.
  cbn [Z.ltb Z.compare bind seq map Num.ofNat Num.ofZ INR Num.div].
  rewrite !Reqb_refl. reflexivity.
Qed.

End Hann.

(** ** fft.ts: lengths, and the call stack the recursion needs *)

Section FFT.

Lemma butterfly_length (N : nat) (e o : FFTResult) :
  length (real (butterfly N e o)) = N /\ length (imag (butterfly N e o)) = N.
Proof.
  unfold butterfly; cbn [real imag].
  rewrite !length_app, !length_map, !length_seq.
  assert (H : (N / 2 <= N)%nat) by (apply Nat.Div0.div_le_upper_bound; lia).
  destruct (Nat.even N); rewrite ?length_map, ?length_seq, ?repeat_length; lia.
Qed.

Lemma half_pow2 (k : nat) : (2 ^ S k / 2 = 2 ^ k)%nat.
Proof.
  rewrite Nat.pow_succ_r', Nat.mul_comm. apply Nat.div_mul. discriminate.
Qed.

Lemma pow2_S_neq_1 (k : nat) : (2 ^ S k =? 1)%nat = false.
Proof.
  apply Nat.eqb_neq. rewrite Nat.pow_succ_r'.
  pose proof (Nat.pow_nonzero 2 k). lia.
Qed.

(** On an input of [2 ^ k] samples the recursion is [k + 1] calls deep and
    returns arrays of the length of the input. *)
Lemma fft_pow2 (k : nat) :
  forall (stack : nat) (x : list num),
    length x = (2 ^ k)%nat -> (k < stack)%nat ->
    exists r, fft stack x = Ok r /\
              length (real r) = (2 ^ k)%nat /\ length (imag r) = (2 ^ k)%nat.
Proof.
  induction k as [|k IH]; intros stack x Hlen Hstack;
    (destruct stack as [|stack]; [lia|]); cbn [fft]; rewrite Hlen.
  - cbn. eexists; split; [reflexivity|]. split; reflexivity.
  - rewrite pow2_S_neq_1, half_pow2.
    destruct (IH stack (map (fun i => get x (2 * i)) (seq 0 (2 ^ k))))
      as [e [He _]]; [now rewrite length_map, length_seq | lia |].
    destruct (IH stack (map (fun i => get x (2 * i + 1)) (seq 0 (2 ^ k))))
      as [o [Ho _]]; [now rewrite length_map, length_seq | lia |].
    rewrite He, Ho. cbn [bind].
    eexists; split; [reflexivity|]. apply butterfly_length.
Qed.

(** On the empty array the base case [N === 1] is never met: whatever the
    depth available, the call stack is exhausted. *)
Lemma fft_empty (stack : nat) : fft stack [] = Throw RangeError_CallStack.
Proof.
  induction stack as [|stack IH]; [reflexivity|].
  cbn [fft length Nat.eqb]. change (0 / 2)%nat with 0%nat.
  cbn [seq map]. rewrite IH. reflexivity.
Qed.

Lemma zeroPad_length (size : nat) (samples : list num) :
  length (zeroPad size samples) = size.
Proof.
  unfold zeroPad. rewrite length_app, length_firstn, repeat_length. lia.
Qed.

Lemma zeroPad_get (size : nat) (samples : list num) (i : nat) :
  (i < size)%nat ->
  get (zeroPad size samples) i
  = if (i <? length samples)%nat then get samples i else zero.
Proof.
  intros Hi. unfold zeroPad, get.
  destruct (Nat.ltb_spec i (length samples)) as [Hlt|Hge].
  - rewrite app_nth1 by (rewrite length_firstn; lia).
    rewrite nth_firstn. destruct (Nat.ltb_spec i size); [reflexivity | lia].
  - rewrite app_nth2 by (rewrite length_firstn; lia).
    rewrite length_firstn.
    rewrite nth_repeat_lt by lia. reflexivity.
Qed.

Lemma nextPow2_pos (n : Z) :
  (1 <= n)%Z -> nextPow2 n = (2 ^ Z.log2_up n)%Z.
Proof. intros H. unfold nextPow2. destruct (Z.leb_spec n 0); [lia | reflexivity]. Qed.

Lemma nextPow2_to_nat (n : Z) :
  (1 <= n)%Z -> Z.to_nat (nextPow2 n) = (2 ^ Z.to_nat (Z.log2_up n))%nat.
Proof.
  intros H. rewrite nextPow2_pos by exact H.
  pose proof (Z.log2_up_nonneg n) as Hk.
  apply Nat2Z.inj. rewrite Z2Nat.id by (apply Z.pow_nonneg; lia).
  rewrite Nat2Z.inj_pow, Z2Nat.id by exact Hk. reflexivity.
Qed.

(** The least power of two that is at least [n]. *)
Lemma nextPow2_least (n : Z) :
  (1 <= n)%Z ->
  (n <= nextPow2 n)%Z /\
  (forall j : Z, (0 <= j)%Z -> (n <= 2 ^ j)%Z -> (nextPow2 n <= 2 ^ j)%Z).
Proof.
  intros H. rewrite nextPow2_pos by exact H. split.
  - destruct (Z.eq_dec n 1) as [->|]; [cbn; lia|].
    apply (Z.log2_up_spec n); lia.
  - intros j Hj Hle. apply Z.pow_le_mono_r; [lia|].
    apply Z.log2_up_le_pow2; lia.
Qed.

Lemma computeFFT_ok (stack : nat) (samples : list num) (fftSize : Z) :
  (1 <= fftSize)%Z -> (Z.to_nat (Z.log2_up fftSize) < stack)%nat ->
  exists r,
    computeFFT stack samples fftSize = Ok r /\
    length (real r) = Z.to_nat (nextPow2 fftSize) /\
    length (imag r) = Z.to_nat (nextPow2 fftSize).
Proof.
  intros Hsize Hstack. unfold computeFFT.
  rewrite nextPow2_to_nat by exact Hsize.
  apply fft_pow2; [apply zeroPad_length | exact Hstack].
Qed.

(** C4, as amended: for every samples array and every integer [fftSize >= 1],
    [computeFFT] transforms the array of [P] values made of the first
    [min(samples.length, P)] samples followed by zeros, where [P] is the least
    power of two that is at least [fftSize]; with [log2 P + 1] frames of call
    stack it returns, and its [real] and [imag] arrays have exactly [P]
    elements. *)
Theorem computeFFT_pads_to_pow2 (stack : nat) (samples : list num) (fftSize : Z) :
  (1 <= fftSize)%Z -> (Z.to_nat (Z.log2_up fftSize) < stack)%nat ->
  let P := nextPow2 fftSize in
  (P = 2 ^ Z.log2_up fftSize)%Z /\
  (fftSize <= P)%Z /\
  (forall j : Z, (0 <= j)%Z -> (fftSize <= 2 ^ j)%Z -> (P <= 2 ^ j)%Z) /\
  exists input r,
    length input = Z.to_nat P /\
    (forall i, (i < Z.to_nat P)%nat ->
       get input i = if (i <? length samples)%nat then get samples i else zero) /\
    computeFFT stack samples fftSize = fft stack input /\
    fft stack input = Ok r /\
    Z.of_nat (length (real r)) = P /\
    Z.of_nat (length (imag r)) = P.
Proof.
  intros Hsize Hstack P.
  destruct (nextPow2_least fftSize Hsize) as [Hle Hleast].
  destruct (computeFFT_ok stack samples fftSize Hsize Hstack) as [r [Hr [Hre Him]]].
  assert (HP : (0 <= P)%Z) by (unfold P; lia).
  split; [exact (nextPow2_pos fftSize Hsize)|].
  split; [exact Hle|]. split; [exact Hleast|].
  exists (zeroPad (Z.to_nat P) samples), r.
  split; [apply zeroPad_length|].
  split; [intros i Hi; apply zeroPad_get, Hi|].
  split; [reflexivity|]. split; [exact Hr|].
  split; [rewrite Hre | rewrite Him]; apply Z2Nat.id, HP.
Qed.

Lemma computeFFT_pads_to_pow2_witness :
  let P := nextPow2 3 in
  (P = 2 ^ Z.log2_up 3)%Z /\
  (3 <= P)%Z /\
  (forall j : Z, (0 <= j)%Z -> (3 <= 2 ^ j)%Z -> (P <= 2 ^ j)%Z) /\
  exists input r,
    length input = Z.to_nat P /\
    (forall i, (i < Z.to_nat P)%nat ->
       get input i
       = if (i <? length [Fin 1; Fin 2; Fin 3; Fin 4; Fin 5])%nat
         then get [Fin 1; Fin 2; Fin 3; Fin 4; Fin 5] i else zero) /\
    computeFFT 3 [Fin 1; Fin 2; Fin 3; Fin 4; Fin 5] 3 = fft 3 input /\
    fft 3 input = Ok r /\
    Z.of_nat (length (real r)) = P /\
    Z.of_nat (length (imag r)) = P.
Proof.
  apply (computeFFT_pads_to_pow2 3 [Fin 1; Fin 2; Fin 3; Fin 4; Fin 5] 3);
    [lia | cbn; lia].
Defined.

(** C4 as stated fails for [fftSize = 0]: the padded array is empty, the
    recursion never meets its base case, and no depth of call stack lets
    [computeFFT] return. *)
Lemma computeFFT_size0_never_returns :
  ~ exists stack r, computeFFT stack [Fin 1; Fin 2] 0 = Ok r.
Proof.
  intros [stack [r H]]. unfold computeFFT in H.
  change (zeroPad (Z.to_nat (nextPow2 0)) [Fin 1; Fin 2]) with (@nil num) in H.
  rewrite fft_empty in H. discriminate.
Qed.

(** The padded length follows [fftSize], not the length of the samples: five
    samples with [fftSize = 4] are cut to four, and the result has four
    elements (not eight). *)
Lemma computeFFT_truncates_long_input :
  exists r,
    computeFFT 3 [Fin 1; Fin 2; Fin 3; Fin 4; Fin 5] 4 = Ok r /\
    length (real r) = 4%nat /\ length (imag r) = 4%nat.
Proof.
  destruct (computeFFT_ok 3 [Fin 1; Fin 2; Fin 3; Fin 4; Fin 5] 4)
    as [r [Hr [Hre Him]]]; [lia | cbn; lia |].
  exists r. auto.
Qed.

End FFT.

(** ** spectrogram.ts: the number of frames and of bins *)

Section SpectrogramCount.

Import Spectrogram.

Lemma preEmphasis_length (samples : list num) :
  length (preEmphasis samples) = length samples.
Proof. unfold preEmphasis. now rewrite length_map, length_seq. Qed.

Lemma slice_length (l : list num) (b w : Z) :
  (0 <= b)%Z -> (0 <= w)%Z -> (b + w <= Z.of_nat (length l))%Z ->
  length (slice l b (b + w)) = Z.to_nat w.
Proof.
  intros Hb Hw Hfit. unfold slice.
  destruct (Z.ltb_spec b 0); [lia|]. destruct (Z.ltb_spec (b + w) 0); [lia|].
  rewrite length_firstn, length_skipn. lia.
Qed.

Lemma pointwise_mul_length (xs : list num) :
  forall ys, length xs = length ys -> length (pointwise_mul xs ys) = length xs.
Proof.
  induction xs as [|x xs IH]; intros [|y ys] H; cbn in *; try lia.
  now rewrite IH by lia.
Qed.

Lemma applyWindow_ok (samples window : list num) :
  length samples = length window ->
  exists windowed,
    applyWindow samples window = Ok windowed /\ length windowed = length samples.
Proof.
  intros H. unfold applyWindow. rewrite H, Nat.eqb_refl. cbn [negb].
  eexists; split; [reflexivity|].
  rewrite <- H. now apply pointwise_mul_length.
Qed.

Lemma set_ok (target source : list num) :
  (length source <= length target)%nat ->
  exists padded, set target source = Ok padded /\ length padded = length target.
Proof.
  intros H. unfold set. destruct (Nat.ltb_spec (length target) (length source)); [lia|].
  eexists; split; [reflexivity|]. rewrite length_app, length_skipn. lia.
Qed.

Lemma magnitudeSpectrum_length (r : FFTResult) :
  length (magnitudeSpectrum r) = length (real r).
Proof. unfold magnitudeSpectrum. now rewrite length_map, length_seq. Qed.

Lemma nextPow2_ge1 (n : Z) : (1 <= n)%Z -> (1 <= nextPow2 n)%Z.
Proof. intros H. destruct (nextPow2_least n H). lia. Qed.

Variable stack : nat.
Variable preEmphasized window : list num.
Variables windowSize hopSize : Z.

Hypothesis windowSize_pos : (1 <= windowSize)%Z.
Hypothesis window_length : length window = Z.to_nat windowSize.
Hypothesis stack_enough : (Z.to_nat (Z.log2_up windowSize) < stack)%nat.

Let fftSize := nextPow2 windowSize.
Let nBins := (fftSize / 2 + 1)%Z.

(** Where a full window fits, the body of the loop yields one frame of
    [floor(fftSize / 2) + 1] magnitudes. *)
Lemma frameBody_ok (start : Z) :
  (0 <= start)%Z ->
  (start + windowSize <= Z.of_nat (length preEmphasized))%Z ->
  exists frame,
    frameBody stack preEmphasized window windowSize fftSize start = Ok frame /\
    Z.of_nat (length frame) = nBins.
Proof.
  intros Hstart Hfit. unfold frameBody.
  pose proof (nextPow2_least windowSize windowSize_pos) as [Hle _].
  fold fftSize in Hle.
  destruct (applyWindow_ok (slice preEmphasized start (start + windowSize)) window)
    as [windowed [-> Hw]].
  { rewrite slice_length by lia. now rewrite window_length. }
  rewrite slice_length in Hw by lia. cbn [bind].
  unfold newFloat32Array. destruct (Z.ltb_spec fftSize 0); [lia|]. cbn [bind].
  destruct (set_ok (repeat zero (Z.to_nat fftSize)) windowed) as [padded [-> Hp]].
  { rewrite repeat_length. lia. }
  cbn [bind].
  destruct (computeFFT_ok stack padded windowSize windowSize_pos stack_enough)
    as [r [Hr [Hre _]]].
  assert (Hsame : nextPow2 fftSize = fftSize).
  { unfold fftSize. rewrite (nextPow2_pos windowSize) by lia.
    rewrite nextPow2_pos by (apply Z.lt_pred_le, Z.pow_pos_nonneg;
                             [lia | apply Z.log2_up_nonneg]).
    rewrite Z.log2_up_pow2 by apply Z.log2_up_nonneg. reflexivity. }
  unfold computeFFT in *. rewrite Hsame.
  assert (Hpad : zeroPad (Z.to_nat fftSize) padded = padded).
  { unfold zeroPad. rewrite Hp, repeat_length, Nat.sub_diag.
    cbn [repeat]. rewrite app_nil_r. apply firstn_all2.
    rewrite Hp, repeat_length. lia. }
  rewrite Hpad.
  assert (Hfft : fft stack padded
                 = fft stack (zeroPad (Z.to_nat (nextPow2 windowSize)) padded)).
  { fold fftSize. now rewrite Hpad. }
  rewrite Hfft, Hr. cbn [bind].
  eexists; split; [reflexivity|].
  change 0%Z with (0 + 0)%Z at 1.
  replace (fftSize / 2 + 1)%Z with (0 + (fftSize / 2 + 1))%Z by lia.
  rewrite slice_length.
  - fold nBins. unfold nBins. pose proof (Z.div_pos fftSize 2). lia.
  - lia.
  - pose proof (Z.div_pos fftSize 2). lia.
  - rewrite magnitudeSpectrum_length, Hre. fold fftSize.
    assert (fftSize / 2 + 1 <= fftSize)%Z
      by (pose proof (Z.mul_div_le fftSize 2); pose proof (Z.div_pos fftSize 2); lia).
    lia.
Qed.

Hypothesis hopSize_pos : (1 <= hopSize)%Z.

(** While full windows fit, the loop appends one frame per index and never
    takes the [break]. *)
Lemma frameLoop_ok (remaining : nat) :
  forall (frameIdx : Z) (spectrogram : list (list num)),
    (0 <= frameIdx)%Z ->
    ((frameIdx + Z.of_nat remaining - 1) * hopSize + windowSize
     <= Z.of_nat (length preEmphasized) \/ remaining = 0%nat)%Z ->
    exists frames,
      frameLoop stack preEmphasized window windowSize hopSize fftSize
        remaining frameIdx spectrogram = Ok (spectrogram ++ frames) /\
      length frames = remaining /\
      Forall (fun frame => Z.of_nat (length frame) = nBins) frames.
Proof.
  induction remaining as [|remaining IH]; intros frameIdx spectrogram Hidx Hfit.
  - exists []. cbn. rewrite app_nil_r. auto.
  - destruct Hfit as [Hfit|]; [|discriminate].
    cbn [frameLoop].
    assert (Hhere : (frameIdx * hopSize + windowSize
                     <= Z.of_nat (length preEmphasized))%Z) by nia.
    destruct (Z.gtb_spec (frameIdx * hopSize + windowSize)
                         (Z.of_nat (length preEmphasized))); [lia|].
    destruct (frameBody_ok (frameIdx * hopSize)) as [frame [-> Hframe]];
      [nia | exact Hhere |].
    cbn [bind].
    destruct (IH (frameIdx + 1)%Z (spectrogram ++ [frame])) as [frames [-> [Hn Hall]]].
    + lia.
    + destruct remaining; [now right | left].
      replace (frameIdx + 1 + Z.of_nat (S remaining) - 1)%Z
        with (frameIdx + Z.of_nat (S (S remaining)) - 1)%Z by lia.
      exact Hfit.
    + exists (frame :: frames). rewrite <- app_assoc. cbn [app].
      repeat split; [cbn; lia | constructor; assumption].
Qed.

End SpectrogramCount.

Section SpectrogramTheorems.

Import Spectrogram.

(** The frame count the loop is given, for a positive hop. *)
Lemma iterations_count (len windowSize hopSize maxFrames : Z) :
  (1 <= hopSize)%Z ->
  Z.of_nat (iterations
              (js_min maxFrames (js_plus1 (floor_div (len - windowSize) hopSize))))
  = Z.max 0 (Z.min maxFrames ((len - windowSize) / hopSize + 1)).
Proof.
  intros Hh. unfold floor_div.
  destruct (Z.eqb_spec hopSize 0); [lia|].
  cbn [js_plus1 js_min iterations]. lia.
Qed.

Lemma computeSpectrogram_count
    (stack : nat) (samples : list num) (sampleRate : num)
    (windowSize hopSize maxFrames : Z) :
  (1 <= windowSize)%Z -> (1 <= hopSize)%Z ->
  (Z.to_nat (Z.log2_up windowSize) < stack)%nat ->
  exists r,
    computeSpectrogram stack samples sampleRate windowSize hopSize maxFrames
    = Ok r /\
    Z.of_nat (length (data r))
    = Z.max 0 (Z.min maxFrames
                 ((Z.of_nat (length (preEmphasis samples)) - windowSize)
                  / hopSize + 1)) /\
    Forall (fun frame =>
              Z.of_nat (length frame) = (nextPow2 windowSize / 2 + 1)%Z)
           (data r) /\
    nFrames r = length (data r) /\
    Spectrogram.sampleRate r = sampleRate.
Proof.
  intros Hw Hh Hstack. unfold computeSpectrogram.
  destruct (hannWindow_ok windowSize) as [window [-> Hwin]]; [lia|].
  cbn [bind].
  set (len := Z.of_nat (length (preEmphasis samples))).
  set (n := iterations _).
  assert (Hn : Z.of_nat n
               = Z.max 0 (Z.min maxFrames ((len - windowSize) / hopSize + 1)))
    by (apply iterations_count; exact Hh).
  destruct (frameLoop_ok stack (preEmphasis samples) window windowSize hopSize
              Hw Hwin Hstack Hh n 0%Z [])
    as [frames [-> [Hlen Hall]]]; [lia | |].
  { destruct n; [now right | left]. fold len.
    assert (Hq : (Z.of_nat (S n) <= (len - windowSize) / hopSize + 1)%Z) by lia.
    pose proof (Z.mul_div_le (len - windowSize) hopSize ltac:(lia)). nia. }
  cbn [bind app]. eexists; split; [reflexivity|]. cbn [data nFrames].
  repeat split; auto. rewrite Hlen. exact Hn.
Qed.

(** C1, as amended: for integers [windowSize >= 1] and [hopSize >= 1] (and
    call stack for one transform), [computeSpectrogram] returns a spectrogram
    whose frame count is
    [max(0, min(maxFrames, floor((len(preEmphasized) - windowSize) / hopSize) + 1))],
    [preEmphasized] having the length of the input; every frame has exactly
    [floor(fftSize / 2) + 1] bins, [fftSize] being the least power of two that
    is at least [windowSize]; and there is no frame when the input is shorter
    than one window. *)
Theorem computeSpectrogram_frame_count
    (stack : nat) (samples : list num) (sampleRate : num)
    (windowSize hopSize maxFrames : Z) :
  (1 <= windowSize)%Z -> (1 <= hopSize)%Z ->
  (Z.to_nat (Z.log2_up windowSize) < stack)%nat ->
  exists r,
    computeSpectrogram stack samples sampleRate windowSize hopSize maxFrames
    = Ok r /\
    length (preEmphasis samples) = length samples /\
    Z.of_nat (length (data r))
    = Z.max 0 (Z.min maxFrames
                 ((Z.of_nat (length (preEmphasis samples)) - windowSize)
                  / hopSize + 1)) /\
    (let fftSize := nextPow2 windowSize in
     (windowSize <= fftSize)%Z /\
     (forall j : Z, (0 <= j)%Z -> (windowSize <= 2 ^ j)%Z -> (fftSize <= 2 ^ j)%Z) /\
     fftSize = (2 ^ Z.log2_up windowSize)%Z /\
     Forall (fun frame => Z.of_nat (length frame) = (fftSize / 2 + 1)%Z) (data r)) /\
    ((Z.of_nat (length samples) < windowSize)%Z -> data r = []).
Proof.
  intros Hw Hh Hstack.
  destruct (computeSpectrogram_count stack samples sampleRate windowSize hopSize
              maxFrames Hw Hh Hstack) as [r [Hr [Hcount [Hbins _]]]].
  exists r. split; [exact Hr|]. split; [apply preEmphasis_length|].
  split; [exact Hcount|]. split.
  - destruct (nextPow2_least windowSize Hw) as [Hle Hleast].
    repeat split; auto using nextPow2_pos.
  - intros Hshort. rewrite preEmphasis_length in Hcount.
    assert (Hq : ((Z.of_nat (length samples) - windowSize) / hopSize < 0)%Z)
      by (apply Z.div_lt_upper_bound; lia).
    destruct (data r); [reflexivity | cbn [length] in Hcount; lia].
Qed.

Lemma computeSpectrogram_frame_count_witness :
  exists r,
    computeSpectrogram 3 (repeat zero 7) (Fin 44100) 4 2 2000 = Ok r /\
    length (preEmphasis (repeat zero 7)) = length (repeat zero 7) /\
    Z.of_nat (length (data r))
    = Z.max 0 (Z.min 2000
                 ((Z.of_nat (length (preEmphasis (repeat zero 7))) - 4) / 2 + 1)) /\
    (let fftSize := nextPow2 4 in
     (4 <= fftSize)%Z /\
     (forall j : Z, (0 <= j)%Z -> (4 <= 2 ^ j)%Z -> (fftSize <= 2 ^ j)%Z) /\
     fftSize = (2 ^ Z.log2_up 4)%Z /\
     Forall (fun frame => Z.of_nat (length frame) = (fftSize / 2 + 1)%Z) (data r)) /\
    ((Z.of_nat (length (repeat zero 7)) < 4)%Z -> data r = []).
Proof.
  apply (computeSpectrogram_frame_count 3 (repeat zero 7) (Fin 44100) 4 2 2000);
    [lia | lia | cbn; lia].
Defined.

(** C1 as stated fails on an input much shorter than a window: with no
    sample and the default sizes the formula of the claim evaluates to
    [min(2000, floor(-2048 / 512) + 1) = -3], while the spectrogram has 0
    frames. *)
Lemma computeSpectrogram_empty_input_count :
  exists r,
    computeSpectrogram 12 [] (Fin 44100) 2048 512 2000 = Ok r /\
    length (data r) = 0%nat /\
    Z.min 2000 ((Z.of_nat (length (preEmphasis [])) - 2048) / 512 + 1) = (-3)%Z /\
    Z.of_nat (length (data r))
    <> Z.min 2000 ((Z.of_nat (length (preEmphasis [])) - 2048) / 512 + 1).
Proof.
  destruct (computeSpectrogram_count 12 [] (Fin 44100) 2048 512 2000)
    as [r [Hr [Hcount _]]]; [lia | lia | cbn; lia |].
  exists r. split; [exact Hr|].
  change (Z.of_nat (length (preEmphasis []))) with 0%Z in *.
  change ((0 - 2048) / 512 + 1)%Z with (-3)%Z in *.
  repeat split; lia.
Qed.

(** Outside the sizes of the amended claim: a negative window size is
    refused when the window is allocated, and a window of size 0 leaves the
    transform with an empty array. *)
Lemma computeSpectrogram_negative_window (stack : nat) (samples : list num)
    (sampleRate : num) (windowSize hopSize maxFrames : Z) :
  (windowSize < 0)%Z ->
  computeSpectrogram stack samples sampleRate windowSize hopSize maxFrames
  = Throw RangeError_InvalidLength.
Proof.
  intros H. unfold computeSpectrogram, hannWindow, newFloat32Array.
  destruct (Z.ltb_spec windowSize 0); [reflexivity | lia].
Qed.

Lemma computeSpectrogram_zero_window (stack : nat) :
  computeSpectrogram stack [Fin 1; Fin 2] (Fin 44100) 0 512 2000
  = Throw RangeError_CallStack.
Proof.
  unfold computeSpectrogram. cbn [hannWindow newFloat32Array Z.ltb Z.compare bind].
  change (Z.to_nat 0) with 0%nat. cbn [seq map bind].
  change (nextPow2 0) with 0%Z.
  change (iterations _) with 1%nat.
  cbn [frameLoop]. change (0 * 512 + 0 >? _)%Z with false. cbn iota.
  unfold frameBody. change (slice _ (0 * 512) (0 * 512 + 0)) with (@nil num).
  cbn [applyWindow length Nat.eqb negb bind pointwise_mul].
  cbn [newFloat32Array Z.ltb Z.compare bind].
  change (Z.to_nat 0) with 0%nat. cbn [repeat set length Nat.ltb Nat.leb bind app skipn].
  unfold computeFFT. change (zeroPad (Z.to_nat (nextPow2 0)) []) with (@nil num).
  now rewrite fft_empty.
Qed.

(** With a negative hop the quotient of the formula is positive for a short
    input, and the [break] of the loop is what leaves the spectrogram empty:
    no sample, [windowSize = 4], [hopSize = -1] give [nFrames = 5] and no
    frame. *)
Lemma computeSpectrogram_negative_hop (stack : nat) :
  exists r,
    computeSpectrogram stack [] (Fin 44100) 4 (-1) 2000 = Ok r /\
    data r = [] /\
    Z.max 0 (Z.min 2000 ((Z.of_nat (length (preEmphasis [])) - 4) / (-1) + 1))
    = 5%Z.
Proof.
  unfold computeSpectrogram.
  destruct (hannWindow_ok 4) as [window [-> _]]; [lia|].
  cbn [bind]. change (iterations _) with 5%nat.
  cbn [frameLoop preEmphasis length seq map].
  change (0 * -1 + 4 >? Z.of_nat 0)%Z with true. cbn iota. cbn [bind].
  eexists; split; [reflexivity|]. split; reflexivity.
Qed.

End SpectrogramTheorems.

(** ** Counted loops over arrays and sums over lists *)

Section Loops.

Context {A B : Type}.

Lemma fold_left_ext_in (f g : A -> B -> A) (l : list B) :
  (forall a x, In x l -> f a x = g a x) ->
  forall a, fold_left f l a = fold_left g l a.
Proof.
  induction l as [|x l IH]; intros H a; [reflexivity|].
  cbn [fold_left]. rewrite (H a x) by (left; reflexivity).
  apply IH. intros a' y Hy. apply H. right; exact Hy.
Qed.

End Loops.

(** A loop [for (i = 0; i < xs.length; i++) acc = G(acc, xs[i], i)] is the
    fold over the elements paired with their indices. *)
Lemma fold_indexed (G : num -> num -> nat -> num) (xs : list num) :
  forall (s : nat) (a : num),
    fold_left (fun acc i => G acc (get xs (i - s)) i) (seq s (length xs)) a
    = fold_left (fun acc p => G acc (fst p) (snd p))
                (combine xs (seq s (length xs))) a.
Proof.
  induction xs as [|x xs IH]; intros s a; [reflexivity|].
  cbn [length seq combine fold_left fst snd].
  rewrite Nat.sub_diag. cbn [Num.get nth].
  rewrite <- IH. apply fold_left_ext_in.
  intros acc i Hi. apply in_seq in Hi.
  replace (i - s)%nat with (S (i - S s)) by lia. reflexivity.
Qed.

Lemma fold_indexed0 (G : num -> num -> nat -> num) (xs : list num) (a : num) :
  fold_left (fun acc i => G acc (get xs i) i) (seq 0 (length xs)) a
  = fold_left (fun acc p => G acc (fst p) (snd p))
              (combine xs (seq 0 (length xs))) a.
Proof.
  rewrite <- fold_indexed. apply fold_left_ext_in.
  intros acc i _. now rewrite Nat.sub_0_r.
Qed.

(** A loop over the common indices of two arrays is the fold over the pairs
    of their elements. *)
Lemma fold_pairwise (F : num -> num -> num -> num) (xs : list num) :
  forall (ys : list num) (a : num),
    fold_left (fun acc i => F acc (get xs i) (get ys i))
              (seq 0 (Nat.min (length xs) (length ys))) a
    = fold_left (fun acc p => F acc (fst p) (snd p)) (combine xs ys) a.
Proof.
  induction xs as [|x xs IH]; intros [|y ys] a; try reflexivity.
  cbn [length Nat.min seq combine fold_left fst snd Num.get nth].
  rewrite <- IH, <- seq_shift.
  generalize (F a x y). generalize (seq 0 (Nat.min (length xs) (length ys))).
  induction l as [|i l IHl]; intros a'; [reflexivity|].
  cbn [map fold_left Num.get nth]. apply IHl.
Qed.

Lemma length_map_seq {A : Type} (f : nat -> A) (n : nat) :
  length (map f (seq 0 n)) = n.
Proof. now rewrite length_map, length_seq. Qed.

Lemma map_nth_seq {A B : Type} (g : A -> B) (d : A) (l : list A) :
  map (fun i => g (nth i l d)) (seq 0 (length l)) = map g l.
Proof.
  induction l as [|x l IH]; [reflexivity|].
  cbn [length seq map nth]. f_equal.
  rewrite <- seq_shift, map_map. exact IH.
Qed.

(** ** melFilterbank.ts: [apply] *)

Section MelApply.

Lemma filterSum_weightedSum (filter spectrum : list num) :
  Mel.filterSum filter spectrum = Spec.weightedSum filter spectrum.
Proof.
  unfold Mel.filterSum, Spec.weightedSum.
  apply (fold_pairwise (fun acc w s => (acc + w * s)%num)).
Qed.

Lemma filterLoop_length (freqResolution : num) (nFreqBins : Z) (cf : list num)
    (melIdxs : list nat) :
  forall fs,
    Mel.filterLoop freqResolution nFreqBins cf melIdxs = Ok fs ->
    length fs = length melIdxs /\
    Forall (fun filter => length filter = Z.to_nat nFreqBins) fs.
Proof.
  induction melIdxs as [|melIdx rest IH]; intros fs H; cbn [Mel.filterLoop] in H.
  - injection H as <-. split; [reflexivity | constructor].
  - unfold newFloat32Array in H.
    destruct (nFreqBins <? 0)%Z; [discriminate|]. cbn [bind] in H.
    destruct (Mel.filterLoop freqResolution nFreqBins cf rest) as [others|e];
      [|discriminate].
    cbn [bind] in H. injection H as <-.
    destruct (IH others eq_refl) as [Hlen Hall].
    split; [cbn; now rewrite Hlen|].
    constructor; [|exact Hall].
    now rewrite length_map, length_seq, repeat_length.
Qed.

Lemma new_filters (sampleRate : num) (fftSize melBins : Z) (fMin fMax : num)
    (fb : Mel.MelFilterbank) :
  Mel.new sampleRate fftSize melBins fMin fMax = Ok fb ->
  Mel.fftSize fb = fftSize /\ Mel.melBins fb = melBins /\
  length (Mel.filters fb) = Z.to_nat melBins /\
  Forall (fun filter => length filter = Z.to_nat (fftSize / 2 + 1))
         (Mel.filters fb).
Proof.
  unfold Mel.new, Mel.createFilters. intros H.
  destruct (Mel.filterLoop _ _ _ _) as [fs|e] eqn:Hfs; [|discriminate].
  cbn [bind] in H. injection H as <-. cbn.
  apply filterLoop_length in Hfs. rewrite length_seq in Hfs.
  destruct Hfs. auto.
Qed.

Lemma filterLoop_ok (freqResolution : num) (nFreqBins : Z) (cf : list num)
    (melIdxs : list nat) :
  (0 <= nFreqBins)%Z \/ melIdxs = [] ->
  exists fs, Mel.filterLoop freqResolution nFreqBins cf melIdxs = Ok fs.
Proof.
  intros H. induction melIdxs as [|melIdx rest IH]; cbn [Mel.filterLoop].
  - eexists; reflexivity.
  - destruct H as [H|H]; [|discriminate].
    unfold newFloat32Array. destruct (Z.ltb_spec nFreqBins 0); [lia|].
    cbn [bind]. destruct IH as [others ->]; [now left|].
    cbn [bind]. eexists; reflexivity.
Qed.

(** The constructor returns whenever the number of frequency bins is not
    negative. *)
Lemma new_ok (sampleRate : num) (fftSize melBins : Z) (fMin fMax : num) :
  (0 <= fftSize / 2 + 1)%Z ->
  exists fb, Mel.new sampleRate fftSize melBins fMin fMax = Ok fb.
Proof.
  intros H. unfold Mel.new, Mel.createFilters.
  destruct (filterLoop_ok (sampleRate / ofZ fftSize)%num (fftSize / 2 + 1)
              (Mel.centerFreqs melBins fMin
                 (Num.min fMax (sampleRate / Fin 2)%num))
              (seq 0 (Z.to_nat melBins))) as [fs ->]; [now left|].
  cbn [bind]. eexists; reflexivity.
Qed.


Lemma apply_matching (fb : Mel.MelFilterbank) (spectrum : list num) :
  (0 <= Mel.melBins fb)%Z ->
  length (Mel.filters fb) = Z.to_nat (Mel.melBins fb) ->
  Z.of_nat (length spectrum) = (Mel.fftSize fb / 2 + 1)%Z ->
  Mel.apply fb spectrum
  = (Ok (Spec.applyFilterbank (Mel.filters fb) spectrum), fb).
Proof.
  intros Hbins Hlen Hmatch. unfold Mel.apply.
  rewrite Hmatch, Z.eqb_refl. cbn [negb].
  unfold newFloat32Array. destruct (Z.ltb_spec (Mel.melBins fb) 0); [lia|].
  cbn [bind]. rewrite repeat_length, <- Hlen. f_equal. f_equal.
  unfold Spec.applyFilterbank.
  rewrite (map_nth_seq (fun filter => Mel.filterSum filter spectrum)).
  apply map_ext. intros filter. apply filterSum_weightedSum.
Qed.



End MelApply.

(** ** mfcc.ts: the cepstral frames *)

Section MFCCFrames.

Local Open Scope R_scope.

Lemma div_as_mul (x : num) (q : R) :
  0 <= q -> (x / Fin q)%num = (x * (one / Fin q))%num.
Proof.
  intros Hq. unfold Num.one.
  destruct (Req_dec_T q 0) as [->|Hne].
  - destruct x as [a| | |]; cbn; rewrite ?Reqb_refl; try reflexivity.
    + replace (Reqb 1 0) with false by (symmetry; apply Reqb_false; lra).
      replace (Rltb 0 1) with true by (symmetry; apply Rltb_true; lra).
      unfold Num.inf_times. destruct (Reqb a 0); [reflexivity|].
      destruct (Rltb 0 a); reflexivity.
    + replace (Rltb 0 0) with false by (symmetry; apply Rltb_false; lra).
      replace (Reqb 1 0) with false by (symmetry; apply Reqb_false; lra).
      replace (Rltb 0 1) with true by (symmetry; apply Rltb_true; lra).
      reflexivity.
    + replace (Rltb 0 0) with false by (symmetry; apply Rltb_false; lra).
      replace (Reqb 1 0) with false by (symmetry; apply Reqb_false; lra).
      replace (Rltb 0 1) with true by (symmetry; apply Rltb_true; lra).
      reflexivity.
  - assert (Hpos : 0 < 1 / q) by (apply Rdiv_lt_0_compat; lra).
    destruct x as [a| | |]; cbn;
      replace (Reqb q 0) with false by (symmetry; apply Reqb_false; exact Hne);
      cbn; try reflexivity.
    + f_equal. field. exact Hne.
    + replace (Rltb q 0) with false by (symmetry; apply Rltb_false; lra).
      unfold Num.inf_times.
      replace (Reqb (1 / q) 0) with false by (symmetry; apply Reqb_false; lra).
      replace (Rltb 0 (1 / q)) with true by (symmetry; apply Rltb_true; lra).
      reflexivity.
    + replace (Rltb q 0) with false by (symmetry; apply Rltb_false; lra).
      unfold Num.inf_times.
      replace (Reqb (1 / q) 0) with false by (symmetry; apply Reqb_false; lra).
      replace (Rltb 0 (1 / q)) with true by (symmetry; apply Rltb_true; lra).
      reflexivity.
Qed.

Lemma sqrt_ofNat (n : nat) : Num.sqrt (ofNat n) = Fin (sqrt (INR n)).
Proof.
  cbn. replace (Rltb (INR n) 0) with false; [reflexivity|].
  symmetry. apply Rltb_false, pos_INR.
Qed.

Lemma dct2_spec (input : list num) (count : Z) :
  (0 <= count)%Z ->
  MFCC.dct2 input count = Ok (Spec.dct input (Z.to_nat count)).
Proof.
  intros Hc. unfold MFCC.dct2, newFloat32Array.
  destruct (Z.ltb_spec count 0); [lia|]. cbn [bind].
  rewrite repeat_length. f_equal. unfold Spec.dct.
  apply map_ext. intros k.
  rewrite (fold_indexed0
             (fun acc x i =>
                (acc + x * Num.cos ((Fin PI * ofNat k * (ofNat i + Fin (1 / 2)))
                                    / ofNat (length input)))%num)).
  fold (Spec.dctSum input k). unfold Spec.orthonormalScale.
  destruct (k =? 0)%nat; [|reflexivity].
  rewrite sqrt_ofNat. apply div_as_mul, sqrt_pos.
Qed.

Lemma dct_length (x : list num) (count : nat) : length (Spec.dct x count) = count.
Proof. unfold Spec.dct. now rewrite length_map, length_seq. Qed.

Lemma mfccLoop_spec (fb : Mel.MelFilterbank) (mfccCount : Z) :
  (0 <= Mel.melBins fb)%Z ->
  length (Mel.filters fb) = Z.to_nat (Mel.melBins fb) ->
  (0 <= mfccCount)%Z ->
  forall (frames mfccFrames : list (list num)),
    Forall (fun frame =>
              Z.of_nat (length frame) = (Mel.fftSize fb / 2 + 1)%Z) frames ->
    MFCC.mfccLoop frames fb mfccCount mfccFrames
    = (Ok (mfccFrames
           ++ map (Spec.cepstralFrame (Mel.filters fb) (Z.to_nat mfccCount))
                  frames),
       fb).
Proof.
  intros Hbins Hlen Hcount.
  induction frames as [|frame rest IH]; intros mfccFrames Hall.
  - cbn. now rewrite app_nil_r.
  - inversion Hall as [|? ? Hframe Hrest]; subst.
    cbn [MFCC.mfccLoop]. rewrite apply_matching by assumption.
    rewrite dct2_spec by exact Hcount.
    rewrite IH by exact Hrest. rewrite <- app_assoc. reflexivity.
Qed.



End MFCCFrames.

(** ** audioProcessor.worker.ts: the handler *)

Section WorkerRuns.

Import Worker.

(** With the default sizes the spectrogram is computed without an exception,
    given twelve frames of call stack for the transform of 2048 samples. *)
Lemma computeSpectrogramDefault_ok
    (stack : nat) (samples : list num) (sampleRate : num) :
  (12 <= stack)%nat ->
  exists r,
    computeSpectrogramDefault stack samples sampleRate = Ok r /\
    Z.of_nat (length (Spectrogram.data r))
    = Z.max 0 (Z.min 2000 ((Z.of_nat (length samples) - 2048) / 512 + 1)) /\
    Forall (fun frame => length frame = 1025%nat) (Spectrogram.data r) /\
    Spectrogram.sampleRate r = sampleRate.
Proof.
  intros Hstack.
  destruct (computeSpectrogram_count stack samples sampleRate
              DSP_CONFIG.windowSize DSP_CONFIG.hopSize DSP_CONFIG.maxFrames)
    as [r [Hr [Hcount [Hbins [_ Hsr]]]]];
    [unfold DSP_CONFIG.windowSize; lia
    | unfold DSP_CONFIG.hopSize; lia
    | change (Z.to_nat (Z.log2_up DSP_CONFIG.windowSize)) with 11%nat; lia |].
  exists r. split; [exact Hr|]. rewrite preEmphasis_length in Hcount.
  split; [exact Hcount|]. split; [|exact Hsr].
  change (nextPow2 DSP_CONFIG.windowSize / 2 + 1)%Z with 1025%Z in Hbins.
  eapply Forall_impl; [|exact Hbins]. cbn beta. intros frame Hf. lia.
Qed.

Lemma melFftSize_default (r : Spectrogram.SpectrogramResult) :
  Forall (fun frame => length frame = 1025%nat) (Spectrogram.data r) ->
  melFftSize r = 2048%Z.
Proof.
  unfold melFftSize. intros H.
  destruct (Spectrogram.data r) as [|frame0 rest]; [reflexivity|].
  inversion H as [|? ? H0 _]; subst. rewrite H0. reflexivity.
Qed.

(** The features of a default run, with the filterbank they are computed
    with. *)
Lemma pipeline_mfcc (r : Spectrogram.SpectrogramResult) (sampleRate : num) :
  Forall (fun frame => length frame = 1025%nat) (Spectrogram.data r) ->
  exists fb,
    Mel.newDefault sampleRate (melFftSize r) = Ok fb /\
    Mel.new sampleRate 2048 128 DSP_CONFIG.fMin DSP_CONFIG.fMax = Ok fb /\
    MFCC.computeMFCC r fb DSP_CONFIG.mfccCount
    = (Ok (map (Spec.cepstralFrame (Mel.filters fb) 40) (Spectrogram.data r)),
       fb).
Proof.
  intros Hbins. rewrite (melFftSize_default r Hbins). unfold Mel.newDefault.
  change DSP_CONFIG.melBins with 128%Z.
  destruct (new_ok sampleRate 2048 128 DSP_CONFIG.fMin DSP_CONFIG.fMax)
    as [fb Hfb]; [cbv; discriminate|].
  exists fb. split; [exact Hfb|]. split; [exact Hfb|].
  destruct (new_filters _ _ _ _ _ _ Hfb) as [Hfft [Hmel [Hlen _]]].
  unfold MFCC.computeMFCC.
  rewrite mfccLoop_spec.
  - reflexivity.
  - rewrite Hmel; lia.
  - rewrite Hmel; exact Hlen.
  - unfold DSP_CONFIG.mfccCount; lia.
  - rewrite Hfft. eapply Forall_impl; [|exact Hbins].
    cbn beta. intros frame ->. reflexivity.
Qed.

(** What the handler posts for each request, given the call stack: the
    progress reports and then the result; neither request ends in an ERROR. *)
Lemma onmessage_COMPUTE_SPECTROGRAM
    (stack : nat) (samples : list num) (sampleRate : num) :
  (12 <= stack)%nat ->
  exists data,
    onmessage stack (COMPUTE_SPECTROGRAM samples sampleRate)
    = [PROGRESS "Computing spectrogram" (Fin (1 / 10));
       PROGRESS "Computing spectrogram" (Fin (9 / 10));
       SPECTROGRAM_COMPUTED data sampleRate] /\
    Z.of_nat (length data)
    = Z.max 0 (Z.min 2000 ((Z.of_nat (length samples) - 2048) / 512 + 1)).
Proof.
  intros Hstack.
  destruct (computeSpectrogramDefault_ok stack samples sampleRate Hstack)
    as [r [Hr [Hcount [_ Hsr]]]].
  exists (Spectrogram.data r). cbn [onmessage]. rewrite Hr, Hsr. auto.
Qed.

Lemma onmessage_COMPUTE_MFCC_PCA
    (stack : nat) (samples : list num) (sampleRate : num) :
  (12 <= stack)%nat ->
  exists mfcc,
    onmessage stack (COMPUTE_MFCC_PCA samples sampleRate)
    = [PROGRESS "Computing spectrogram" (Fin (1 / 10));
       PROGRESS "Computing mel features" (Fin (3 / 10));
       PROGRESS "Computing MFCC" (Fin (5 / 10));
       PROGRESS "Computing PCA" (Fin (8 / 10));
       MFCC_PCA_COMPUTED (PCA.computePCA3D mfcc) mfcc] /\
    Z.of_nat (length mfcc)
    = Z.max 0 (Z.min 2000 ((Z.of_nat (length samples) - 2048) / 512 + 1)).
Proof.
  intros Hstack.
  destruct (computeSpectrogramDefault_ok stack samples sampleRate Hstack)
    as [r [Hr [Hcount [Hbins _]]]].
  destruct (pipeline_mfcc r sampleRate Hbins) as [fb [Hfb [_ Hmfcc]]].
  eexists. cbn [onmessage]. rewrite Hr, Hfb, Hmfcc. cbn [fst].
  split; [reflexivity|]. now rewrite length_map.
Qed.

Lemma run_app (stack : nat) (events1 events2 : list event) (s : state) :
  run stack (events1 ++ events2) s = run stack events2 (run stack events1 s).
Proof. unfold run. apply fold_left_app. Qed.

(** Dispatching until the queue is empty posts the responses of the queued
    messages, in the order of the queue. *)
Lemma run_dispatch_all (stack : nat) (msgs : list WorkerMessage) :
  forall (out : list WorkerResponse),
    run stack (repeat Dispatch (length msgs)) (mkState msgs out)
    = mkState [] (out ++ flat_map (onmessage stack) msgs).
Proof.
  induction msgs as [|m msgs IH]; intros out.
  - cbn. now rewrite app_nil_r.
  - cbn [length repeat run fold_left step inbox posted flat_map].
    fold (run stack (repeat Dispatch (length msgs))
              (mkState msgs (out ++ onmessage stack m))).
    rewrite IH, app_assoc. reflexivity.
Qed.

Lemma drain_posted (stack : nat) (s : state) :
  drain stack s
  = mkState [] (posted s ++ flat_map (onmessage stack) (inbox s)).
Proof. destruct s as [msgs out]. apply run_dispatch_all. Qed.

Lemma flat_map_without_cancel (stack : nat) (msgs : list WorkerMessage) :
  flat_map (onmessage stack) (filter (fun m => negb (isCancel m)) msgs)
  = flat_map (onmessage stack) msgs.
Proof.
  induction msgs as [|m msgs IH]; [reflexivity|].
  destruct m; cbn [filter isCancel negb flat_map]; rewrite IH; reflexivity.
Qed.

End WorkerRuns.

Section WorkerCancel.

Import Worker.

(** C10: processing a CANCEL message is a no-op.  The handler posts nothing
    for it (no acknowledgement, no ERROR); dispatching it changes nothing but
    the queue it is taken from; and the responses posted for a queue of
    messages are those posted for the same queue without its CANCEL messages:
    every compute request, received before or after a CANCEL, runs and has its
    result posted. *)
Theorem CANCEL_is_noop (stack : nat) :
  (12 <= stack)%nat ->
  onmessage stack CANCEL = [] /\
  (forall rest out,
     step stack (mkState (CANCEL :: rest) out) Dispatch = mkState rest out) /\
  (forall msgs out,
     drain stack (mkState msgs out)
     = drain stack (mkState (filter (fun m => negb (isCancel m)) msgs) out)) /\
  (forall msgs out samples sampleRate,
     In (COMPUTE_SPECTROGRAM samples sampleRate) msgs ->
     exists data,
       In (SPECTROGRAM_COMPUTED data sampleRate)
          (posted (drain stack (mkState msgs out)))) /\
  (forall msgs out samples sampleRate,
     In (COMPUTE_MFCC_PCA samples sampleRate) msgs ->
     exists mfcc,
       In (MFCC_PCA_COMPUTED (PCA.computePCA3D mfcc) mfcc)
          (posted (drain stack (mkState msgs out)))).
Proof.
  intros Hstack. split; [reflexivity|]. split.
  { intros rest out. cbn. now rewrite app_nil_r. }
  split.
  { intros msgs out. rewrite !drain_posted. cbn [inbox posted].
    now rewrite flat_map_without_cancel. }
  split.
  - intros msgs out samples sampleRate Hin.
    destruct (onmessage_COMPUTE_SPECTROGRAM stack samples sampleRate Hstack)
      as [data [Hpost _]].
    exists data. rewrite drain_posted. cbn [inbox posted].
    apply in_or_app. right. apply in_flat_map.
    eexists; split; [exact Hin|]. rewrite Hpost. cbn. auto.
  - intros msgs out samples sampleRate Hin.
    destruct (onmessage_COMPUTE_MFCC_PCA stack samples sampleRate Hstack)
      as [mfcc [Hpost _]].
    exists mfcc. rewrite drain_posted. cbn [inbox posted].
    apply in_or_app. right. apply in_flat_map.
    eexists; split; [exact Hin|]. rewrite Hpost. cbn. auto 6.
Qed.

Lemma CANCEL_is_noop_witness :
  onmessage 12 CANCEL = [] /\
  drain 12 (mkState [CANCEL; COMPUTE_SPECTROGRAM [] (Fin 44100); CANCEL] [])
  = drain 12 (mkState [COMPUTE_SPECTROGRAM [] (Fin 44100)] []).
Proof.
  destruct (CANCEL_is_noop 12 (le_n 12)) as [Hnone [_ [Hsame _]]].
  split; [exact Hnone|].
  exact (Hsame [CANCEL; COMPUTE_SPECTROGRAM [] (Fin 44100); CANCEL] []).
Defined.

(** C8, as amended: a CANCEL message suppresses nothing in the worker.
    Whatever was received and dispatched before (CANCEL messages included)
    and whatever waits in the queue behind it, a compute request that is
    dispatched runs to its end and posts its result as the last response of
    the run: SPECTROGRAM_COMPUTED after two progress reports, or
    MFCC_PCA_COMPUTED after four. *)
Theorem dispatched_run_posts_result
    (stack : nat) (history : list event)
    (m : WorkerMessage) (rest : list WorkerMessage) :
  (12 <= stack)%nat ->
  inbox (run stack history initial) = m :: rest ->
  let before := posted (run stack history initial) in
  (forall samples sampleRate,
     m = COMPUTE_SPECTROGRAM samples sampleRate ->
     exists data,
       run stack (history ++ [Dispatch]) initial
       = mkState rest
           (before ++ [PROGRESS "Computing spectrogram" (Fin (1 / 10));
                       PROGRESS "Computing spectrogram" (Fin (9 / 10));
                       SPECTROGRAM_COMPUTED data sampleRate])) /\
  (forall samples sampleRate,
     m = COMPUTE_MFCC_PCA samples sampleRate ->
     exists mfcc,
       run stack (history ++ [Dispatch]) initial
       = mkState rest
           (before ++ [PROGRESS "Computing spectrogram" (Fin (1 / 10));
                       PROGRESS "Computing mel features" (Fin (3 / 10));
                       PROGRESS "Computing MFCC" (Fin (5 / 10));
                       PROGRESS "Computing PCA" (Fin (8 / 10));
                       MFCC_PCA_COMPUTED (PCA.computePCA3D mfcc) mfcc])).
Proof.
  intros Hstack Hinbox before. split; intros samples sampleRate ->.
  - destruct (onmessage_COMPUTE_SPECTROGRAM stack samples sampleRate Hstack)
      as [data [Hpost _]].
    exists data. rewrite run_app. cbn [run fold_left step].
    rewrite Hinbox, Hpost. reflexivity.
  - destruct (onmessage_COMPUTE_MFCC_PCA stack samples sampleRate Hstack)
      as [mfcc [Hpost _]].
    exists mfcc. rewrite run_app. cbn [run fold_left step].
    rewrite Hinbox, Hpost. reflexivity.
Qed.

Lemma dispatched_run_posts_result_witness :
  exists data,
    run 12 ([Arrive CANCEL; Arrive (COMPUTE_SPECTROGRAM [] (Fin 44100));
             Arrive CANCEL; Dispatch] ++ [Dispatch]) initial
    = mkState [CANCEL]
        ([] ++ [PROGRESS "Computing spectrogram" (Fin (1 / 10));
                PROGRESS "Computing spectrogram" (Fin (9 / 10));
                SPECTROGRAM_COMPUTED data (Fin 44100)]).
Proof.
  exact (proj1 (dispatched_run_posts_result 12
                  [Arrive CANCEL; Arrive (COMPUTE_SPECTROGRAM [] (Fin 44100));
                   Arrive CANCEL; Dispatch]
                  (COMPUTE_SPECTROGRAM [] (Fin 44100)) [CANCEL]
                  (le_n 12) eq_refl)
               [] (Fin 44100) eq_refl).
Defined.

(** C8 as stated fails: a CANCEL that reaches the worker before the run has
    even started, and so before its last phase completes, is handled only
    after the run, whose SPECTROGRAM_COMPUTED message is posted all the
    same. *)
Lemma cancel_does_not_suppress_result :
  exists data,
    posted (run 12 [Arrive (COMPUTE_SPECTROGRAM [] (Fin 44100)); Arrive CANCEL;
                    Dispatch; Dispatch] initial)
    = [PROGRESS "Computing spectrogram" (Fin (1 / 10));
       PROGRESS "Computing spectrogram" (Fin (9 / 10));
       SPECTROGRAM_COMPUTED data (Fin 44100)] /\
    existsb isResult
      (posted (run 12 [Arrive (COMPUTE_SPECTROGRAM [] (Fin 44100)); Arrive CANCEL;
                       Dispatch; Dispatch] initial)) = true.
Proof.
  destruct (onmessage_COMPUTE_SPECTROGRAM 12 [] (Fin 44100) (le_n 12))
    as [data [Hpost _]].
  exists data.
  cbn [run fold_left step initial inbox posted app].
  rewrite Hpost. cbn [app onmessage]. split; reflexivity.
Qed.

End WorkerCancel.

(** ** Finite values: what the arithmetic keeps finite *)

Section FiniteValues.

Local Open Scope R_scope.

Lemma finite_Fin (x : num) : finite x -> exists a, x = Fin a.
Proof. destruct x; cbn; try contradiction. eauto. Qed.

Lemma inf_times_not_finite (s : bool) (r : R) : ~ finite (Num.inf_times s r).
Proof.
  unfold Num.inf_times.
  destruct (Reqb r 0), (Rltb 0 r), s; cbn; auto.
Qed.

Lemma finite_add (x y : num) : finite x -> finite y -> finite (x + y)%num.
Proof. destruct x, y; cbn; auto. Qed.

Lemma finite_sub (x y : num) : finite x -> finite y -> finite (x - y)%num.
Proof. destruct x, y; cbn; auto. Qed.

Lemma finite_mul (x y : num) : finite x -> finite y -> finite (x * y)%num.
Proof. destruct x, y; cbn; auto; contradiction. Qed.


Lemma finite_sub_inv (x y : num) : finite (x - y)%num -> finite x /\ finite y.
Proof. destruct x, y; cbn; auto. Qed.

Lemma finite_mul_inv (x y : num) : finite (x * y)%num -> finite x /\ finite y.
Proof.
  destruct x, y; cbn; auto; intros H;
    solve [contradiction | exfalso; exact (inf_times_not_finite _ _ H)].
Qed.

Lemma div_Fin (a q : R) : q <> 0 -> (Fin a / Fin q)%num = Fin (a / q).
Proof. intros Hq. cbn. apply Reqb_false in Hq. now rewrite Hq. Qed.

Lemma finite_div (x : num) (q : R) : finite x -> q <> 0 -> finite (x / Fin q)%num.
Proof.
  intros Hx Hq. destruct (finite_Fin x Hx) as [a ->].
  rewrite div_Fin by exact Hq. exact I.
Qed.

Lemma finite_cos (x : num) : finite x -> finite (Num.cos x).
Proof. destruct x; cbn; auto. Qed.

Lemma finite_sin (x : num) : finite x -> finite (Num.sin x).
Proof. destruct x; cbn; auto. Qed.

Lemma sqrt_Fin (a : R) : 0 <= a -> Num.sqrt (Fin a) = Fin (sqrt a).
Proof.
  intros Ha. cbn. replace (Rltb a 0) with false; [reflexivity|].
  symmetry. apply Rltb_false, Ha.
Qed.

Lemma gt_Fin (x : num) (t : R) :
  Num.gt x (Fin t) = true -> x = PInf \/ exists s, x = Fin s /\ t < s.
Proof.
  destruct x as [s| | |]; cbn; try discriminate; auto.
  intros H. right. exists s. split; [reflexivity|]. now apply Rltb_true.
Qed.

Lemma INR_pos (n : nat) : (1 <= n)%nat -> INR n <> 0.
Proof. intros H. apply not_0_INR. lia. Qed.

Lemma nonneg_finite (x : num) : nonneg x -> finite x.
Proof. destruct x; cbn; auto. Qed.

Lemma nonneg_square (x : num) : finite x -> nonneg (x * x)%num.
Proof. destruct x as [a| | |]; cbn; try contradiction. intros _. nra. Qed.

Lemma nonneg_add (x y : num) : nonneg x -> nonneg y -> nonneg (x + y)%num.
Proof. destruct x, y; cbn; try contradiction; auto. lra. Qed.

Lemma nonneg_sqrt (x : num) : nonneg x -> nonneg (Num.sqrt x).
Proof.
  destruct x as [a| | |]; cbn [nonneg]; try contradiction.
  intros Ha. rewrite sqrt_Fin by exact Ha. cbn. apply sqrt_pos.
Qed.

Lemma finite_log10 (x : num) : positive x -> finite (Num.log10 x).
Proof.
  destruct x as [a| | |]; cbn [positive]; try contradiction. intros Ha. cbn.
  replace (Rltb a 0) with false by (symmetry; apply Rltb_false; lra).
  replace (Reqb a 0) with false by (symmetry; apply Reqb_false; lra).
  exact I.
Qed.

(** Sums accumulated by a loop. *)
Lemma finite_fold_add {A : Type} (g : A -> num) (l : list A) :
  forall a, finite a -> (forall x, In x l -> finite (g x)) ->
            finite (fold_left (fun acc x => (acc + g x)%num) l a).
Proof.
  induction l as [|x l IH]; intros a Ha Hl; [exact Ha|].
  cbn [fold_left]. apply IH.
  - apply finite_add; [exact Ha | apply Hl; now left].
  - intros y Hy. apply Hl. now right.
Qed.

Lemma nonneg_fold_add {A : Type} (g : A -> num) (l : list A) :
  forall a, nonneg a -> (forall x, In x l -> nonneg (g x)) ->
            nonneg (fold_left (fun acc x => (acc + g x)%num) l a).
Proof.
  induction l as [|x l IH]; intros a Ha Hl; [exact Ha|].
  cbn [fold_left]. apply IH.
  - apply nonneg_add; [exact Ha | apply Hl; now left].
  - intros y Hy. apply Hl. now right.
Qed.





Lemma farray_get (n : nat) (l : list num) (i : nat) :
  farray n l -> (i < n)%nat -> finite (get l i).
Proof.
  intros [Hlen Hall] Hi. unfold Num.get.
  rewrite Forall_forall in Hall. apply Hall, nth_In. lia.
Qed.

Lemma farray_map_seq (n : nat) (f : nat -> num) :
  (forall i, (i < n)%nat -> finite (f i)) -> farray n (map f (seq 0 n)).
Proof.
  intros H. split; [now rewrite length_map, length_seq|].
  apply Forall_forall. intros x Hx. apply in_map_iff in Hx.
  destruct Hx as [i [<- Hi]]. apply in_seq in Hi. apply H. lia.
Qed.

Lemma finite_sum_seq (n : nat) (g : nat -> num) (a : num) :
  finite a -> (forall i, (i < n)%nat -> finite (g i)) ->
  finite (fold_left (fun acc i => (acc + g i)%num) (seq 0 n) a).
Proof.
  intros Ha H. apply finite_fold_add; [exact Ha|].
  intros i Hi. apply in_seq in Hi. apply H. lia.
Qed.

Lemma nonneg_sum_seq (n : nat) (g : nat -> num) (a : num) :
  nonneg a -> (forall i, (i < n)%nat -> nonneg (g i)) ->
  nonneg (fold_left (fun acc i => (acc + g i)%num) (seq 0 n) a).
Proof.
  intros Ha H. apply nonneg_fold_add; [exact Ha|].
  intros i Hi. apply in_seq in Hi. apply H. lia.
Qed.

End FiniteValues.

(** ** pca.ts: shapes, and finite values in, finite values out *)

Section FlatMatrices.

Lemma nth_flat_map_blocks {A : Type} (g : nat -> list A) (n : nat) (d : A) :
  (forall t, length (g t) = n) ->
  forall (T s t j : nat),
    (t < T)%nat -> (j < n)%nat ->
    nth (t * n + j) (flat_map g (seq s T)) d = nth j (g (s + t)%nat) d.
Proof.
  intros Hlen. induction T as [|T IH]; intros s t j Ht Hj; [lia|].
  cbn [seq flat_map]. destruct t as [|t].
  - cbn [Nat.mul Nat.add]. rewrite app_nth1 by (rewrite Hlen; exact Hj).
    now rewrite Nat.add_0_r.
  - rewrite app_nth2 by (rewrite Hlen; cbn; lia).
    rewrite Hlen. replace (S t * n + j - n)%nat with (t * n + j)%nat by (cbn; lia).
    rewrite IH by lia. f_equal. f_equal. lia.
Qed.

Lemma at_flat_map (n T : nat) (f : nat -> nat -> num) (t j : nat) :
  (t < T)%nat -> (j < n)%nat ->
  PCA.at_ (flat_map (fun t => map (fun j => f t j) (seq 0 n)) (seq 0 T)) n t j
  = f t j.
Proof.
  intros Ht Hj. unfold PCA.at_, Num.get.
  rewrite (nth_flat_map_blocks (fun t => map (fun j => f t j) (seq 0 n)) n)
    by (auto; intros; now rewrite length_map, length_seq).
  cbn [Nat.add]. apply get_map_seq, Hj.
Qed.

Lemma length_flat_map_blocks {A : Type} (g : nat -> list A) (n : nat) :
  (forall t, length (g t) = n) ->
  forall T s, length (flat_map g (seq s T)) = (T * n)%nat.
Proof.
  intros Hlen. induction T as [|T IH]; intros s; [reflexivity|].
  cbn [seq flat_map]. rewrite length_app, Hlen, IH. reflexivity.
Qed.

Lemma at_concat (n : nat) (frames : list (list num)) :
  Forall (fun frame => length frame = n) frames ->
  forall t j, (t < length frames)%nat -> (j < n)%nat ->
              PCA.at_ (concat frames) n t j = get (nth t frames []) j.
Proof.
  unfold PCA.at_, Num.get.
  induction 1 as [|frame frames Hframe Hall IH]; intros t j Ht Hj; [cbn in Ht; lia|].
  cbn [concat]. destruct t as [|t].
  - cbn [Nat.mul Nat.add nth]. apply app_nth1. now rewrite Hframe.
  - rewrite app_nth2 by (rewrite Hframe; cbn; lia).
    rewrite Hframe. replace (S t * n + j - n)%nat with (t * n + j)%nat by (cbn; lia).
    cbn [nth]. apply IH; [cbn in Ht; lia | exact Hj].
Qed.

End FlatMatrices.

Section EigenClosure.

Local Open Scope R_scope.

Variable covariance : list num.
Variable n : nat.
Hypothesis covariance_finite :
  forall i j, (i < n)%nat -> (j < n)%nat -> finite (get covariance (i * n + j)).

Lemma dot_finite (u v : list num) :
  farray n u -> farray n v -> finite (PCA.dot n u v).
Proof.
  intros Hu Hv. unfold PCA.dot. apply finite_sum_seq; [exact I|].
  intros i Hi. apply finite_mul; eapply farray_get; eauto.
Qed.

Lemma orthogonalize_farray (components : list (list num)) :
  Forall (farray n) components ->
  forall vec, farray n vec -> farray n (PCA.orthogonalize n components vec).
Proof.
  unfold PCA.orthogonalize.
  induction 1 as [|comp components Hcomp Hall IH]; intros vec Hvec; [exact Hvec|].
  cbn [fold_left]. apply IH. apply farray_map_seq. intros i Hi.
  apply finite_sub; [eapply farray_get; eauto|].
  apply finite_mul; [now apply dot_finite | eapply farray_get; eauto].
Qed.

Lemma powerStep_farray (components : list (list num)) (vec : list num) :
  Forall (farray n) components -> farray n vec ->
  farray n (PCA.powerStep covariance n components vec).
Proof.
  intros Hcomps Hvec. unfold PCA.powerStep.
  set (newVec := map _ (seq 0 n)).
  assert (HnewVec : farray n newVec).
  { apply farray_map_seq. intros i Hi. apply finite_sum_seq; [exact I|].
    intros j Hj. apply finite_mul;
      [now apply covariance_finite | eapply farray_get; eauto]. }
  apply orthogonalize_farray; [exact Hcomps|].
  set (norm := Num.sqrt _).
  destruct (Num.gt norm PCA.norm_threshold) eqn:Hgt; [|exact HnewVec].
  assert (Hnorm : nonneg norm).
  { apply nonneg_sqrt, nonneg_sum_seq; [cbn; lra|].
    intros i Hi. apply nonneg_square. eapply farray_get; eauto. }
  apply gt_Fin in Hgt. destruct Hgt as [Hinf|[s [Hs Hlt]]];
    [rewrite Hinf in Hnorm; contradiction|].
  rewrite Hs. apply farray_map_seq. intros i Hi.
  apply finite_div; [eapply farray_get; eauto | lra].
Qed.

Lemma iter_powerStep_farray (components : list (list num)) (rounds : nat) :
  Forall (farray n) components ->
  forall vec, farray n vec ->
              farray n (Nat.iter rounds (PCA.powerStep covariance n components) vec).
Proof.
  intros Hcomps. induction rounds as [|rounds IH]; intros vec Hvec; [exact Hvec|].
  cbn [Nat.iter]. apply powerStep_farray; [exact Hcomps | now apply IH].
Qed.

Lemma eigenvector_farray (components : list (list num)) (pcIdx : nat) :
  Forall (farray n) components ->
  farray n (PCA.eigenvector covariance n components pcIdx).
Proof.
  intros Hcomps. unfold PCA.eigenvector.
  apply iter_powerStep_farray; [exact Hcomps|].
  apply orthogonalize_farray; [exact Hcomps|].
  apply farray_map_seq. intros i _. destruct (i =? pcIdx mod n)%nat; exact I.
Qed.

Lemma eigenLoop_farray (pcIdxs : list nat) :
  forall components,
    Forall (farray n) components ->
    Forall (farray n) (PCA.eigenLoop covariance n pcIdxs components) /\
    length (PCA.eigenLoop covariance n pcIdxs components)
    = (length components + length pcIdxs)%nat.
Proof.
  induction pcIdxs as [|pcIdx rest IH]; intros components Hcomps.
  - cbn. split; [exact Hcomps | lia].
  - cbn [PCA.eigenLoop].
    destruct (IH (components ++ [PCA.eigenvector covariance n components pcIdx]))
      as [Hall Hlen].
    + apply Forall_app. split; [exact Hcomps|].
      constructor; [now apply eigenvector_farray | constructor].
    + split; [exact Hall|]. rewrite Hlen, length_app. cbn. lia.
Qed.

Lemma computeTopEigenvectors_farray (k : nat) :
  Forall (farray n) (PCA.computeTopEigenvectors covariance n k) /\
  length (PCA.computeTopEigenvectors covariance n k) = k.
Proof.
  unfold PCA.computeTopEigenvectors.
  destruct (eigenLoop_farray (seq 0 k) []) as [Hall Hlen]; [constructor|].
  split; [exact Hall|]. now rewrite Hlen, length_seq.
Qed.

End EigenClosure.

Section PCAClosure.

Local Open Scope R_scope.

Lemma nonneg_div (x : num) (q : R) : nonneg x -> 0 < q -> nonneg (x / Fin q)%num.
Proof.
  destruct x as [a| | |]; cbn [nonneg]; try contradiction. intros Ha Hq.
  rewrite div_Fin by lra. cbn. apply Rle_mult_inv_pos; assumption.
Qed.

Lemma INR_pos_lt (n : nat) : (1 <= n)%nat -> 0 < INR n.
Proof. intros H. apply lt_0_INR. lia. Qed.

(** Shapes. *)
Lemma project_shape (centered : list num) (featureCount timeSteps : nat)
    (components : list (list num)) :
  length (PCA.project centered featureCount timeSteps components) = timeSteps /\
  Forall (fun row => length row = 3%nat)
         (PCA.project centered featureCount timeSteps components).
Proof.
  unfold PCA.project. split; [now rewrite length_map, length_seq|].
  apply Forall_forall. intros row Hrow. apply in_map_iff in Hrow.
  destruct Hrow as [t [<- _]]. reflexivity.
Qed.

Lemma store_length (pc : nat) (v : num) (row : list num) :
  length (PCA.store pc v row) = length row.
Proof.
  revert pc. induction row as [|x row IH]; intros [|pc]; cbn; auto.
Qed.

Lemma normalizeAxis_shape (rows : list (list num)) (pc : nat) :
  length (PCA.normalizeAxis rows pc) = length rows /\
  (Forall (fun row => length row = 3%nat) rows ->
   Forall (fun row => length row = 3%nat) (PCA.normalizeAxis rows pc)).
Proof.
  unfold PCA.normalizeAxis. destruct (Num.gt _ _); [|auto].
  split; [apply length_map|]. intros H. apply Forall_map.
  eapply Forall_impl; [|exact H]. cbn beta. intros row Hrow.
  now rewrite store_length.
Qed.

Lemma projectedRaw_shape (mfcc : list (list num)) :
  length (PCA.projectedRaw mfcc) = length mfcc /\
  Forall (fun row => length row = 3%nat) (PCA.projectedRaw mfcc).
Proof.
  unfold PCA.projectedRaw. destruct mfcc as [|frame0 rest]; [split; [reflexivity | constructor]|].
  apply project_shape.
Qed.

Lemma computePCA3D_shape (mfcc : list (list num)) :
  length (PCA.computePCA3D mfcc) = length mfcc /\
  Forall (fun point => length point = 3%nat) (PCA.computePCA3D mfcc).
Proof.
  unfold PCA.computePCA3D. destruct mfcc as [|frame0 rest]; [split; [reflexivity | constructor]|].
  destruct (projectedRaw_shape (frame0 :: rest)) as [Hlen Hrows].
  cbn [seq fold_left].
  destruct (normalizeAxis_shape (PCA.projectedRaw (frame0 :: rest)) 0) as [H0 R0].
  destruct (normalizeAxis_shape
              (PCA.normalizeAxis (PCA.projectedRaw (frame0 :: rest)) 0) 1) as [H1 R1].
  destruct (normalizeAxis_shape
              (PCA.normalizeAxis
                 (PCA.normalizeAxis (PCA.projectedRaw (frame0 :: rest)) 0) 1) 2)
    as [H2 R2].
  split; [congruence | auto].
Qed.

(** Finite values. *)
Lemma store_finite (pc : nat) (v : num) (row : list num) :
  finite v -> Forall finite row -> Forall finite (PCA.store pc v row).
Proof.
  intros Hv. revert pc. induction row as [|x row IH]; intros pc Hrow; [destruct pc; constructor|].
  inversion Hrow; subst. destruct pc; cbn; constructor; auto.
Qed.

Lemma axisMean_finite (pc : nat) (rows : list (list num)) :
  (1 <= length rows)%nat ->
  (forall row, In row rows -> finite (get row pc)) ->
  finite (PCA.axisMean pc rows).
Proof.
  intros HT Hrows. unfold PCA.axisMean.
  apply finite_div; [|apply INR_pos, HT].
  apply finite_fold_add; [exact I | exact Hrows].
Qed.

Lemma axisStd_nonneg (pc : nat) (rows : list (list num)) :
  (1 <= length rows)%nat ->
  (forall row, In row rows -> finite (get row pc)) ->
  nonneg (PCA.axisStd pc rows).
Proof.
  intros HT Hrows. unfold PCA.axisStd, PCA.axisVariance.
  apply nonneg_sqrt, nonneg_div; [|apply INR_pos_lt, HT].
  apply nonneg_fold_add; [cbn; lra|].
  intros row Hrow. apply nonneg_square, finite_sub; [now apply Hrows|].
  now apply axisMean_finite.
Qed.

Lemma normalizeAxis_finite (rows : list (list num)) (pc : nat) :
  (1 <= length rows)%nat -> (pc < 3)%nat ->
  Forall (farray 3) rows -> Forall (farray 3) (PCA.normalizeAxis rows pc).
Proof.
  intros HT Hpc Hrows.
  assert (Hcol : forall row, In row rows -> finite (get row pc)).
  { intros row Hrow. rewrite Forall_forall in Hrows.
    eapply farray_get; [apply Hrows, Hrow | exact Hpc]. }
  unfold PCA.normalizeAxis.
  destruct (Num.gt _ _) eqn:Hgt; [|exact Hrows].
  pose proof (axisStd_nonneg pc rows HT Hcol) as Hstd.
  apply gt_Fin in Hgt. destruct Hgt as [Hinf|[s [Hs Hlt]]];
    [rewrite Hinf in Hstd; contradiction|].
  rewrite Hs. apply Forall_map. apply Forall_forall. intros row Hrow.
  rewrite Forall_forall in Hrows. destruct (Hrows row Hrow) as [Hlen Hfin].
  split; [now rewrite store_length|].
  apply store_finite; [|exact Hfin].
  apply finite_div; [|unfold PCA.std_threshold in Hlt; lra].
  apply finite_sub; [now apply Hcol | now apply axisMean_finite].
Qed.

Variable frames : list (list num).
Variable featureCount : nat.
Hypothesis frames_finite : Forall (farray featureCount) frames.
Hypothesis frames_nonempty : (1 <= length frames)%nat.

Let timeSteps := length frames.
Let matrix := concat frames.
Let means := PCA.featureMeans matrix featureCount timeSteps.
Let centered := PCA.center matrix means featureCount timeSteps.
Let cov := PCA.covarianceMatrix centered featureCount timeSteps.

Lemma matrix_finite (t f : nat) :
  (t < timeSteps)%nat -> (f < featureCount)%nat ->
  finite (PCA.at_ matrix featureCount t f).
Proof.
  intros Ht Hf. unfold matrix. rewrite at_concat; auto.
  - rewrite Forall_forall in frames_finite.
    eapply farray_get; [apply frames_finite, nth_In; exact Ht | exact Hf].
  - eapply Forall_impl; [|exact frames_finite]. now intros frame [Hlen _].
Qed.

Lemma means_farray : farray featureCount means.
Proof.
  apply farray_map_seq. intros f Hf.
  apply finite_div; [|apply INR_pos; exact frames_nonempty].
  apply finite_sum_seq; [exact I|]. intros t Ht. now apply matrix_finite.
Qed.

Lemma centered_at (t f : nat) :
  (t < timeSteps)%nat -> (f < featureCount)%nat ->
  PCA.at_ centered featureCount t f
  = (PCA.at_ matrix featureCount t f - get means f)%num.
Proof.
  intros Ht Hf. unfold centered, PCA.center.
  now rewrite (at_flat_map featureCount timeSteps
                 (fun t f => (PCA.at_ matrix featureCount t f - get means f)%num)).
Qed.

Lemma centered_finite (t f : nat) :
  (t < timeSteps)%nat -> (f < featureCount)%nat ->
  finite (PCA.at_ centered featureCount t f).
Proof.
  intros Ht Hf. rewrite centered_at by assumption.
  apply finite_sub; [now apply matrix_finite|].
  eapply farray_get; [apply means_farray | exact Hf].
Qed.

Lemma covariance_finite_at (i j : nat) :
  (i < featureCount)%nat -> (j < featureCount)%nat ->
  finite (get cov (i * featureCount + j)).
Proof.
  intros Hi Hj. change (finite (PCA.at_ cov featureCount i j)).
  unfold cov, PCA.covarianceMatrix.
  rewrite (at_flat_map featureCount featureCount) by assumption.
  apply finite_mul.
  - apply finite_sum_seq; [exact I|]. intros t Ht.
    apply finite_mul; now apply centered_finite.
  - apply finite_div; [exact I|]. unfold PCA.covarianceDivisor.
    apply INR_pos. lia.
Qed.

Lemma projectedRaw_body_finite :
  Forall (farray 3)
         (PCA.project centered featureCount timeSteps
            (PCA.computeTopEigenvectors cov featureCount 3)).
Proof.
  destruct (computeTopEigenvectors_farray cov featureCount covariance_finite_at 3)
    as [Hcomps Hk].
  unfold PCA.project. apply Forall_forall. intros row Hrow.
  apply in_map_iff in Hrow. destruct Hrow as [t [<- Ht]]. apply in_seq in Ht.
  apply farray_map_seq. intros pc Hpc.
  apply finite_sum_seq; [exact I|]. intros f Hf.
  apply finite_mul; [apply centered_finite; lia|].
  rewrite Forall_forall in Hcomps.
  eapply farray_get; [apply Hcomps, nth_In; lia | exact Hf].
Qed.

End PCAClosure.

(** Every coordinate [computePCA3D] returns for a rectangular matrix of
    finite features is finite: the divisors [timeSteps] and
    [max(1, timeSteps - 1)] are not zero, and the divisions by a norm or a
    standard deviation are made only above the threshold. *)
Lemma computePCA3D_finite (frames : list (list num)) (featureCount : nat) :
  Forall (farray featureCount) frames ->
  Forall (farray 3) (PCA.computePCA3D frames).
Proof.
  intros Hframes. unfold PCA.computePCA3D.
  destruct frames as [|frame0 rest] eqn:Hf; [constructor|]. rewrite <- Hf in *.
  assert (HT : (1 <= length frames)%nat) by (rewrite Hf; cbn; lia).
  assert (Hraw : Forall (farray 3) (PCA.projectedRaw frames)).
  { unfold PCA.projectedRaw. rewrite Hf. rewrite <- Hf.
    assert (HF : length frame0 = featureCount).
    { rewrite Hf in Hframes. inversion Hframes as [|? ? [H0 _] _]. exact H0. }
    rewrite HF. now apply projectedRaw_body_finite. }
  destruct (projectedRaw_shape frames) as [Hlen _].
  cbn [seq fold_left].
  apply normalizeAxis_finite;
    [rewrite !(proj1 (normalizeAxis_shape _ _)); lia | lia |].
  apply normalizeAxis_finite;
    [rewrite !(proj1 (normalizeAxis_shape _ _)); lia | lia |].
  apply normalizeAxis_finite; [lia | lia | exact Hraw].
Qed.

(** ** pca.ts: a single frame *)

Section SingleFrame.

Local Open Scope R_scope.

Lemma zero_sum_seq (n : nat) (g : nat -> num) :
  (forall i, (i < n)%nat -> g i = zero) ->
  fold_left (fun acc i => (acc + g i)%num) (seq 0 n) zero = zero.
Proof.
  intros H.
  assert (Hgen : forall l, (forall i, In i l -> g i = zero) ->
                           fold_left (fun acc i => (acc + g i)%num) l zero = zero).
  { induction l as [|i l IH]; intros Hl; [reflexivity|].
    cbn [fold_left]. rewrite (Hl i) by now left.
    replace (zero + zero)%num with zero
      by (unfold Num.zero; cbn; f_equal; lra).
    apply IH. intros j Hj. apply Hl. now right. }
  apply Hgen. intros i Hi. apply in_seq in Hi. apply H. lia.
Qed.

Lemma map_seq_const (n : nat) (f : nat -> num) (c : num) :
  (forall i, (i < n)%nat -> f i = c) -> map f (seq 0 n) = repeat c n.
Proof.
  intros H. apply (nth_ext _ _ NaN NaN).
  - now rewrite length_map, length_seq, repeat_length.
  - intros i Hi. rewrite length_map, length_seq in Hi.
    change (get (map f (seq 0 n)) i = nth i (repeat c n) NaN).
    rewrite get_map_seq by exact Hi. rewrite nth_repeat_lt by exact Hi. now apply H.
Qed.

Variable row : list num.
Hypothesis row_finite : Forall finite row.

Let featureCount := length row.
Let matrix := concat [row].
Let means := PCA.featureMeans matrix featureCount 1.
Let centered := PCA.center matrix means featureCount 1.
Let cov := PCA.covarianceMatrix centered featureCount 1.

Lemma single_farray : Forall (farray featureCount) [row].
Proof. constructor; [split; [reflexivity | exact row_finite] | constructor]. Qed.

(** The frame minus the mean of the frame: zero everywhere. *)
Lemma single_centered_at (f : nat) :
  (f < featureCount)%nat -> PCA.at_ centered featureCount 0 f = zero.
Proof.
  intros Hf.
  rewrite (centered_at [row] featureCount) by (cbn; lia).
  fold matrix. unfold PCA.featureMeans. rewrite get_map_seq by exact Hf.
  cbn [seq fold_left length].
  destruct (finite_Fin (PCA.at_ matrix featureCount 0 f)) as [a ->].
  { apply (matrix_finite [row] featureCount single_farray); [cbn; lia | exact Hf]. }
  unfold Num.zero, Num.ofNat. cbn [Num.add]. rewrite div_Fin by (cbn; lra).
  cbn. f_equal. field.
Qed.

Lemma single_centered : centered = repeat zero featureCount.
Proof.
  unfold centered, PCA.center. cbn [seq flat_map]. rewrite app_nil_r.
  apply map_seq_const. intros f Hf.
  pose proof (single_centered_at f Hf) as H.
  rewrite (centered_at [row] featureCount) in H by (cbn; lia || exact Hf).
  exact H.
Qed.

Lemma single_projectedRaw : PCA.projectedRaw [row] = [[zero; zero; zero]].
Proof.
  unfold PCA.projectedRaw. cbn [length]. fold featureCount matrix means centered cov.
  destruct (computeTopEigenvectors_farray cov featureCount
              (covariance_finite_at [row] featureCount single_farray
                 ltac:(cbn; lia)) 3) as [Hcomps Hk].
  unfold PCA.project. cbn [seq map].
  assert (Hpc : forall pc, (pc < 3)%nat ->
            fold_left
              (fun sum f =>
                 (sum + PCA.at_ centered featureCount 0 f
                        * get (nth pc (PCA.computeTopEigenvectors cov featureCount 3) []) f)%num)
              (seq 0 featureCount) zero = zero).
  { intros pc Hpc. apply zero_sum_seq. intros f Hf.
    rewrite single_centered_at by exact Hf.
    rewrite Forall_forall in Hcomps.
    destruct (finite_Fin (get (nth pc (PCA.computeTopEigenvectors cov featureCount 3) []) f))
      as [c ->].
    { eapply farray_get; [apply Hcomps, nth_In; lia | exact Hf]. }
    unfold Num.zero. cbn. f_equal. lra. }
  rewrite !Hpc by lia. reflexivity.
Qed.

End SingleFrame.

Section ZeroPoint.

Local Open Scope R_scope.

Lemma zero_point_std (pc : nat) :
  (pc < 3)%nat -> PCA.axisStd pc [[zero; zero; zero]] = zero.
Proof.
  intros Hpc. unfold PCA.axisStd, PCA.axisVariance, PCA.axisMean.
  cbn [fold_left length].
  assert (Hget : get [zero; zero; zero] pc = zero)
    by (destruct pc as [|[|[|pc]]]; try reflexivity; lia).
  rewrite Hget. unfold Num.zero, Num.ofNat.
  cbn [Num.add]. rewrite div_Fin by (cbn; lra).
  cbn [Num.sub Num.neg Num.add Num.mul]. rewrite div_Fin by (cbn; lra).
  replace ((0 + (0 + - ((0 + 0) / INR 1)) * (0 + - ((0 + 0) / INR 1))) / INR 1)
    with 0 by (cbn; field).
  rewrite sqrt_Fin by lra. now rewrite sqrt_0.
Qed.

Lemma zero_point_not_normalized (pc : nat) :
  (pc < 3)%nat ->
  PCA.normalizeAxis [[zero; zero; zero]] pc = [[zero; zero; zero]].
Proof.
  intros Hpc. unfold PCA.normalizeAxis. rewrite zero_point_std by exact Hpc.
  cbn. replace (Rltb (1 / 1000000) 0) with false; [reflexivity|].
  symmetry. apply Rltb_false. lra.
Qed.

(** The statistics of an axis over a single point: the deviation is 0 for a
    finite coordinate and NaN otherwise, never above the threshold. *)
Lemma single_point_std (pc : nat) (point : list num) :
  Num.gt (PCA.axisStd pc [point]) PCA.std_threshold = false.
Proof.
  unfold PCA.axisStd, PCA.axisVariance, PCA.axisMean, PCA.std_threshold.
  cbn [fold_left length]. unfold Num.zero, Num.ofNat. cbn [INR].
  assert (H10 : Rltb 1 0 = false) by (apply Rltb_false; lra).
  destruct (get point pc) as [a| | |].
  - cbn [Num.add]. rewrite div_Fin by lra.
    cbn [Num.sub Num.neg Num.add Num.mul]. rewrite div_Fin by lra.
    replace ((0 + (a + - ((0 + a) / 1)) * (a + - ((0 + a) / 1))) / 1) with 0 by field.
    rewrite sqrt_Fin by lra. rewrite sqrt_0. cbn. apply Rltb_false. lra.
  - cbn. rewrite H10. reflexivity.
  - cbn. rewrite H10. reflexivity.
  - reflexivity.
Qed.

Lemma single_point_not_normalized (pc : nat) (point : list num) :
  PCA.normalizeAxis [point] pc = [point].
Proof. unfold PCA.normalizeAxis. now rewrite single_point_std. Qed.

Lemma coefficient_finite (row : list num) :
  Forall coefficient row -> Forall finite row.
Proof.
  apply Forall_impl. intros [a| | |] H; try contradiction. exact I.
Qed.

End ZeroPoint.

(** C9, as amended: for every feature matrix of a single frame (T = 1),
    [computePCA3D] returns exactly one point of three components, and no
    value is the result of a division by zero: the divisor of the covariance
    is [max(1, T - 1) = 1], the divisor of the means is [T = 1], and on every
    output axis the test [std > 1e-6] fails (the deviation of a single
    coordinate is 0, or NaN for a coordinate that is not finite), so that no
    axis is divided by its deviation and the point returned is the projected
    one.  All this holds whatever the numbers of the frame.  For a frame of
    coefficients, the finite single precision values that [computeMFCC]
    returns, the frame centered on itself is the zero vector and the point
    returned is (0, 0, 0).  (The means are kept in a [Float32Array]: the mean
    of one coefficient is the coefficient itself, and the centering is exact
    in the code as it is here.  A double that is no single precision value,
    0.1 say, is not a coefficient: the code leaves the residue of its
    rounding where the exact mean leaves 0.) *)
Theorem computePCA3D_single_frame (row : list num) :
  length (PCA.computePCA3D [row]) = 1%nat /\
  Forall (fun point => length point = 3%nat) (PCA.computePCA3D [row]) /\
  PCA.covarianceDivisor (length [row]) = 1%nat /\
  ofNat (length [row]) = one /\
  (forall pc, (pc < 3)%nat ->
     Num.gt (PCA.axisStd pc (PCA.projectedRaw [row])) PCA.std_threshold = false) /\
  PCA.computePCA3D [row] = PCA.projectedRaw [row] /\
  (Forall coefficient row ->
   PCA.center (concat [row])
     (PCA.featureMeans (concat [row]) (length row) 1) (length row) 1
   = repeat zero (length row) /\
   PCA.computePCA3D [row] = [[zero; zero; zero]]).
Proof.
  destruct (computePCA3D_shape [row]) as [Hlen Hshape].
  destruct (projectedRaw_shape [row]) as [Hrawlen _].
  split; [exact Hlen|]. split; [exact Hshape|].
  split; [reflexivity|]. split; [reflexivity|].
  assert (Hpoint : exists point, PCA.projectedRaw [row] = [point]).
  { destruct (PCA.projectedRaw [row]) as [|point [|]]; try discriminate.
    now exists point. }
  destruct Hpoint as [point Hpoint].
  assert (Hout : PCA.computePCA3D [row] = PCA.projectedRaw [row]).
  { unfold PCA.computePCA3D. rewrite Hpoint. cbn [seq fold_left].
    now rewrite !single_point_not_normalized. }
  split; [intros pc _; rewrite Hpoint; apply single_point_std|].
  split; [exact Hout|].
  intros Hrow. apply coefficient_finite in Hrow.
  split; [now apply single_centered|].
  rewrite Hout. now apply single_projectedRaw.
Qed.

Lemma computePCA3D_single_frame_witness :
  PCA.center (concat [[Fin 3; Fin (-1); Fin (1 / 2)]])
    (PCA.featureMeans (concat [[Fin 3; Fin (-1); Fin (1 / 2)]]) 3 1) 3 1
  = repeat zero 3 /\
  PCA.computePCA3D [[Fin 3; Fin (-1); Fin (1 / 2)]] = [[zero; zero; zero]].
Proof.
  apply (computePCA3D_single_frame [Fin 3; Fin (-1); Fin (1 / 2)]).
  repeat constructor.
  - exists 3%Z, 0%Z. split; [reflexivity|]. split; [lia|]. simpl; lra.
  - exists (-1)%Z, 0%Z. split; [reflexivity|]. split; [lia|]. simpl; lra.
  - exists 1%Z, (-1)%Z. split; [reflexivity|]. split; [lia|]. simpl; lra.
Defined.

(** C9 as stated fails for a frame with a feature that is not finite: a NaN
    feature has the mean NaN and an infinite one the mean Infinity, the frame
    centered on itself is NaN in both cases, not the zero vector, and the
    point returned is (NaN, NaN, NaN). *)
Lemma computePCA3D_nonfinite_frame_not_centered :
  PCA.center (concat [[NaN]]) (PCA.featureMeans (concat [[NaN]]) 1 1) 1 1
  = [NaN] /\
  PCA.computePCA3D [[NaN]] = [[NaN; NaN; NaN]] /\
  PCA.center (concat [[PInf]]) (PCA.featureMeans (concat [[PInf]]) 1 1) 1 1
  = [NaN] /\
  PCA.computePCA3D [[PInf]] = [[NaN; NaN; NaN]].
Proof.
  assert (H10 : Rltb (INR 1) 0 = false) by (apply Rltb_false; cbn; lra).
  split; [reflexivity|]. split; [reflexivity|].
  assert (Hc : PCA.center (concat [[PInf]])
                 (PCA.featureMeans (concat [[PInf]]) 1 1) 1 1 = [NaN]).
  { unfold PCA.center, PCA.featureMeans, PCA.at_.
    cbn [concat app seq map flat_map fold_left Nat.mul Nat.add Num.get nth].
    unfold Num.zero, Num.ofNat. cbn [Num.add Num.div]. rewrite H10. reflexivity. }
  split; [exact Hc|].
  unfold PCA.computePCA3D, PCA.projectedRaw. cbn [length]. rewrite Hc. reflexivity.
Qed.

(** ** pca.ts: the normalization of the output axes *)

Section ZScore.

Local Open Scope R_scope.

Lemma fold_Rsum (f : R -> R) (xs : list R) :
  forall a, fold_left (fun acc x => acc + f x) xs a = a + Rsum f xs.
Proof.
  induction xs as [|x xs IH]; intros a; cbn [fold_left Rsum]; [lra|].
  rewrite IH. lra.
Qed.

Lemma Rsum_ext (f g : R -> R) (xs : list R) :
  (forall x, f x = g x) -> Rsum f xs = Rsum g xs.
Proof. intros H. induction xs as [|x xs IH]; cbn; [reflexivity | now rewrite H, IH]. Qed.




Lemma Rsum_nonneg (f : R -> R) (xs : list R) :
  (forall x, 0 <= f x) -> 0 <= Rsum f xs.
Proof.
  intros H. induction xs as [|x xs IH]; cbn; [lra|]. specialize (H x). lra.
Qed.

(** A loop over the rows that reads only axis [pc], on a column of finite
    values. *)
Lemma fold_column (h : num -> num) (hr : R -> R) (pc : nat) :
  (forall x, h (Fin x) = Fin (hr x)) ->
  forall (rows : list (list num)) (xs : list R) (a : R),
    column pc rows = map Fin xs ->
    fold_left (fun acc row => (acc + h (get row pc))%num) rows (Fin a)
    = Fin (a + Rsum hr xs).
Proof.
  intros Hh. induction rows as [|row rows IH]; intros [|x xs] a Hcol;
    try discriminate; cbn [fold_left Rsum].
  - f_equal. lra.
  - cbn [column map] in Hcol. injection Hcol as Hx Hrest.
    rewrite Hx, Hh. cbn [Num.add]. rewrite (IH xs) by exact Hrest.
    f_equal. lra.
Qed.


Section FiniteColumn.

Variable pc : nat.
Variable rows : list (list num).
Variable xs : list R.
Hypothesis column_values : column pc rows = map Fin xs.
Hypothesis rows_nonempty : (1 <= length rows)%nat.

Let T := INR (length rows).
Let m := Rsum (fun x => x) xs / T.
Let v := Rsum (fun x => (x - m) * (x - m)) xs / T.

Lemma T_pos : 0 < T.
Proof. apply INR_pos_lt, rows_nonempty. Qed.


Lemma axisMean_value : PCA.axisMean pc rows = Fin m.
Proof.
  unfold PCA.axisMean, Num.zero, Num.ofNat.
  rewrite (fold_column (fun x => x) (fun x => x) pc (fun x => eq_refl) rows xs 0
             column_values).
  pose proof T_pos. rewrite div_Fin by (fold T; lra).
  f_equal. unfold m, T. f_equal. lra.
Qed.

Lemma axisVariance_value : PCA.axisVariance pc rows = Fin v.
Proof.
  unfold PCA.axisVariance. rewrite axisMean_value. unfold Num.zero, Num.ofNat.
  rewrite (fold_column (fun x => ((x - Fin m) * (x - Fin m))%num)
             (fun x => (x + - m) * (x + - m)) pc (fun x => eq_refl) rows xs 0
             column_values).
  pose proof T_pos. rewrite div_Fin by (fold T; lra).
  f_equal. unfold v. fold T. f_equal. rewrite Rplus_0_l.
  apply Rsum_ext. intros x. ring.
Qed.

Lemma v_nonneg : 0 <= v.
Proof.
  unfold v. apply Rle_mult_inv_pos; [|apply T_pos].
  apply Rsum_nonneg. intros x. apply (Rle_0_sqr (x - m)).
Qed.

Lemma axisStd_value : PCA.axisStd pc rows = Fin (sqrt v).
Proof.
  unfold PCA.axisStd. rewrite axisVariance_value. apply sqrt_Fin, v_nonneg.
Qed.

End FiniteColumn.


End ZScore.

Section AxisNormalization.

Local Open Scope R_scope.

Lemma Forall_finite_values (l : list num) :
  Forall finite l -> exists xs, l = map Fin xs.
Proof.
  induction 1 as [|x l Hx _ [xs ->]]; [now exists []|].
  destruct (finite_Fin x Hx) as [a ->]. now exists (a :: xs).
Qed.










End AxisNormalization.

(** The statistics of the code and those of the specification: the mean and
    the deviation that the normalization loop computes for an axis are the
    mean and the standard deviation of its column. *)
Section AxisStatistics.
Local Open Scope R_scope.








End AxisStatistics.

(** The two frames [[1]] and [[-1]], followed through [computePCA3D]: mean
    0, covariance 2, first component [1] (a fixed point of the power
    iteration), the other two components [0]. *)
Section TwoFrames.
Local Open Scope R_scope.














End TwoFrames.

Section NormalizedAxes.

Local Open Scope R_scope.




End NormalizedAxes.

(** ** Finite samples give finite magnitudes *)

Section SpectrogramFinite.

Local Open Scope R_scope.

Import Spectrogram.

Lemma Forall_firstn {A : Type} (P : A -> Prop) (n : nat) (l : list A) :
  Forall P l -> Forall P (firstn n l).
Proof.
  intros H. revert n. induction H as [|x l Hx Hl IH]; intros [|n]; cbn;
    constructor; auto.
Qed.

Lemma Forall_skipn {A : Type} (P : A -> Prop) (n : nat) (l : list A) :
  Forall P l -> Forall P (skipn n l).
Proof.
  intros H. revert n. induction H as [|x l Hx Hl IH]; intros [|n]; cbn;
    auto.
Qed.

Lemma Forall_repeat {A : Type} (P : A -> Prop) (x : A) (n : nat) :
  P x -> Forall P (repeat x n).
Proof. intros H. induction n; cbn; constructor; auto. Qed.

Lemma finite_get_in_range (l : list num) (i : nat) :
  Forall finite l -> (i < length l)%nat -> finite (get l i).
Proof. intros Hl Hi. apply (farray_get (length l) l i); [now split | exact Hi]. Qed.

Lemma hannWindow_finite (size : Z) (w : list num) :
  (2 <= size)%Z -> hannWindow size = Ok w -> Forall finite w.
Proof.
  intros Hs Hw. destruct (hannWindow_ok size) as [w' [Hw' Hlen]]; [lia|].
  assert (w' = w) by congruence. subst w'.
  apply Forall_forall. intros x Hx.
  destruct (In_nth w x NaN Hx) as [i [Hi <-]].
  change (finite (get w i)).
  rewrite (hannWindow_value size w i Hs Hw) by lia. exact I.
Qed.

Lemma preEmphasis_finite (samples : list num) :
  Forall finite samples -> Forall finite (preEmphasis samples).
Proof.
  intros H. apply (farray_map_seq (length samples)). intros i Hi.
  destruct (i =? 0)%nat.
  - apply finite_get_in_range; [exact H | lia].
  - apply finite_sub; [apply finite_get_in_range; [exact H | exact Hi]|].
    apply finite_mul; [exact I|]. apply finite_get_in_range; [exact H | lia].
Qed.

Lemma slice_finite (l : list num) (b e : Z) :
  Forall finite l -> Forall finite (slice l b e).
Proof. intros H. unfold slice. now apply Forall_firstn, Forall_skipn. Qed.

Lemma pointwise_mul_finite (xs : list num) :
  forall ys, Forall finite xs -> Forall finite ys ->
             Forall finite (pointwise_mul xs ys).
Proof.
  induction xs as [|x xs IH]; intros [|y ys] Hx Hy; cbn; try constructor.
  - inversion Hx; inversion Hy; subst. now apply finite_mul.
  - inversion Hx; inversion Hy; subst. now apply IH.
Qed.

Lemma zeroPad_finite (size : nat) (samples : list num) :
  Forall finite samples -> Forall finite (zeroPad size samples).
Proof.
  intros H. unfold zeroPad. apply Forall_app. split.
  - now apply Forall_firstn.
  - apply Forall_repeat. exact I.
Qed.

Lemma angle_finite (k N : nat) : (1 <= N)%nat -> finite (angle k N).
Proof. intros HN. unfold angle. apply finite_div; [exact I | now apply INR_pos]. Qed.

Lemma butterfly_finite (k : nat) (e o : FFTResult) :
  farray (2 ^ k) (real e) -> farray (2 ^ k) (imag e) ->
  farray (2 ^ k) (real o) -> farray (2 ^ k) (imag o) ->
  Forall finite (real (butterfly (2 ^ S k) e o)) /\
  Forall finite (imag (butterfly (2 ^ S k) e o)).
Proof.
  intros Hre Hie Hro Hio. unfold butterfly. cbn [real imag].
  rewrite half_pow2.
  replace (2 ^ S k - 2 ^ k)%nat with (2 ^ k)%nat by (rewrite Nat.pow_succ_r'; lia).
  replace (Nat.even (2 ^ S k)) with true
    by (symmetry; rewrite Nat.even_pow by discriminate; reflexivity).
  assert (HN : (1 <= 2 ^ S k)%nat)
    by (pose proof (Nat.pow_nonzero 2 (S k)); lia).
  assert (Hc : forall j, finite (Num.cos (angle j (2 ^ S k))))
    by (intros j; apply finite_cos, angle_finite, HN).
  assert (Hs : forall j, finite (Num.sin (angle j (2 ^ S k))))
    by (intros j; apply finite_sin, angle_finite, HN).
  assert (Hall : forall j, (j < 2 ^ k)%nat ->
            finite (fst (combine_re (2 ^ S k) e o j)) /\
            finite (snd (combine_re (2 ^ S k) e o j)) /\
            finite (fst (combine_im (2 ^ S k) e o j)) /\
            finite (snd (combine_im (2 ^ S k) e o j))).
  { intros j Hj. unfold combine_re, combine_im. cbn [fst snd].
    pose proof (farray_get _ _ j Hre Hj). pose proof (farray_get _ _ j Hie Hj).
    pose proof (farray_get _ _ j Hro Hj). pose proof (farray_get _ _ j Hio Hj).
    split; [|split; [|split]];
      repeat first [apply finite_sub | apply finite_add | apply finite_mul];
      solve [assumption | apply Hc | apply Hs]. }
  split; apply Forall_app; split;
    apply (farray_map_seq (2 ^ k)); intros j Hj; now apply Hall.
Qed.

Lemma fft_finite (stack : nat) :
  forall (k : nat) (x : list num) (r : FFTResult),
    length x = (2 ^ k)%nat -> Forall finite x -> fft stack x = Ok r ->
    farray (2 ^ k) (real r) /\ farray (2 ^ k) (imag r).
Proof.
  induction stack as [|stack IH]; intros k x r Hlen Hx Hr; [discriminate|].
  cbn [fft] in Hr. rewrite Hlen in Hr. destruct k as [|k].
  - cbn in Hr. injection Hr as <-. cbn [real imag].
    split; (split; [reflexivity|]); repeat constructor.
    apply finite_get_in_range; [exact Hx | rewrite Hlen; cbn; lia].
  - rewrite pow2_S_neq_1, half_pow2 in Hr.
    destruct (fft stack (map (fun i => get x (2 * i)) (seq 0 (2 ^ k))))
      as [e|] eqn:He; [|discriminate].
    destruct (fft stack (map (fun i => get x (2 * i + 1)) (seq 0 (2 ^ k))))
      as [o|] eqn:Ho; [|discriminate].
    cbn [bind] in Hr. injection Hr as <-.
    assert (Hin : forall i, (i < 2 ^ S k)%nat -> finite (get x i))
      by (intros i Hi; apply finite_get_in_range; [exact Hx | lia]).
    assert (Hpow : (2 ^ S k = 2 * 2 ^ k)%nat) by apply Nat.pow_succ_r'.
    destruct (IH k _ e (length_map_seq _ _)
                (proj2 (farray_map_seq (2 ^ k) _
                          (fun i Hi => Hin (2 * i)%nat ltac:(lia)))) He)
      as [Hre Hie].
    destruct (IH k _ o (length_map_seq _ _)
                (proj2 (farray_map_seq (2 ^ k) _
                          (fun i Hi => Hin (2 * i + 1)%nat ltac:(lia)))) Ho)
      as [Hro Hio].
    destruct (butterfly_length (2 ^ S k) e o) as [L1 L2].
    destruct (butterfly_finite k e o Hre Hie Hro Hio) as [F1 F2].
    split; split; assumption.
Qed.

Lemma magnitudeSpectrum_finite (r : FFTResult) (n : nat) :
  farray n (real r) -> farray n (imag r) -> Forall finite (magnitudeSpectrum r).
Proof.
  intros Hre Him. unfold magnitudeSpectrum. destruct Hre as [Hlen Hre].
  rewrite Hlen. apply (farray_map_seq n). intros i Hi.
  apply nonneg_finite, nonneg_sqrt, nonneg_add; apply nonneg_square.
  - apply (farray_get n); [now split | exact Hi].
  - apply (farray_get n); [exact Him | exact Hi].
Qed.

Lemma frameBody_finite (stack : nat) (preEmphasized window : list num)
    (windowSize : Z) (start : Z) (frame : list num) :
  (1 <= windowSize)%Z ->
  Forall finite preEmphasized -> Forall finite window ->
  frameBody stack preEmphasized window windowSize (nextPow2 windowSize) start
  = Ok frame ->
  Forall finite frame.
Proof.
  intros Hw Hpre Hwin H. unfold frameBody in H.
  unfold applyWindow in H. destruct (negb _); [discriminate|]. cbn [bind] in H.
  unfold newFloat32Array in H.
  destruct (nextPow2 windowSize <? 0)%Z; [discriminate|]. cbn [bind] in H.
  unfold set in H. destruct (_ <? _)%nat; [discriminate|]. cbn [bind] in H.
  destruct (computeFFT _ _ _) as [r|] eqn:Hr; [|discriminate].
  cbn [bind] in H. injection H as <-.
  apply slice_finite.
  unfold computeFFT in Hr.
  pose proof (nextPow2_ge1 windowSize Hw) as Hge.
  match type of Hr with fft _ ?input = _ =>
    assert (Hlen : length input
                   = (2 ^ Z.to_nat (Z.log2_up (nextPow2 windowSize)))%nat)
      by (rewrite zeroPad_length; now apply nextPow2_to_nat);
    assert (Hfin : Forall finite input)
  end.
  { apply zeroPad_finite, Forall_app. split.
    - apply pointwise_mul_finite; [now apply slice_finite | exact Hwin].
    - apply Forall_skipn, Forall_repeat. exact I. }
  destruct (fft_finite stack _ _ r Hlen Hfin Hr) as [Hre Him].
  eapply magnitudeSpectrum_finite; eassumption.
Qed.

Lemma frameLoop_finite (stack : nat) (preEmphasized window : list num)
    (windowSize hopSize : Z) :
  (1 <= windowSize)%Z ->
  Forall finite preEmphasized -> Forall finite window ->
  forall (remaining : nat) (frameIdx : Z) (spectrogram result : list (list num)),
    Forall (Forall finite) spectrogram ->
    frameLoop stack preEmphasized window windowSize hopSize
      (nextPow2 windowSize) remaining frameIdx spectrogram = Ok result ->
    Forall (Forall finite) result.
Proof.
  intros Hw Hpre Hwin.
  induction remaining as [|remaining IH]; intros frameIdx spectrogram result Hacc H.
  - cbn in H. now injection H as <-.
  - cbn [frameLoop] in H. destruct (_ >? _)%Z; [now injection H as <-|].
    destruct (frameBody _ _ _ _ _ _) as [frame|] eqn:Hframe; [|discriminate].
    cbn [bind] in H. eapply IH; [|exact H].
    apply Forall_app. split; [exact Hacc|].
    constructor; [|constructor].
    exact (frameBody_finite stack preEmphasized window windowSize _ frame
             Hw Hpre Hwin Hframe).
Qed.

(** The magnitudes of the spectrogram of finite samples are finite. *)
Lemma computeSpectrogram_finite (stack : nat) (samples : list num)
    (sampleRate : num) (windowSize hopSize maxFrames : Z)
    (r : SpectrogramResult) :
  (2 <= windowSize)%Z -> Forall finite samples ->
  computeSpectrogram stack samples sampleRate windowSize hopSize maxFrames = Ok r ->
  Forall (Forall finite) (data r).
Proof.
  intros Hw Hsamples H. unfold computeSpectrogram in H.
  destruct (hannWindow windowSize) as [window|] eqn:Hwindow; [|discriminate].
  cbn [bind] in H.
  destruct (frameLoop _ _ _ _ _ _ _ _ _) as [spectrogram|] eqn:Hloop; [|discriminate].
  cbn [bind] in H. injection H as <-. cbn [data].
  refine (frameLoop_finite stack (preEmphasis samples) window windowSize hopSize
            _ _ _ _ _ [] spectrogram _ Hloop).
  - lia.
  - now apply preEmphasis_finite.
  - exact (hannWindow_finite windowSize window Hw Hwindow).
  - constructor.
Qed.

End SpectrogramFinite.

(** ** The mel filters of a band of non-zero width are finite *)

Section MelFinite.

Local Open Scope R_scope.

Lemma ln10_pos : 0 < ln 10.
Proof. rewrite <- ln_1. apply ln_increasing; lra. Qed.

Lemma hzToMel_value (hz : R) :
  -700 < hz ->
  Mel.hzToMel (Fin hz) = Fin (2595 * (ln (1 + hz / 700) / ln 10)).
Proof.
  intros H. unfold Mel.hzToMel, Num.one. rewrite div_Fin by lra.
  cbn [Num.add Num.log10].
  assert (Hpos : 0 < 1 + hz / 700) by lra.
  replace (Rltb (1 + hz / 700) 0) with false by (symmetry; apply Rltb_false; lra).
  replace (Reqb (1 + hz / 700) 0) with false by (symmetry; apply Reqb_false; lra).
  reflexivity.
Qed.

Lemma melToHz_value (mel : R) :
  Mel.melToHz (Fin mel) = Fin (700 * (Rpower 10 (mel / 2595) + - 1)).
Proof. unfold Mel.melToHz, Num.one. rewrite div_Fin by lra. reflexivity. Qed.

Lemma Rpower10_inj (x y : R) : Rpower 10 x = Rpower 10 y -> x = y.
Proof.
  unfold Rpower. intros H. apply exp_inv in H.
  pose proof ln10_pos. nra.
Qed.

Lemma centerHz_inj (a d : R) (i j : nat) :
  d <> 0 -> centerHz a d i = centerHz a d j -> i = j.
Proof.
  intros Hd H. unfold centerHz in H.
  assert (Hp : Rpower 10 ((a + d * INR i) / 2595) = Rpower 10 ((a + d * INR j) / 2595))
    by lra.
  apply Rpower10_inj in Hp. apply INR_eq. nra.
Qed.

Lemma centerFreqs_values (melBins : Z) (lo hi : R) :
  (0 <= melBins)%Z -> -700 < lo -> -700 < hi -> lo <> hi ->
  exists a d,
    d <> 0 /\
    Mel.centerFreqs melBins (Fin lo) (Fin hi)
    = map (fun i => Fin (centerHz a d i)) (seq 0 (Z.to_nat (melBins + 2))).
Proof.
  intros Hbins Hlo Hhi Hne. unfold Mel.centerFreqs.
  rewrite !hzToMel_value by assumption.
  set (a := 2595 * (ln (1 + lo / 700) / ln 10)).
  set (b := 2595 * (ln (1 + hi / 700) / ln 10)).
  assert (Hn : IZR (melBins + 1) <> 0) by (apply not_0_IZR; lia).
  exists a, ((b + - a) / IZR (melBins + 1)). split.
  - assert (Hab : a <> b).
    { unfold a, b. intros H. pose proof ln10_pos as Hl.
      assert (Hln : ln (1 + lo / 700) = ln (1 + hi / 700)).
      { apply (Rmult_eq_reg_l (2595 / ln 10)); [|apply Rmult_integral_contrapositive;
                                                  split; [lra | apply Rinv_neq_0_compat; lra]].
        unfold Rdiv in *. lra. }
      apply ln_inv in Hln; lra. }
    intros H. apply Hab.
    apply (Rmult_eq_compat_r (IZR (melBins + 1))) in H.
    unfold Rdiv in H. rewrite Rmult_assoc, Rinv_l, Rmult_1_r, Rmult_0_l in H by exact Hn.
    lra.
  - apply map_ext. intros i. unfold Num.ofZ, Num.ofNat.
    cbn [Num.sub Num.neg Num.add]. rewrite div_Fin by exact Hn.
    cbn [Num.mul Num.add]. apply melToHz_value.
Qed.

Lemma triangle_finite (l c r : R) (freq : num) :
  l <> c -> c <> r -> finite freq ->
  finite (Mel.triangle (Fin l) (Fin c) (Fin r) freq).
Proof.
  intros Hlc Hcr Hfreq. destruct (finite_Fin freq Hfreq) as [f ->].
  unfold Mel.triangle.
  destruct (Num.ge (Fin f) (Fin l) && Num.le (Fin f) (Fin c))%bool.
  - cbn [Num.sub Num.neg Num.add]. rewrite div_Fin by lra. exact I.
  - destruct (Num.gt (Fin f) (Fin c) && Num.le (Fin f) (Fin r))%bool; [|exact I].
    cbn [Num.sub Num.neg Num.add]. rewrite div_Fin by lra. exact I.
Qed.

Lemma filterLoop_finite (freqResolution : num) (nFreqBins : Z) (a d : R)
    (count : nat) (melIdxs : list nat) :
  d <> 0 -> finite freqResolution ->
  (forall melIdx, In melIdx melIdxs -> (melIdx + 2 < count)%nat) ->
  forall fs,
    Mel.filterLoop freqResolution nFreqBins
      (map (fun i => Fin (centerHz a d i)) (seq 0 count)) melIdxs = Ok fs ->
    Forall (Forall finite) fs.
Proof.
  intros Hd Hres. induction melIdxs as [|melIdx rest IH]; intros Hidx fs H;
    cbn [Mel.filterLoop] in H.
  - injection H as <-. constructor.
  - unfold newFloat32Array in H.
    destruct (nFreqBins <? 0)%Z; [discriminate|]. cbn [bind] in H.
    destruct (Mel.filterLoop _ _ _ rest) as [others|] eqn:Hothers; [|discriminate].
    cbn [bind] in H. injection H as <-.
    assert (Hm : (melIdx + 2 < count)%nat) by (apply Hidx; now left).
    constructor.
    + rewrite repeat_length. apply (farray_map_seq (Z.to_nat nFreqBins)).
      intros freqIdx _.
      rewrite !get_map_seq by lia.
      apply triangle_finite.
      * intros Heq. apply centerHz_inj in Heq; [lia | exact Hd].
      * intros Heq. apply centerHz_inj in Heq; [lia | exact Hd].
      * exact (finite_mul (ofNat freqIdx) freqResolution I Hres).
    + apply IH; [|reflexivity]. intros j Hj. apply Hidx. now right.
Qed.

(** The band edge after the clamp to the Nyquist frequency. *)
Lemma clamped_fMax (sr : R) :
  0 < sr -> sr <> 1000 ->
  exists hi,
    Num.min DSP_CONFIG.fMax (Fin sr / Fin 2)%num = Fin hi /\ -700 < hi /\ 500 <> hi.
Proof.
  intros Hpos Hne. unfold DSP_CONFIG.fMax. rewrite div_Fin by lra.
  cbn [Num.min Num.lt]. destruct (Rltb (sr / 2) 12000) eqn:Hlt.
  - exists (sr / 2). repeat split; lra.
  - exists 12000. repeat split; lra.
Qed.

(** With the default band (500 Hz to 12 kHz) and a positive sample rate
    other than 1000 Hz, at which the clamped band would have no width, every
    weight of every filter is finite. *)
Lemma new_filters_finite (sr : R) (fftSize melBins : Z) (fb : Mel.MelFilterbank) :
  0 < sr -> sr <> 1000 -> fftSize <> 0%Z -> (0 <= melBins)%Z ->
  Mel.new (Fin sr) fftSize melBins DSP_CONFIG.fMin DSP_CONFIG.fMax = Ok fb ->
  Forall (Forall finite) (Mel.filters fb).
Proof.
  intros Hpos Hne Hfft Hbins H. unfold Mel.new, Mel.createFilters in H.
  destruct (clamped_fMax sr Hpos Hne) as [hi [Hhi [Hgt Hne500]]].
  rewrite Hhi in H. unfold DSP_CONFIG.fMin in H.
  destruct (centerFreqs_values melBins 500 hi Hbins) as [a [d [Hd Hcf]]];
    [lra | exact Hgt | exact Hne500 |].
  rewrite Hcf in H.
  destruct (Mel.filterLoop _ _ _ _) as [fs|] eqn:Hfs; [|discriminate].
  cbn [bind] in H. injection H as <-. cbn [Mel.filters].
  eapply (filterLoop_finite _ _ a d _ _ Hd); [| |exact Hfs].
  - unfold Num.ofZ. rewrite div_Fin by (apply not_0_IZR; exact Hfft). exact I.
  - intros melIdx Hin. apply in_seq in Hin. lia.
Qed.

End MelFinite.

(** ** Finite magnitudes give finite cepstral coefficients *)

Section MFCCFinite.

Local Open Scope R_scope.

Lemma weightedSum_finite (weights spectrum : list num) :
  Forall finite weights -> Forall finite spectrum ->
  finite (Spec.weightedSum weights spectrum).
Proof.
  intros Hw Hs. unfold Spec.weightedSum.
  apply (finite_fold_add (fun ws => (fst ws * snd ws)%num)); [exact I|].
  intros [w s] Hin. cbn [fst snd]. rewrite Forall_forall in Hw, Hs.
  apply finite_mul; [eapply Hw, in_combine_l | eapply Hs, in_combine_r]; exact Hin.
Qed.

Lemma logPower_finite (mel : list num) :
  Forall finite mel -> Forall finite (Spec.logPower (Spec.power mel)).
Proof.
  intros H. unfold Spec.logPower, Spec.power. rewrite map_map.
  apply Forall_map. eapply Forall_impl; [|exact H]. cbn beta.
  intros m Hm. apply finite_log10.
  destruct (finite_Fin m Hm) as [a ->]. cbn.
  assert (0 <= a * a) by nra. lra.
Qed.

Lemma dct_finite (x : list num) (count : nat) :
  (1 <= length x)%nat -> Forall finite x -> Forall finite (Spec.dct x count).
Proof.
  intros Hn Hx. unfold Spec.dct. apply (farray_map_seq count). intros k _.
  apply finite_mul.
  - unfold Spec.dctSum.
    apply (finite_fold_add
             (fun xi => (fst xi * Num.cos ((Fin PI * ofNat k
                                            * (ofNat (snd xi) + Fin (1 / 2)))
                                           / ofNat (length x)))%num));
      [exact I|].
    intros [v i] Hin. cbn [fst snd]. rewrite Forall_forall in Hx.
    apply finite_mul; [eapply Hx, in_combine_l; exact Hin|].
    apply finite_cos, finite_div; [exact I | now apply INR_pos].
  - unfold Spec.orthonormalScale. pose proof (INR_pos_lt _ Hn) as Hpos.
    destruct (k =? 0)%nat.
    + rewrite sqrt_ofNat. apply finite_div; [exact I|].
      pose proof (sqrt_lt_R0 _ Hpos). lra.
    + unfold Num.ofNat. rewrite div_Fin by lra.
      rewrite sqrt_Fin; [exact I|]. apply Rlt_le, Rdiv_lt_0_compat; lra.
Qed.

Lemma cepstralFrame_finite (filters : list (list num)) (mfccCount : nat)
    (frame : list num) :
  (1 <= length filters)%nat ->
  Forall (Forall finite) filters -> Forall finite frame ->
  farray mfccCount (Spec.cepstralFrame filters mfccCount frame).
Proof.
  intros Hn Hfilters Hframe. unfold Spec.cepstralFrame.
  split; [apply dct_length|]. apply dct_finite.
  - unfold Spec.logPower, Spec.power, Spec.applyFilterbank.
    now rewrite !length_map.
  - apply logPower_finite. unfold Spec.applyFilterbank. apply Forall_map.
    eapply Forall_impl; [|exact Hfilters]. cbn beta.
    intros weights Hw. now apply weightedSum_finite.
Qed.

End MFCCFinite.

(** ** The whole pipeline on finite samples *)

Section PipelineFinite.

Local Open Scope R_scope.

Import Worker.

Lemma spectrogram_run_finite (stack : nat) (samples : list num) (sampleRate : num) :
  (12 <= stack)%nat -> Forall finite samples ->
  exists data,
    onmessage stack (COMPUTE_SPECTROGRAM samples sampleRate)
    = [PROGRESS "Computing spectrogram" (Fin (1 / 10));
       PROGRESS "Computing spectrogram" (Fin (9 / 10));
       SPECTROGRAM_COMPUTED data sampleRate] /\
    Forall (Forall finite) data.
Proof.
  intros Hstack Hsamples.
  destruct (computeSpectrogramDefault_ok stack samples sampleRate Hstack)
    as [r [Hr [_ [_ Hsr]]]].
  exists (Spectrogram.data r). cbn [onmessage]. rewrite Hr, Hsr.
  split; [reflexivity|].
  apply (computeSpectrogram_finite stack samples sampleRate
           DSP_CONFIG.windowSize DSP_CONFIG.hopSize DSP_CONFIG.maxFrames r);
    [unfold DSP_CONFIG.windowSize; lia | exact Hsamples | exact Hr].
Qed.

Lemma manifold_run_finite (stack : nat) (samples : list num) (sr : R) :
  (12 <= stack)%nat -> 0 < sr -> sr <> 1000 -> Forall finite samples ->
  exists points mfcc,
    onmessage stack (COMPUTE_MFCC_PCA samples (Fin sr))
    = [PROGRESS "Computing spectrogram" (Fin (1 / 10));
       PROGRESS "Computing mel features" (Fin (3 / 10));
       PROGRESS "Computing MFCC" (Fin (5 / 10));
       PROGRESS "Computing PCA" (Fin (8 / 10));
       MFCC_PCA_COMPUTED points mfcc] /\
    length points = length mfcc /\
    Forall (farray 40) mfcc /\
    Forall (farray 3) points.
Proof.
  intros Hstack Hpos Hne Hsamples.
  destruct (computeSpectrogramDefault_ok stack samples (Fin sr) Hstack)
    as [r [Hr [_ [Hbins _]]]].
  assert (Hdata : Forall (Forall finite) (Spectrogram.data r)).
  { apply (computeSpectrogram_finite stack samples (Fin sr)
             DSP_CONFIG.windowSize DSP_CONFIG.hopSize DSP_CONFIG.maxFrames r);
      [unfold DSP_CONFIG.windowSize; lia | exact Hsamples | exact Hr]. }
  destruct (pipeline_mfcc r (Fin sr) Hbins) as [fb [Hfb [Hnew Hmfcc]]].
  destruct (new_filters _ _ _ _ _ _ Hnew) as [_ [_ [Hcount _]]].
  pose proof (new_filters_finite sr 2048 128 fb Hpos Hne ltac:(discriminate)
                ltac:(lia) Hnew) as Hfilters.
  set (mfcc := map (Spec.cepstralFrame (Mel.filters fb) 40) (Spectrogram.data r)).
  assert (Hfin : Forall (farray 40) mfcc).
  { unfold mfcc. apply Forall_map.
    eapply Forall_impl; [|exact Hdata]. cbn beta. intros frame Hframe.
    apply cepstralFrame_finite; [rewrite Hcount; cbn; lia | exact Hfilters | exact Hframe]. }
  exists (PCA.computePCA3D mfcc), mfcc.
  cbn [onmessage]. rewrite Hr, Hfb, Hmfcc. cbn [fst]. fold mfcc.
  split; [reflexivity|]. split; [apply computePCA3D_shape|].
  split; [exact Hfin|]. now apply (computePCA3D_finite mfcc 40).
Qed.

(** X29: silence never produces NaN or an infinity.  For an all-zero buffer
    of any length and every positive integer sample rate other than 1000 Hz,
    both requests post their results, and none of their values is NaN or
    infinite: the magnitudes of the spectrogram, the 40 cepstral coefficients
    of every frame, the three coordinates of every point of the manifold.
    The zero power is handled by the epsilon in the logarithm, the zero norm
    and the zero variance by the guards of [computePCA3D].  At 1000 Hz the
    band from [fMin = 500] to the Nyquist frequency has no width and the
    slope of a filter at the bin of 500 Hz is 0/0 in exact arithmetic; what
    the code stores there depends on the rounding of the center frequencies,
    which is not modelled. *)
Theorem zero_buffer_pipeline_finite (stack len : nat) (sr : Z) :
  (12 <= stack)%nat -> (0 < sr)%Z -> sr <> 1000%Z ->
  (exists data,
     onmessage stack (COMPUTE_SPECTROGRAM (repeat zero len) (ofZ sr))
     = [PROGRESS "Computing spectrogram" (Fin (1 / 10));
        PROGRESS "Computing spectrogram" (Fin (9 / 10));
        SPECTROGRAM_COMPUTED data (ofZ sr)] /\
     Forall (Forall finite) data) /\
  (exists points mfcc,
     onmessage stack (COMPUTE_MFCC_PCA (repeat zero len) (ofZ sr))
     = [PROGRESS "Computing spectrogram" (Fin (1 / 10));
        PROGRESS "Computing mel features" (Fin (3 / 10));
        PROGRESS "Computing MFCC" (Fin (5 / 10));
        PROGRESS "Computing PCA" (Fin (8 / 10));
        MFCC_PCA_COMPUTED points mfcc] /\
     length points = length mfcc /\
     Forall (farray 40) mfcc /\
     Forall (farray 3) points).
Proof.
  intros Hstack Hpos Hne.
  assert (Hzeros : Forall finite (repeat zero len))
    by (apply Forall_repeat; exact I).
  assert (Hpos' : 0 < IZR sr) by now apply IZR_lt.
  assert (Hne' : IZR sr <> 1000) by (intros H; apply eq_IZR in H; contradiction).
  split.
  - now apply spectrogram_run_finite.
  - now apply (manifold_run_finite stack (repeat zero len) (IZR sr)).
Qed.

Lemma zero_buffer_pipeline_finite_witness :
  (exists data,
     onmessage 12 (COMPUTE_SPECTROGRAM (repeat zero 4096) (ofZ 44100))
     = [PROGRESS "Computing spectrogram" (Fin (1 / 10));
        PROGRESS "Computing spectrogram" (Fin (9 / 10));
        SPECTROGRAM_COMPUTED data (ofZ 44100)] /\
     Forall (Forall finite) data) /\
  (exists points mfcc,
     onmessage 12 (COMPUTE_MFCC_PCA (repeat zero 4096) (ofZ 44100))
     = [PROGRESS "Computing spectrogram" (Fin (1 / 10));
        PROGRESS "Computing mel features" (Fin (3 / 10));
        PROGRESS "Computing MFCC" (Fin (5 / 10));
        PROGRESS "Computing PCA" (Fin (8 / 10));
        MFCC_PCA_COMPUTED points mfcc] /\
     length points = length mfcc /\
     Forall (farray 40) mfcc /\
     Forall (farray 3) points).
Proof.
  apply (zero_buffer_pipeline_finite 12 4096 44100); [lia | lia | lia].
Defined.

End PipelineFinite.

(* ================================================================= *)
(** * Further properties of the code *)

(** ** windowing.ts: [applyWindow] *)

Section ApplyWindow.

Lemma pointwise_mul_get (xs : list num) :
  forall ys i, (i < length xs)%nat -> (i < length ys)%nat ->
               get (pointwise_mul xs ys) i = (get xs i * get ys i)%num.
Proof.
  induction xs as [|x xs IH]; intros [|y ys] i Hx Hy; cbn in *; try lia.
  destruct i as [|i]; [reflexivity|]. apply IH; lia.
Qed.

(** X1: [applyWindow] throws its length error exactly when the frame and the
    window differ in length; otherwise it returns an array of the same length
    whose element [i] is [samples[i] * window[i]]. *)
Theorem applyWindow_spec (samples window : list num) :
  (applyWindow samples window = Throw Error_WindowLength
   <-> length samples <> length window) /\
  (length samples = length window ->
   exists windowed,
     applyWindow samples window = Ok windowed /\
     length windowed = length samples /\
     forall i, (i < length samples)%nat ->
               get windowed i = (get samples i * get window i)%num).
Proof.
  unfold applyWindow.
  destruct (Nat.eqb_spec (length samples) (length window)) as [Heq|Hne];
    cbn [negb].
  - split; [split; [discriminate | contradiction]|].
    intros _. eexists; split; [reflexivity|].
    split; [now apply pointwise_mul_length|].
    intros i Hi. apply pointwise_mul_get; lia.
  - split; [split; auto | contradiction].
Qed.

End ApplyWindow.

(** ** spectrogram.ts: sizes out of range, the frame cap, the result record *)

Section SpectrogramEdges.

Import Spectrogram.

Lemma frameBody_zero_window (stack : nat) (preEmphasized : list num) (start : Z) :
  (0 <= start <= Z.of_nat (length preEmphasized))%Z ->
  frameBody stack preEmphasized [] 0 0 start = Throw RangeError_CallStack.
Proof.
  intros Hs. unfold frameBody.
  assert (Hslice : slice preEmphasized start (start + 0) = []).
  { unfold slice. destruct (Z.ltb_spec start 0); [lia|].
    destruct (Z.ltb_spec (start + 0) 0); [lia|].
    replace (Z.to_nat (Z.min (start + 0) (Z.of_nat (length preEmphasized))
                       - Z.min start (Z.of_nat (length preEmphasized))))
      with 0%nat by lia.
    reflexivity. }
  rewrite Hslice. cbn [applyWindow length Nat.eqb negb bind pointwise_mul].
  cbn [newFloat32Array Z.ltb Z.compare bind]. change (Z.to_nat 0) with 0%nat.
  cbn [repeat set length Nat.ltb Nat.leb bind app skipn].
  unfold computeFFT. change (zeroPad (Z.to_nat (nextPow2 0)) []) with (@nil num).
  now rewrite fft_empty.
Qed.

(** X2: a window size outside the positive integers makes
    [computeSpectrogram] throw a RangeError: a negative size when the window
    is allocated, whatever the samples; the size 0, with a positive hop and a
    positive frame cap, in the first transform, whose empty input exhausts the
    call stack however deep it is.  With the size 0 and a frame cap of 0 or
    less no transform is run and the result is the empty spectrogram. *)
Theorem computeSpectrogram_window_out_of_range
    (stack : nat) (samples : list num) (sampleRate : num)
    (windowSize hopSize maxFrames : Z) :
  ((windowSize < 0)%Z ->
   computeSpectrogram stack samples sampleRate windowSize hopSize maxFrames
   = Throw RangeError_InvalidLength) /\
  (windowSize = 0%Z -> (1 <= hopSize)%Z -> (1 <= maxFrames)%Z ->
   computeSpectrogram stack samples sampleRate windowSize hopSize maxFrames
   = Throw RangeError_CallStack) /\
  (windowSize = 0%Z -> (1 <= hopSize)%Z -> (maxFrames <= 0)%Z ->
   computeSpectrogram stack samples sampleRate windowSize hopSize maxFrames
   = Ok (mkSpectrogram [] sampleRate hopSize 0 0 0)).
Proof.
  split; [apply computeSpectrogram_negative_window|].
  split; intros -> Hh Hm; unfold computeSpectrogram;
    cbn [hannWindow newFloat32Array Z.ltb Z.compare bind];
    change (Z.to_nat 0) with 0%nat; cbn [seq map bind];
    change (nextPow2 0) with 0%Z;
    unfold floor_div; (destruct (Z.eqb_spec hopSize 0); [lia|]);
    cbn [js_plus1 js_min iterations].
  - pose proof (Z.div_pos (Z.of_nat (length (preEmphasis samples)) - 0) hopSize
                  ltac:(lia) ltac:(lia)) as Hq.
    destruct (Z.to_nat (Z.min maxFrames
                          ((Z.of_nat (length (preEmphasis samples)) - 0) / hopSize + 1)))
      as [|cnt] eqn:Hcnt; [lia|].
    cbn [frameLoop].
    destruct (Z.gtb_spec (0 * hopSize + 0) (Z.of_nat (length (preEmphasis samples))));
      [lia|].
    rewrite frameBody_zero_window by lia. reflexivity.
  - replace (Z.to_nat (Z.min maxFrames
                         ((Z.of_nat (length (preEmphasis samples)) - 0) / hopSize + 1)))
      with 0%nat by lia.
    reflexivity.
Qed.

Lemma computeSpectrogram_window_out_of_range_witness :
  computeSpectrogram 5 [Fin 1; Fin 2] (Fin 44100) (-3) 512 2000
  = Throw RangeError_InvalidLength /\
  computeSpectrogram 5 [Fin 1; Fin 2] (Fin 44100) 0 512 2000
  = Throw RangeError_CallStack /\
  computeSpectrogram 5 [Fin 1; Fin 2] (Fin 44100) 0 512 0
  = Ok (mkSpectrogram [] (Fin 44100) 512 0 0 0).
Proof.
  destruct (computeSpectrogram_window_out_of_range
              5 [Fin 1; Fin 2] (Fin 44100) (-3) 512 2000) as [H1 _].
  destruct (computeSpectrogram_window_out_of_range
              5 [Fin 1; Fin 2] (Fin 44100) 0 512 2000) as [_ [H2 _]].
  destruct (computeSpectrogram_window_out_of_range
              5 [Fin 1; Fin 2] (Fin 44100) 0 512 0) as [_ [_ H3]].
  split; [apply H1; lia|]. split; [apply H2; lia | apply H3; lia].
Defined.

(** X3: for positive window and hop sizes the result record is consistent:
    [nFrames] is the number of frames, never above a frame cap that is not
    negative; [nBins] is [floor(fftSize / 2) + 1] when there is a frame and 0
    when there is none; the sample rate, the hop and the window size are
    those passed in. *)
Theorem computeSpectrogram_record
    (stack : nat) (samples : list num) (sampleRate : num)
    (windowSize hopSize maxFrames : Z) :
  (1 <= windowSize)%Z -> (1 <= hopSize)%Z ->
  (Z.to_nat (Z.log2_up windowSize) < stack)%nat ->
  exists r,
    computeSpectrogram stack samples sampleRate windowSize hopSize maxFrames
    = Ok r /\
    nFrames r = length (data r) /\
    (Z.of_nat (nFrames r) <= Z.max 0 maxFrames)%Z /\
    Z.of_nat (nBins r)
    = (if (nFrames r =? 0)%nat then 0 else nextPow2 windowSize / 2 + 1)%Z /\
    Spectrogram.sampleRate r = sampleRate /\
    Spectrogram.hopSize r = hopSize /\
    Spectrogram.windowSize r = windowSize.
Proof.
  intros Hw Hh Hstack.
  destruct (computeSpectrogram_count stack samples sampleRate windowSize hopSize
              maxFrames Hw Hh Hstack) as [r [Hr [Hcount [Hbins [Hn Hsr]]]]].
  exists r. split; [exact Hr|]. split; [exact Hn|].
  split; [rewrite Hn, Hcount; lia|].
  unfold computeSpectrogram in Hr.
  destruct (hannWindow windowSize) as [window|]; [|discriminate]. cbn [bind] in Hr.
  destruct (frameLoop _ _ _ _ _ _ _ _ _) as [spectrogram|]; [|discriminate].
  cbn [bind] in Hr. injection Hr as <-. cbn in *.
  repeat split. destruct spectrogram as [|frame0 rest]; [reflexivity|].
  cbn [length Nat.eqb]. inversion Hbins; subst. assumption.
Qed.

Lemma computeSpectrogram_record_witness :
  exists r,
    computeSpectrogram 3 (repeat zero 9) (Fin 8000) 4 2 2 = Ok r /\
    nFrames r = length (data r) /\
    (Z.of_nat (nFrames r) <= Z.max 0 2)%Z /\
    Z.of_nat (nBins r)
    = (if (nFrames r =? 0)%nat then 0 else nextPow2 4 / 2 + 1)%Z /\
    Spectrogram.sampleRate r = Fin 8000 /\
    Spectrogram.hopSize r = 2%Z /\
    Spectrogram.windowSize r = 4%Z.
Proof.
  apply (computeSpectrogram_record 3 (repeat zero 9) (Fin 8000) 4 2 2);
    [lia | lia | cbn; lia].
Defined.

End SpectrogramEdges.

Section SpectrogramFrames.

Import Spectrogram.

(** The frames the loop appends are the bodies of the successive indices. *)
Lemma frameLoop_frames (stack : nat) (preEmphasized window : list num)
    (windowSize hopSize fftSize : Z) (remaining : nat) :
  forall (frameIdx : Z) (spectrogram result : list (list num)),
    frameLoop stack preEmphasized window windowSize hopSize fftSize
      remaining frameIdx spectrogram = Ok result ->
    exists frames,
      result = spectrogram ++ frames /\
      (length frames <= remaining)%nat /\
      forall t, (t < length frames)%nat ->
        frameBody stack preEmphasized window windowSize fftSize
          ((frameIdx + Z.of_nat t) * hopSize)
        = Ok (nth t frames []).
Proof.
  induction remaining as [|remaining IH]; intros frameIdx spectrogram result H.
  - cbn in H. injection H as <-. exists []. rewrite app_nil_r.
    repeat split; [cbn; lia | cbn; intros; lia].
  - cbn [frameLoop] in H. destruct (_ >? _)%Z.
    + injection H as <-. exists []. rewrite app_nil_r.
      repeat split; [cbn; lia | cbn; intros; lia].
    + destruct (frameBody _ _ _ _ _ _) as [frame|] eqn:Hframe; [|discriminate].
      cbn [bind] in H. apply IH in H. destruct H as [frames [-> [Hlen Hall]]].
      exists (frame :: frames). rewrite <- app_assoc. cbn [app length].
      repeat split; [lia|]. intros [|t] Ht.
      * cbn [nth]. now rewrite Z.add_0_r.
      * cbn [nth]. rewrite <- (Hall t) by lia. f_equal. lia.
Qed.

Lemma preEmphasis_app (samples more : list num) :
  firstn (length samples) (preEmphasis (samples ++ more)) = preEmphasis samples.
Proof.
  unfold preEmphasis. rewrite length_app, seq_app, map_app.
  rewrite firstn_app, length_map, length_seq, Nat.sub_diag.
  cbn [firstn]. rewrite app_nil_r.
  rewrite firstn_all2 by (rewrite length_map, length_seq; lia).
  apply map_ext_in. intros i Hi. apply in_seq in Hi. unfold Num.get.
  destruct (i =? 0)%nat; rewrite !app_nth1 by lia; reflexivity.
Qed.

Lemma slice_firstn (l : list num) (n : nat) (b w : Z) :
  (0 <= b)%Z -> (0 <= w)%Z -> (b + w <= Z.of_nat n)%Z -> (n <= length l)%nat ->
  slice (firstn n l) b (b + w) = slice l b (b + w).
Proof.
  intros Hb Hw Hfit Hn. unfold slice. rewrite length_firstn.
  destruct (Z.ltb_spec b 0); [lia|]. destruct (Z.ltb_spec (b + w) 0); [lia|].
  replace (Z.min (b + w) (Z.of_nat (Nat.min n (length l)))) with (b + w)%Z by lia.
  replace (Z.min b (Z.of_nat (Nat.min n (length l)))) with b by lia.
  replace (Z.min (b + w) (Z.of_nat (length l))) with (b + w)%Z by lia.
  replace (Z.min b (Z.of_nat (length l))) with b by lia.
  replace (b + w - b)%Z with w by lia.
  rewrite skipn_firstn_comm, firstn_firstn. f_equal. lia.
Qed.

Lemma frameBody_prefix (stack : nat) (samples more window : list num)
    (windowSize fftSize start : Z) :
  (0 <= start)%Z -> (0 <= windowSize)%Z ->
  (start + windowSize <= Z.of_nat (length samples))%Z ->
  frameBody stack (preEmphasis (samples ++ more)) window windowSize fftSize start
  = frameBody stack (preEmphasis samples) window windowSize fftSize start.
Proof.
  intros Hs Hw Hfit. unfold frameBody.
  rewrite <- (preEmphasis_app samples more).
  rewrite (slice_firstn (preEmphasis (samples ++ more)) (length samples));
    [reflexivity | lia | lia | lia |].
  rewrite preEmphasis_length, length_app. lia.
Qed.

(** X4: the spectrogram is causal.  For positive window and hop sizes,
    appending samples to the input changes no frame already there: the
    spectrogram of the longer input has at least as many frames (under the
    same cap), and its first frames are those of the shorter input. *)
Theorem computeSpectrogram_prefix
    (stack : nat) (samples more : list num) (sampleRate : num)
    (windowSize hopSize maxFrames : Z) :
  (1 <= windowSize)%Z -> (1 <= hopSize)%Z ->
  (Z.to_nat (Z.log2_up windowSize) < stack)%nat ->
  exists r1 r2,
    computeSpectrogram stack samples sampleRate windowSize hopSize maxFrames
    = Ok r1 /\
    computeSpectrogram stack (samples ++ more) sampleRate windowSize hopSize
      maxFrames = Ok r2 /\
    (length (data r1) <= length (data r2))%nat /\
    firstn (length (data r1)) (data r2) = data r1.
Proof.
  intros Hw Hh Hstack.
  destruct (computeSpectrogram_count stack samples sampleRate windowSize hopSize
              maxFrames Hw Hh Hstack) as [r1 [Hr1 [Hc1 _]]].
  destruct (computeSpectrogram_count stack (samples ++ more) sampleRate windowSize
              hopSize maxFrames Hw Hh Hstack) as [r2 [Hr2 [Hc2 _]]].
  exists r1, r2. split; [exact Hr1|]. split; [exact Hr2|].
  rewrite preEmphasis_length in Hc1, Hc2. rewrite length_app in Hc2.
  assert (Hmono : ((Z.of_nat (length samples) - windowSize) / hopSize
                   <= (Z.of_nat (length samples + length more) - windowSize)
                      / hopSize)%Z)
    by (apply Z.div_le_mono; lia).
  assert (Hle : (length (data r1) <= length (data r2))%nat) by lia.
  split; [exact Hle|].
  unfold computeSpectrogram in Hr1, Hr2.
  destruct (hannWindow windowSize) as [window|]; [|discriminate].
  cbn [bind] in Hr1, Hr2.
  destruct (frameLoop _ (preEmphasis samples) _ _ _ _ _ _ _) as [s1|] eqn:H1;
    [|discriminate].
  destruct (frameLoop _ (preEmphasis (samples ++ more)) _ _ _ _ _ _ _)
    as [s2|] eqn:H2; [|discriminate].
  cbn [bind] in Hr1, Hr2. injection Hr1 as <-. injection Hr2 as <-.
  cbn [data] in *.
  apply frameLoop_frames in H1, H2.
  destruct H1 as [f1 [-> [_ Hf1]]]. destruct H2 as [f2 [-> [_ Hf2]]].
  cbn [app] in *.
  apply (nth_ext _ _ [] []).
  - rewrite length_firstn. lia.
  - intros t Ht. rewrite length_firstn in Ht.
    rewrite nth_firstn. destruct (Nat.ltb_spec t (length f1)); [|lia].
    assert (Hfit : ((0 + Z.of_nat t) * hopSize + windowSize
                    <= Z.of_nat (length samples))%Z).
    { assert (Hq : (Z.of_nat t + 1 <= (Z.of_nat (length samples) - windowSize)
                                      / hopSize + 1)%Z) by lia.
      pose proof (Z.mul_div_le (Z.of_nat (length samples) - windowSize) hopSize
                    ltac:(lia)). nia. }
    pose proof (Hf1 t ltac:(lia)) as E1. pose proof (Hf2 t ltac:(lia)) as E2.
    rewrite frameBody_prefix in E2 by nia.
    congruence.
Qed.

Lemma computeSpectrogram_prefix_witness :
  exists r1 r2,
    computeSpectrogram 3 [Fin 1; Fin 2; Fin 3; Fin 4; Fin 5] (Fin 8000) 4 1 10
    = Ok r1 /\
    computeSpectrogram 3 ([Fin 1; Fin 2; Fin 3; Fin 4; Fin 5] ++ [Fin 6; Fin 7])
      (Fin 8000) 4 1 10 = Ok r2 /\
    (length (data r1) <= length (data r2))%nat /\
    firstn (length (data r1)) (data r2) = data r1.
Proof.
  apply (computeSpectrogram_prefix 3 [Fin 1; Fin 2; Fin 3; Fin 4; Fin 5]
           [Fin 6; Fin 7] (Fin 8000) 4 1 10); [lia | lia | cbn; lia].
Defined.




End SpectrogramFrames.

(** ** fft.ts: the transform computed is the discrete Fourier transform *)

Section FFTisDFT.

Local Open Scope R_scope.

Lemma dsum_ext (f g : nat -> R) (N : nat) :
  (forall n, (n < N)%nat -> f n = g n) -> DFT.sum f N = DFT.sum g N.
Proof.
  induction N as [|N IH]; intros H; [reflexivity|].
  cbn [DFT.sum]. rewrite IH by (intros n Hn; apply H; lia).
  rewrite (H N) by lia. reflexivity.
Qed.

Lemma dsum_plus (f g : nat -> R) (N : nat) :
  DFT.sum (fun n => f n + g n) N = DFT.sum f N + DFT.sum g N.
Proof. induction N as [|N IH]; cbn [DFT.sum]; [lra | rewrite IH; lra]. Qed.

Lemma dsum_scal (c : R) (f : nat -> R) (N : nat) :
  DFT.sum (fun n => c * f n) N = c * DFT.sum f N.
Proof. induction N as [|N IH]; cbn [DFT.sum]; [lra | rewrite IH; lra]. Qed.

Lemma dsum_opp (f : nat -> R) (N : nat) :
  DFT.sum (fun n => - f n) N = - DFT.sum f N.
Proof. induction N as [|N IH]; cbn [DFT.sum]; [lra | rewrite IH; lra]. Qed.

Lemma dsum_zero (f : nat -> R) (N : nat) :
  (forall n, (n < N)%nat -> f n = 0) -> DFT.sum f N = 0.
Proof.
  induction N as [|N IH]; intros H; [reflexivity|].
  cbn [DFT.sum]. rewrite IH by (intros n Hn; apply H; lia).
  rewrite (H N) by lia. lra.
Qed.

(** A sum over [2 * h] indices, split into the even and the odd ones. *)
Lemma dsum_even_odd (f : nat -> R) (h : nat) :
  DFT.sum f (2 * h)
  = DFT.sum (fun m => f (2 * m)%nat) h + DFT.sum (fun m => f (2 * m + 1)%nat) h.
Proof.
  induction h as [|h IH]; [cbn; lra|].
  replace (2 * S h)%nat with (S (S (2 * h))) by lia.
  cbn [DFT.sum]. rewrite IH.
  replace (S (2 * h)) with (2 * h + 1)%nat by lia. lra.
Qed.

Section Butterfly.

Variable x : list R.
Variable h : nat.
Hypothesis h_pos : (1 <= h)%nat.
Hypothesis x_length : length x = (2 * h)%nat.

Let xe : list R := map (fun i => nth (2 * i) x 0) (seq 0 h).
Let xo : list R := map (fun i => nth (2 * i + 1) x 0) (seq 0 h).

Lemma xe_length : length xe = h.
Proof. unfold xe. now rewrite length_map, length_seq. Qed.

Lemma xo_length : length xo = h.
Proof. unfold xo. now rewrite length_map, length_seq. Qed.

Lemma xe_nth (m : nat) : (m < h)%nat -> nth m xe 0 = nth (2 * m) x 0.
Proof.
  intros Hm. unfold xe.
  rewrite (nth_indep _ 0 ((fun i => nth (2 * i) x 0) 0%nat))
    by (rewrite length_map, length_seq; exact Hm).
  rewrite (map_nth (fun i => nth (2 * i) x 0)), seq_nth by exact Hm.
  reflexivity.
Qed.

Lemma xo_nth (m : nat) : (m < h)%nat -> nth m xo 0 = nth (2 * m + 1) x 0.
Proof.
  intros Hm. unfold xo.
  rewrite (nth_indep _ 0 ((fun i => nth (2 * i + 1) x 0) 0%nat))
    by (rewrite length_map, length_seq; exact Hm).
  rewrite (map_nth (fun i => nth (2 * i + 1) x 0)), seq_nth by exact Hm.
  reflexivity.
Qed.

Lemma h_INR : INR h <> 0.
Proof. apply INR_pos, h_pos. Qed.

Variable j : nat.

(** The angle of the twiddle factor, [(-2 * PI * j) / N]. *)
Let theta : R := -2 * PI * INR j / INR (2 * h).
Let a (m : nat) : R := 2 * PI * INR j * INR m / INR h.

Lemma arg_even (m : nat) :
  2 * PI * INR j * INR (2 * m) / INR (2 * h) = a m.
Proof. unfold a. rewrite !mult_INR. cbn [INR]. pose proof h_INR. field. lra. Qed.

Lemma arg_odd (m : nat) :
  2 * PI * INR j * INR (2 * m + 1) / INR (2 * h) = a m - theta.
Proof.
  unfold a, theta. rewrite plus_INR, !mult_INR. cbn [INR].
  pose proof h_INR. field. lra.
Qed.

Lemma arg_even_upper (m : nat) :
  2 * PI * INR (j + h) * INR (2 * m) / INR (2 * h) = a m + 2 * INR m * PI.
Proof.
  unfold a. rewrite plus_INR, !mult_INR. cbn [INR]. pose proof h_INR. field. lra.
Qed.

Lemma arg_odd_upper (m : nat) :
  2 * PI * INR (j + h) * INR (2 * m + 1) / INR (2 * h)
  = (a m - theta + PI) + 2 * INR m * PI.
Proof.
  unfold a, theta. rewrite !plus_INR, !mult_INR. cbn [INR].
  pose proof h_INR. field. lra.
Qed.

Let c : R := cos theta.
Let s : R := sin theta.

Lemma re_xe : DFT.re xe j = DFT.sum (fun m => nth (2 * m) x 0 * cos (a m)) h.
Proof.
  unfold DFT.re. rewrite xe_length. apply dsum_ext. intros m Hm.
  now rewrite xe_nth.
Qed.

Lemma im_xe : DFT.im xe j = - DFT.sum (fun m => nth (2 * m) x 0 * sin (a m)) h.
Proof.
  unfold DFT.im. rewrite xe_length. f_equal. apply dsum_ext. intros m Hm.
  now rewrite xe_nth.
Qed.

Lemma re_xo : DFT.re xo j = DFT.sum (fun m => nth (2 * m + 1) x 0 * cos (a m)) h.
Proof.
  unfold DFT.re. rewrite xo_length. apply dsum_ext. intros m Hm.
  now rewrite xo_nth.
Qed.

Lemma im_xo :
  DFT.im xo j = - DFT.sum (fun m => nth (2 * m + 1) x 0 * sin (a m)) h.
Proof.
  unfold DFT.im. rewrite xo_length. f_equal. apply dsum_ext. intros m Hm.
  now rewrite xo_nth.
Qed.

Lemma odd_cos_sum :
  DFT.sum (fun m => nth (2 * m + 1) x 0 * cos (a m - theta)) h
  = c * DFT.re xo j - s * DFT.im xo j.
Proof.
  rewrite re_xo, im_xo.
  rewrite (dsum_ext _ (fun m => c * (nth (2 * m + 1) x 0 * cos (a m))
                                + s * (nth (2 * m + 1) x 0 * sin (a m))))
    by (intros m _; rewrite cos_minus; unfold c, s; ring).
  rewrite dsum_plus, !dsum_scal. ring.
Qed.

Lemma odd_sin_sum :
  - DFT.sum (fun m => nth (2 * m + 1) x 0 * sin (a m - theta)) h
  = s * DFT.re xo j + c * DFT.im xo j.
Proof.
  rewrite re_xo, im_xo.
  rewrite (dsum_ext _ (fun m => c * (nth (2 * m + 1) x 0 * sin (a m))
                                + - s * (nth (2 * m + 1) x 0 * cos (a m))))
    by (intros m _; rewrite sin_minus; unfold c, s; ring).
  rewrite dsum_plus, !dsum_scal. ring.
Qed.

Lemma re_lower :
  DFT.re x j = DFT.re xe j + (c * DFT.re xo j - s * DFT.im xo j).
Proof.
  unfold DFT.re at 1. rewrite x_length, dsum_even_odd.
  rewrite (dsum_ext _ (fun m => nth (2 * m) x 0 * cos (a m)))
    by (intros m _; now rewrite arg_even).
  rewrite (dsum_ext (fun m => nth (2 * m + 1) x 0 * _)
                    (fun m => nth (2 * m + 1) x 0 * cos (a m - theta)))
    by (intros m _; now rewrite arg_odd).
  now rewrite <- re_xe, odd_cos_sum.
Qed.

Lemma im_lower :
  DFT.im x j = DFT.im xe j + (s * DFT.re xo j + c * DFT.im xo j).
Proof.
  unfold DFT.im at 1. rewrite x_length, dsum_even_odd.
  rewrite (dsum_ext _ (fun m => nth (2 * m) x 0 * sin (a m)))
    by (intros m _; now rewrite arg_even).
  rewrite (dsum_ext (fun m => nth (2 * m + 1) x 0 * _)
                    (fun m => nth (2 * m + 1) x 0 * sin (a m - theta)))
    by (intros m _; now rewrite arg_odd).
  rewrite Ropp_plus_distr, <- im_xe, odd_sin_sum. reflexivity.
Qed.

Lemma re_upper :
  DFT.re x (j + h) = DFT.re xe j - (c * DFT.re xo j - s * DFT.im xo j).
Proof.
  unfold DFT.re at 1. rewrite x_length, dsum_even_odd.
  rewrite (dsum_ext _ (fun m => nth (2 * m) x 0 * cos (a m)))
    by (intros m _; now rewrite arg_even_upper, cos_period).
  rewrite (dsum_ext (fun m => nth (2 * m + 1) x 0 * _)
                    (fun m => - (nth (2 * m + 1) x 0 * cos (a m - theta))))
    by (intros m _; rewrite arg_odd_upper, cos_period, neg_cos; ring).
  rewrite dsum_opp, <- re_xe, odd_cos_sum. ring.
Qed.

Lemma im_upper :
  DFT.im x (j + h) = DFT.im xe j - (s * DFT.re xo j + c * DFT.im xo j).
Proof.
  unfold DFT.im at 1. rewrite x_length, dsum_even_odd.
  rewrite (dsum_ext _ (fun m => nth (2 * m) x 0 * sin (a m)))
    by (intros m _; now rewrite arg_even_upper, sin_period).
  rewrite (dsum_ext (fun m => nth (2 * m + 1) x 0 * _)
                    (fun m => - (nth (2 * m + 1) x 0 * sin (a m - theta))))
    by (intros m _; rewrite arg_odd_upper, sin_period, neg_sin; ring).
  rewrite dsum_opp, Ropp_plus_distr, Ropp_involutive, <- im_xe.
  rewrite <- odd_sin_sum. ring.
Qed.

End Butterfly.

End FFTisDFT.

Section FFTisDFTProof.

Local Open Scope R_scope.

Lemma get_map_Fin (x : list R) (n : nat) :
  (n < length x)%nat -> get (map Fin x) n = Fin (nth n x 0).
Proof.
  intros Hn. unfold Num.get.
  rewrite (nth_indep _ NaN (Fin 0)) by (rewrite length_map; exact Hn).
  apply (map_nth Fin).
Qed.

Lemma angle_value (j N : nat) :
  (1 <= N)%nat -> angle j N = Fin (-2 * PI * INR j / INR N).
Proof.
  intros HN. unfold angle, Num.ofNat. cbn [Num.mul].
  apply div_Fin, INR_pos, HN.
Qed.

Lemma seq_shift_by (d n : nat) :
  forall s, seq (s + d) n = map (fun j => (j + d)%nat) (seq s n).
Proof.
  induction n as [|n IH]; intros s; [reflexivity|].
  cbn [seq map]. f_equal. apply (IH (S s)).
Qed.

Lemma seq_upper_half (h : nat) : seq h h = map (fun j => (j + h)%nat) (seq 0 h).
Proof. apply (seq_shift_by h h 0). Qed.

(** On the real sequence [x] of [2 ^ k] values [fft] returns the real and
    imaginary parts of its discrete Fourier transform. *)
Lemma fft_dft (k : nat) :
  forall (stack : nat) (x : list R),
    length x = (2 ^ k)%nat -> (k < stack)%nat ->
    fft stack (map Fin x)
    = Ok (mkFFT (map (fun j => Fin (DFT.re x j)) (seq 0 (2 ^ k)))
                (map (fun j => Fin (DFT.im x j)) (seq 0 (2 ^ k)))).
Proof.
  induction k as [|k IH]; intros stack x Hlen Hstack;
    (destruct stack as [|stack]; [lia|]); cbn [fft]; rewrite length_map, Hlen.
  - destruct x as [|x0 [|x1 x]]; try discriminate.
    cbn [Nat.pow Nat.eqb map seq Num.get nth]. unfold Num.zero.
    do 2 f_equal; repeat f_equal; unfold DFT.re, DFT.im; cbn [length DFT.sum nth INR].
    + replace (2 * PI * 0 * 0 / 1) with 0 by field. rewrite cos_0. ring.
    + replace (2 * PI * 0 * 0 / 1) with 0 by field. rewrite sin_0. ring.
  - rewrite pow2_S_neq_1, half_pow2.
    set (h := (2 ^ k)%nat).
    assert (Hh : (1 <= h)%nat) by (pose proof (Nat.pow_nonzero 2 k); unfold h; lia).
    assert (Hx : length x = (2 * h)%nat) by (rewrite Hlen; apply Nat.pow_succ_r').
    set (xe := map (fun i => nth (2 * i) x 0) (seq 0 h)).
    set (xo := map (fun i => nth (2 * i + 1) x 0) (seq 0 h)).
    assert (He : map (fun i => get (map Fin x) (2 * i)) (seq 0 h) = map Fin xe).
    { unfold xe. rewrite map_map. apply map_ext_in. intros i Hi.
      apply in_seq in Hi. apply get_map_Fin. lia. }
    assert (Ho : map (fun i => get (map Fin x) (2 * i + 1)) (seq 0 h) = map Fin xo).
    { unfold xo. rewrite map_map. apply map_ext_in. intros i Hi.
      apply in_seq in Hi. apply get_map_Fin. lia. }
    rewrite He, Ho.
    rewrite (IH stack xe) by (unfold xe; rewrite ?length_map, ?length_seq; lia).
    rewrite (IH stack xo) by (unfold xo; rewrite ?length_map, ?length_seq; lia).
    cbn [bind]. fold h. f_equal. unfold butterfly. cbn [real imag].
    rewrite half_pow2. fold h.
    replace (2 ^ S k - h)%nat with h by (rewrite Nat.pow_succ_r'; fold h; lia).
    replace (Nat.even (2 ^ S k)) with true
      by (symmetry; rewrite Nat.even_pow by discriminate; reflexivity).
    replace (2 ^ S k)%nat with (2 * h)%nat by (symmetry; apply Nat.pow_succ_r').
    replace (seq 0 (2 * h)) with (seq 0 h ++ seq h h)
      by (rewrite <- seq_app; f_equal; lia).
    rewrite !map_app, seq_upper_half, !map_map.
    assert (Hvals : forall j, (j < h)%nat ->
              combine_re (2 * h)
                (mkFFT (map (fun j => Fin (DFT.re xe j)) (seq 0 h))
                       (map (fun j => Fin (DFT.im xe j)) (seq 0 h)))
                (mkFFT (map (fun j => Fin (DFT.re xo j)) (seq 0 h))
                       (map (fun j => Fin (DFT.im xo j)) (seq 0 h))) j
              = (Fin (DFT.re x j), Fin (DFT.re x (j + h))) /\
              combine_im (2 * h)
                (mkFFT (map (fun j => Fin (DFT.re xe j)) (seq 0 h))
                       (map (fun j => Fin (DFT.im xe j)) (seq 0 h)))
                (mkFFT (map (fun j => Fin (DFT.re xo j)) (seq 0 h))
                       (map (fun j => Fin (DFT.im xo j)) (seq 0 h))) j
              = (Fin (DFT.im x j), Fin (DFT.im x (j + h)))).
    { intros j Hj. unfold combine_re, combine_im. cbn [real imag].
      rewrite !get_map_seq by exact Hj. rewrite angle_value by lia.
      cbn [Num.cos Num.sin Num.mul Num.sub Num.neg Num.add].
      rewrite (re_lower x h Hh Hx j), (im_lower x h Hh Hx j),
              (re_upper x h Hh Hx j), (im_upper x h Hh Hx j).
      fold xe xo. split; f_equal; f_equal; ring. }
    f_equal; f_equal; apply map_ext_in; intros j Hj; apply in_seq in Hj;
      destruct (Hvals j ltac:(lia)) as [Hre Him]; rewrite ?Hre, ?Him;
      reflexivity.
Qed.

Lemma zeroPad_map_Fin (size : nat) (xs : list R) :
  zeroPad size (map Fin xs) = map Fin (DFT.pad size xs).
Proof.
  unfold zeroPad, DFT.pad.
  rewrite map_app, firstn_map, length_map, map_repeat. reflexivity.
Qed.

Lemma pad_length (size : nat) (xs : list R) : length (DFT.pad size xs) = size.
Proof.
  unfold DFT.pad. rewrite length_app, length_firstn, repeat_length. lia.
Qed.

Lemma computeFFT_dft (stack : nat) (xs : list R) (fftSize : Z) :
  (1 <= fftSize)%Z -> (Z.to_nat (Z.log2_up fftSize) < stack)%nat ->
  let P := Z.to_nat (nextPow2 fftSize) in
  let x := DFT.pad P xs in
  computeFFT stack (map Fin xs) fftSize
  = Ok (mkFFT (map (fun j => Fin (DFT.re x j)) (seq 0 P))
              (map (fun j => Fin (DFT.im x j)) (seq 0 P))).
Proof.
  intros Hsize Hstack P x. unfold computeFFT. fold P.
  rewrite zeroPad_map_Fin. fold x.
  assert (HP : P = (2 ^ Z.to_nat (Z.log2_up fftSize))%nat)
    by (apply nextPow2_to_nat, Hsize).
  assert (Hlen : length x = (2 ^ Z.to_nat (Z.log2_up fftSize))%nat)
    by (unfold x; now rewrite pad_length).
  pose proof (fft_dft _ stack x Hlen Hstack) as H.
  rewrite <- HP in H. exact H.
Qed.

End FFTisDFTProof.

(** X6: [computeFFT] computes the discrete Fourier transform.  For finite
    samples and an integer [fftSize >= 1], with [P] the least power of two
    that is at least [fftSize] and [x] the samples cut or zero-padded to [P]
    values, the result is, for each bin [j < P] (in exact arithmetic),
    [real[j] = sum of x[n] * cos(2 PI j n / P)] and
    [imag[j] = - sum of x[n] * sin(2 PI j n / P)]. *)
Theorem computeFFT_is_dft (stack : nat) (xs : list R) (fftSize : Z) :
  (1 <= fftSize)%Z -> (Z.to_nat (Z.log2_up fftSize) < stack)%nat ->
  let P := Z.to_nat (nextPow2 fftSize) in
  let x := DFT.pad P xs in
  computeFFT stack (map Fin xs) fftSize
  = Ok (mkFFT (map (fun j => Fin (DFT.re x j)) (seq 0 P))
              (map (fun j => Fin (DFT.im x j)) (seq 0 P))).
Proof. exact (computeFFT_dft stack xs fftSize). Qed.

Lemma computeFFT_is_dft_witness :
  let P := Z.to_nat (nextPow2 3) in
  let x := DFT.pad P [1; 2; 3]%R in
  computeFFT 3 (map Fin [1; 2; 3]%R) 3
  = Ok (mkFFT (map (fun j => Fin (DFT.re x j)) (seq 0 P))
              (map (fun j => Fin (DFT.im x j)) (seq 0 P))).
Proof.
  apply (computeFFT_is_dft 3 [1; 2; 3]%R 3); [lia | cbn; lia].
Defined.

Section Hermitian.

Local Open Scope R_scope.

Lemma dft_mirror (x : list R) (j : nat) :
  (0 < j)%nat -> (j < length x)%nat ->
  DFT.re x (length x - j) = DFT.re x j /\
  DFT.im x (length x - j) = - DFT.im x j.
Proof.
  intros Hj0 Hj.
  assert (HN : INR (length x) <> 0) by (apply INR_pos; lia).
  assert (Harg : forall n,
            2 * PI * INR (length x - j) * INR n / INR (length x)
            = - (2 * PI * INR j * INR n / INR (length x)) + 2 * INR n * PI).
  { intros n. rewrite minus_INR by lia. field. exact HN. }
  unfold DFT.re, DFT.im. split.
  - apply dsum_ext. intros n _. now rewrite Harg, cos_period, cos_neg.
  - rewrite Ropp_involutive, <- dsum_opp. apply dsum_ext. intros n _.
    rewrite Harg, sin_period, sin_neg. ring.
Qed.

Lemma magnitude_value (re im : nat -> R) (P j : nat) :
  (j < P)%nat ->
  get (magnitudeSpectrum (mkFFT (map (fun j => Fin (re j)) (seq 0 P))
                                (map (fun j => Fin (im j)) (seq 0 P)))) j
  = Fin (sqrt (re j * re j + im j * im j)).
Proof.
  intros Hj. unfold magnitudeSpectrum. cbn [real imag].
  rewrite length_map, length_seq, get_map_seq by exact Hj.
  rewrite !get_map_seq by exact Hj. cbn [Num.mul Num.add].
  apply sqrt_Fin. nra.
Qed.

End Hermitian.

(** X7: in exact arithmetic the magnitude spectrum of real samples is
    mirror-symmetric.  For finite samples and [fftSize >= 1], with [P] the
    padded size, the magnitude of every bin is [sqrt(re^2 + im^2)] of the
    discrete Fourier transform, and for [0 < j < P] the magnitude of bin
    [P - j] is that of bin [j]: the bins above [P / 2] repeat the bins below
    it.  (The code rounds every butterfly and every magnitude to single
    precision: two mirror bins agree up to that rounding, and samples near
    the largest single precision value overflow.) *)
Theorem magnitudeSpectrum_mirror (stack : nat) (xs : list R) (fftSize : Z) (j : nat) :
  (1 <= fftSize)%Z -> (Z.to_nat (Z.log2_up fftSize) < stack)%nat ->
  let P := Z.to_nat (nextPow2 fftSize) in
  let x := DFT.pad P xs in
  (0 < j)%nat -> (j < P)%nat ->
  exists r,
    computeFFT stack (map Fin xs) fftSize = Ok r /\
    length (magnitudeSpectrum r) = P /\
    get (magnitudeSpectrum r) j
    = Fin (sqrt (DFT.re x j * DFT.re x j + DFT.im x j * DFT.im x j)) /\
    get (magnitudeSpectrum r) (P - j) = get (magnitudeSpectrum r) j.
Proof.
  intros Hsize Hstack P x Hj0 Hj.
  eexists. split; [apply (computeFFT_dft stack xs fftSize Hsize Hstack)|].
  fold P. fold x.
  split; [rewrite magnitudeSpectrum_length; cbn [real]; apply length_map_seq|].
  rewrite !(magnitude_value (DFT.re x) (DFT.im x) P) by lia.
  split; [reflexivity|].
  assert (Hlen : length x = P) by apply pad_length.
  destruct (dft_mirror x j Hj0 ltac:(lia)) as [Hre Him].
  rewrite Hlen in Hre, Him. rewrite Hre, Him. f_equal. f_equal. ring.
Qed.

Lemma magnitudeSpectrum_mirror_witness :
  let P := Z.to_nat (nextPow2 4) in
  let x := DFT.pad P [1; 2; 3]%R in
  exists r,
    computeFFT 3 (map Fin [1; 2; 3]%R) 4 = Ok r /\
    length (magnitudeSpectrum r) = P /\
    get (magnitudeSpectrum r) 1
    = Fin (sqrt (DFT.re x 1 * DFT.re x 1 + DFT.im x 1 * DFT.im x 1)) /\
    get (magnitudeSpectrum r) (P - 1) = get (magnitudeSpectrum r) 1.
Proof.
  apply (magnitudeSpectrum_mirror 3 [1; 2; 3]%R 4 1);
    [lia | cbn; lia | lia | cbn; lia].
Defined.

(** ** melFilterbank.ts: the mel scale, the center frequencies, the weights *)

Section MelScale.

Local Open Scope R_scope.

Lemma Rpower10_log10 (y : R) : 0 < y -> Rpower 10 (ln y / ln 10) = y.
Proof.
  intros Hy. unfold Rpower. pose proof ln10_pos.
  replace (ln y / ln 10 * ln 10) with (ln y) by (field; lra).
  now apply exp_ln.
Qed.

Lemma log10_Rpower10 (t : R) : ln (Rpower 10 t) / ln 10 = t.
Proof. unfold Rpower. rewrite ln_exp. pose proof ln10_pos. field. lra. Qed.

Lemma Rpower10_pos (t : R) : 0 < Rpower 10 t.
Proof. unfold Rpower. apply exp_pos. Qed.

Lemma melOf_increasing (lo hi : R) : -700 < lo -> lo < hi -> melOf lo < melOf hi.
Proof.
  intros Hlo Hlt. unfold melOf. pose proof ln10_pos.
  assert (ln (1 + lo / 700) < ln (1 + hi / 700)) by (apply ln_increasing; lra).
  apply Rmult_lt_compat_l; [lra|]. apply Rmult_lt_compat_r; [|assumption].
  apply Rinv_0_lt_compat. lra.
Qed.

Lemma centerHz_melOf (a d : R) (i : nat) (hz : R) :
  -700 < hz -> a + d * INR i = melOf hz -> centerHz a d i = hz.
Proof.
  intros H Heq. unfold centerHz. rewrite Heq. unfold melOf.
  replace (2595 * (ln (1 + hz / 700) / ln 10) / 2595)
    with (ln (1 + hz / 700) / ln 10) by (pose proof ln10_pos; field; lra).
  rewrite Rpower10_log10 by lra. field.
Qed.

Lemma centerHz_increasing (a d : R) (i : nat) :
  0 < d -> centerHz a d i < centerHz a d (S i).
Proof.
  intros Hd. unfold centerHz. rewrite S_INR.
  apply Rmult_lt_compat_l; [lra|]. apply Rplus_lt_compat_r.
  apply Rpower_lt; [lra|]. unfold Rdiv. apply Rmult_lt_compat_r; lra.
Qed.

Lemma centerHz_monotone (a d : R) (i k : nat) :
  0 < d -> (i <= k)%nat -> centerHz a d i <= centerHz a d k.
Proof.
  intros Hd. induction 1 as [|k Hle IH]; [lra|].
  pose proof (centerHz_increasing a d k Hd). lra.
Qed.

Lemma centerFreqs_explicit (melBins : Z) (lo hi : R) :
  (0 <= melBins)%Z -> -700 < lo -> lo < hi ->
  let a := melOf lo in
  let d := (melOf hi - melOf lo) / IZR (melBins + 1) in
  0 < d /\
  centerHz a d 0 = lo /\
  centerHz a d (Z.to_nat (melBins + 1)) = hi /\
  Mel.centerFreqs melBins (Fin lo) (Fin hi)
  = map (fun i => Fin (centerHz a d i)) (seq 0 (Z.to_nat (melBins + 2))).
Proof.
  intros Hbins Hlo Hlt a d.
  assert (Hn : 0 < IZR (melBins + 1)) by (apply IZR_lt; lia).
  assert (Hd : 0 < d).
  { unfold d. apply Rdiv_lt_0_compat; [|exact Hn].
    pose proof (melOf_increasing lo hi Hlo Hlt). lra. }
  split; [exact Hd|]. split; [|split].
  - apply centerHz_melOf; [exact Hlo|]. cbn [INR]. unfold a. ring.
  - apply centerHz_melOf; [lra|].
    rewrite INR_IZR_INZ, Z2Nat.id by lia. unfold a, d. field. lra.
  - unfold Mel.centerFreqs. rewrite !hzToMel_value by lra.
    fold (melOf lo) (melOf hi). fold a.
    apply map_ext. intros i. unfold Num.ofZ, Num.ofNat.
    cbn [Num.sub Num.neg Num.add]. rewrite div_Fin by lra.
    cbn [Num.mul Num.add]. rewrite melToHz_value. reflexivity.
Qed.

End MelScale.

(** X8: the two mel conversions of [createFilters] are inverse to each other
    on finite values: [melToHz(hzToMel(hz)) = hz] for every frequency above
    -700 Hz, and [hzToMel(melToHz(mel)) = mel] for every mel value (exact
    arithmetic).  At -700 Hz and below the logarithm of [hzToMel] is
    -Infinity or NaN. *)
Theorem mel_hz_round_trip (v : R) :
  ((-700 < v)%R -> Mel.melToHz (Mel.hzToMel (Fin v)) = Fin v) /\
  Mel.hzToMel (Mel.melToHz (Fin v)) = Fin v /\
  ((v <= -700)%R -> ~ finite (Mel.hzToMel (Fin v))).
Proof.
  split; [|split].
  - intros Hv. rewrite hzToMel_value by exact Hv. rewrite melToHz_value.
    f_equal.
    replace (2595 * (ln (1 + v / 700) / ln 10) / 2595)%R
      with (ln (1 + v / 700) / ln 10)%R by (pose proof ln10_pos; field; lra).
    rewrite Rpower10_log10 by lra. field.
  - rewrite melToHz_value.
    pose proof (Rpower10_pos (v / 2595)) as Hp.
    rewrite hzToMel_value by lra. f_equal.
    replace (1 + 700 * (Rpower 10 (v / 2595) + -1) / 700)%R
      with (Rpower 10 (v / 2595)) by field.
    rewrite log10_Rpower10. field.
  - intros Hv. unfold Mel.hzToMel, Num.one. rewrite div_Fin by lra.
    cbn [Num.add Num.log10].
    destruct (Rltb (1 + v / 700) 0) eqn:Hlt; [cbn; auto|].
    apply Rltb_false in Hlt.
    replace (Reqb (1 + v / 700) 0) with true
      by (symmetry; apply Reqb_true; lra).
    cbn [Num.mul]. unfold Num.inf_times.
    destruct (Reqb 2595 0), (Rltb 0 2595); cbn; auto.
Qed.

Lemma mel_hz_round_trip_witness :
  Mel.melToHz (Mel.hzToMel (Fin 500)) = Fin 500.
Proof. apply (mel_hz_round_trip 500). lra. Defined.

(** X9: in exact arithmetic, for a band [-700 < fMin < fMax] and
    [melBins >= 0] the [melBins + 2] center frequencies are finite, start at
    [fMin], end at [fMax] and are strictly increasing.  (The code gets the
    band edges back up to rounding, 500.0000000000001 for 500, and on a band
    a few ulps wide its centers coincide.) *)
Theorem centerFreqs_band (melBins : Z) (lo hi : R) :
  (0 <= melBins)%Z -> (-700 < lo)%R -> (lo < hi)%R ->
  exists c : nat -> R,
    Mel.centerFreqs melBins (Fin lo) (Fin hi)
    = map (fun i => Fin (c i)) (seq 0 (Z.to_nat (melBins + 2))) /\
    c 0%nat = lo /\
    c (Z.to_nat (melBins + 1)) = hi /\
    forall i, (c i < c (S i))%R.
Proof.
  intros Hbins Hlo Hlt.
  destruct (centerFreqs_explicit melBins lo hi Hbins Hlo Hlt)
    as [Hd [H0 [Hend Hcf]]].
  eexists. split; [exact Hcf|]. split; [exact H0|]. split; [exact Hend|].
  intros i. now apply centerHz_increasing.
Qed.

Lemma centerFreqs_band_witness :
  exists c : nat -> R,
    Mel.centerFreqs 128 (Fin 500) (Fin 12000)
    = map (fun i => Fin (c i)) (seq 0 (Z.to_nat (128 + 2))) /\
    c 0%nat = 500%R /\
    c (Z.to_nat (128 + 1)) = 12000%R /\
    forall i, (c i < c (S i))%R.
Proof. apply (centerFreqs_band 128 500 12000); [lia | lra | lra]. Defined.

Section MelWeights.

Local Open Scope R_scope.

Lemma Rleb_false (a b : R) : Rleb a b = false <-> b < a.
Proof.
  unfold Rleb; destruct (Rle_dec a b); split; intros; try discriminate;
    try lra; reflexivity.
Qed.

(** The weight a filter holds at one bin is the triangle of its three center
    frequencies at the frequency of the bin. *)
Lemma filterLoop_entries (freqResolution : num) (nFreqBins : Z) (cf : list num)
    (melIdxs : list nat) :
  forall fs,
    Mel.filterLoop freqResolution nFreqBins cf melIdxs = Ok fs ->
    forall j k, (j < length melIdxs)%nat -> (k < Z.to_nat nFreqBins)%nat ->
      get (nth j fs []) k
      = Mel.triangle (get cf (nth j melIdxs 0%nat))
                     (get cf (nth j melIdxs 0%nat + 1))
                     (get cf (nth j melIdxs 0%nat + 2))
                     (ofNat k * freqResolution)%num.
Proof.
  induction melIdxs as [|melIdx rest IH]; intros fs H j k Hj Hk;
    cbn [Mel.filterLoop] in H; [cbn in Hj; lia|].
  unfold newFloat32Array in H.
  destruct (nFreqBins <? 0)%Z; [discriminate|]. cbn [bind] in H.
  destruct (Mel.filterLoop freqResolution nFreqBins cf rest) as [others|e]
    eqn:Hothers; [|discriminate].
  cbn [bind] in H. injection H as <-.
  destruct j as [|j]; cbn [nth].
  - rewrite repeat_length. now rewrite get_map_seq.
  - apply (IH others eq_refl); [cbn in Hj; lia | exact Hk].
Qed.

Lemma new_entries (sampleRate : num) (fftSize melBins : Z) (fMin fMax : num)
    (fb : Mel.MelFilterbank) :
  Mel.new sampleRate fftSize melBins fMin fMax = Ok fb ->
  forall m k, (m < Z.to_nat melBins)%nat -> (k < Z.to_nat (fftSize / 2 + 1))%nat ->
    let cf := Mel.centerFreqs melBins fMin (Mel.fMax fb) in
    get (nth m (Mel.filters fb) []) k
    = Mel.triangle (get cf m) (get cf (m + 1)) (get cf (m + 2))
                   (ofNat k * (sampleRate / ofZ fftSize))%num.
Proof.
  unfold Mel.new, Mel.createFilters. intros H m k Hm Hk.
  destruct (Mel.filterLoop _ _ _ _) as [fs|e] eqn:Hfs; [|discriminate].
  cbn [bind] in H. injection H as <-. cbn [Mel.filters Mel.fMax]. cbn zeta.
  rewrite (filterLoop_entries _ _ _ _ fs Hfs m k)
    by (rewrite ?length_seq; assumption).
  now rewrite seq_nth by exact Hm.
Qed.

Lemma triangle_unit (l c r : R) (freq : num) :
  l < c -> c < r ->
  exists w, Mel.triangle (Fin l) (Fin c) (Fin r) freq = Fin w /\ 0 <= w <= 1.
Proof.
  intros Hlc Hcr. unfold Mel.triangle.
  destruct freq as [f| | |]; cbn [Num.ge Num.le Num.gt Num.lt andb];
    try (exists 0; split; [reflexivity | lra]).
  destruct (Rleb l f) eqn:H1, (Rleb f c) eqn:H2; cbn [andb].
  - apply Rleb_true in H1, H2. cbn [Num.sub Num.neg Num.add].
    rewrite div_Fin by lra. eexists; split; [reflexivity|].
    assert (0 < / (c + - l)) by (apply Rinv_0_lt_compat; lra).
    split; [unfold Rdiv; nra|].
    apply (Rmult_le_reg_r (c + - l)); [lra|].
    unfold Rdiv. rewrite Rmult_assoc, Rinv_l by lra. lra.
  - apply Rleb_true in H1. apply Rleb_false in H2.
    replace (Rltb c f) with true by (symmetry; apply Rltb_true; lra).
    destruct (Rleb f r) eqn:H3; cbn [andb].
    + apply Rleb_true in H3. cbn [Num.sub Num.neg Num.add].
      rewrite div_Fin by lra. eexists; split; [reflexivity|].
      assert (0 < / (r + - c)) by (apply Rinv_0_lt_compat; lra).
      split; [unfold Rdiv; nra|].
      apply (Rmult_le_reg_r (r + - c)); [lra|].
      unfold Rdiv. rewrite Rmult_assoc, Rinv_l by lra. lra.
    + exists 0; split; [reflexivity | lra].
  - apply Rleb_false in H1. apply Rleb_true in H2.
    replace (Rltb c f) with false by (symmetry; apply Rltb_false; lra).
    exists 0; split; [reflexivity | lra].
  - apply Rleb_false in H1, H2. lra.
Qed.

Lemma triangle_outside (l c r f : R) :
  l < c -> c < r -> f < l \/ r < f ->
  Mel.triangle (Fin l) (Fin c) (Fin r) (Fin f) = Fin 0.
Proof.
  intros Hlc Hcr Hout. unfold Mel.triangle.
  cbn [Num.ge Num.le Num.gt Num.lt].
  destruct Hout as [Hout|Hout].
  - replace (Rleb l f) with false by (symmetry; apply Rleb_false; lra).
    replace (Rltb c f) with false by (symmetry; apply Rltb_false; lra).
    reflexivity.
  - replace (Rleb f c) with false by (symmetry; apply Rleb_false; lra).
    replace (Rleb f r) with false by (symmetry; apply Rleb_false; lra).
    now rewrite !andb_false_r.
Qed.

Lemma triangle_overlap (l c r r' f : R) :
  l < c -> c < r -> r < r' -> c <= f <= r ->
  (Mel.triangle (Fin l) (Fin c) (Fin r) (Fin f)
   + Mel.triangle (Fin c) (Fin r) (Fin r') (Fin f))%num = Fin 1.
Proof.
  intros Hlc Hcr Hrr [Hcf Hfr]. unfold Mel.triangle.
  cbn [Num.ge Num.le Num.gt Num.lt].
  replace (Rleb l f) with true by (symmetry; apply Rleb_true; lra).
  replace (Rleb c f) with true by (symmetry; apply Rleb_true; lra).
  replace (Rleb f r) with true by (symmetry; apply Rleb_true; lra).
  cbn [andb Num.sub Num.neg Num.add]. rewrite (div_Fin (f + - c)) by lra.
  destruct (Rleb f c) eqn:H.
  - apply Rleb_true in H. assert (f = c) by lra. subst f.
    cbn [andb]. rewrite div_Fin by lra. cbn [Num.add]. f_equal. field. lra.
  - apply Rleb_false in H.
    replace (Rltb c f) with true by (symmetry; apply Rltb_true; lra).
    cbn [andb]. rewrite div_Fin by lra. cbn [Num.add]. f_equal. field. lra.
Qed.

(** The centers of a filter bank built over a proper band. *)
Lemma new_centers (sampleRate fMax : num) (fftSize melBins : Z) (lo hi : R)
    (fb : Mel.MelFilterbank) :
  Mel.new sampleRate fftSize melBins (Fin lo) fMax = Ok fb ->
  Mel.fMax fb = Fin hi -> -700 < lo -> lo < hi -> (0 <= melBins)%Z ->
  exists c : nat -> R,
    (forall i k, (i <= k)%nat -> c i <= c k) /\
    (forall i, c i < c (S i)) /\
    c 0%nat = lo /\ c (Z.to_nat (melBins + 1)) = hi /\
    forall m k, (m < Z.to_nat melBins)%nat ->
      (k < Z.to_nat (fftSize / 2 + 1))%nat ->
      get (nth m (Mel.filters fb) []) k
      = Mel.triangle (Fin (c m)) (Fin (c (m + 1)%nat)) (Fin (c (m + 2)%nat))
                     (ofNat k * (sampleRate / ofZ fftSize))%num.
Proof.
  intros Hnew Hmax Hlo Hlt Hbins.
  destruct (centerFreqs_explicit melBins lo hi Hbins Hlo Hlt)
    as [Hd [H0 [Hend Hcf]]].
  exists (centerHz (melOf lo) ((melOf hi - melOf lo) / IZR (melBins + 1))).
  split; [intros i k; now apply centerHz_monotone|].
  split; [intros i; now apply centerHz_increasing|].
  split; [exact H0|]. split; [exact Hend|].
  intros m k Hm Hk. rewrite (new_entries _ _ _ _ _ _ Hnew m k Hm Hk).
  cbn zeta. rewrite Hmax, Hcf. now rewrite !get_map_seq by lia.
Qed.

End MelWeights.

Section MelBank.

Local Open Scope R_scope.

Lemma new_fMax (sampleRate : num) (fftSize melBins : Z) (fMin fMax : num)
    (fb : Mel.MelFilterbank) :
  Mel.new sampleRate fftSize melBins fMin fMax = Ok fb ->
  Mel.fMax fb = Num.min fMax (sampleRate / Fin 2)%num.
Proof.
  unfold Mel.new. intros H.
  destruct (Mel.createFilters _ _ _ _ _) as [fs|e]; [|discriminate].
  cbn [bind] in H. now injection H as <-.
Qed.

Lemma default_bank_44100 :
  exists fb,
    Mel.new (Fin 44100) 2048 128 (Fin 500) (Fin 12000) = Ok fb /\
    Mel.fMax fb = Fin 12000.
Proof.
  destruct (new_ok (Fin 44100) 2048 128 (Fin 500) (Fin 12000)) as [fb Hfb];
    [cbv; discriminate|].
  exists fb. split; [exact Hfb|].
  rewrite (new_fMax _ _ _ _ _ _ Hfb). rewrite div_Fin by lra.
  cbn [Num.min Num.lt].
  replace (Rltb (44100 / 2) 12000) with false
    by (symmetry; apply Rltb_false; lra).
  reflexivity.
Qed.

End MelBank.

(** X10: in exact arithmetic, in a filter bank built over a band
    [-700 < fMin < fMax'] (the upper edge after the clamp to the Nyquist
    frequency), every weight of every filter is a finite number between 0
    and 1: the center frequencies increase strictly, and no slope divides by
    zero.  (The code rounds the center frequencies: on a band a few ulps
    wide they coincide, and a bin that lies on them gets the weight 0/0.) *)
Theorem filter_weights_unit_interval (sampleRate fMax : num)
    (fftSize melBins : Z) (lo hi : R) (fb : Mel.MelFilterbank) :
  Mel.new sampleRate fftSize melBins (Fin lo) fMax = Ok fb ->
  Mel.fMax fb = Fin hi -> (-700 < lo)%R -> (lo < hi)%R ->
  forall m k, (m < Z.to_nat melBins)%nat ->
    (k < Z.to_nat (fftSize / 2 + 1))%nat ->
    exists w, get (nth m (Mel.filters fb) []) k = Fin w /\ (0 <= w <= 1)%R.
Proof.
  intros Hnew Hmax Hlo Hlt m k Hm Hk.
  assert (Hbins : (0 <= melBins)%Z) by lia.
  destruct (new_centers _ _ _ _ _ _ _ Hnew Hmax Hlo Hlt Hbins)
    as [c [_ [Hinc [_ [_ Hw]]]]].
  rewrite (Hw m k Hm Hk). apply triangle_unit.
  - replace (m + 1)%nat with (S m) by lia. apply Hinc.
  - replace (m + 2)%nat with (S (m + 1)) by lia. apply Hinc.
Qed.

Lemma filter_weights_unit_interval_witness :
  exists fb,
    Mel.new (Fin 44100) 2048 128 (Fin 500) (Fin 12000) = Ok fb /\
    forall m k, (m < Z.to_nat 128)%nat -> (k < Z.to_nat (2048 / 2 + 1))%nat ->
      exists w, get (nth m (Mel.filters fb) []) k = Fin w /\ (0 <= w <= 1)%R.
Proof.
  destruct default_bank_44100 as [fb [Hfb Hmax]].
  exists fb. split; [exact Hfb|].
  apply (filter_weights_unit_interval (Fin 44100) (Fin 12000) 2048 128
           500 12000 fb Hfb Hmax); lra.
Defined.

(** X11: in exact arithmetic, a frequency bin whose frequency
    [k * sampleRate / fftSize] lies below [fMin] or above the clamped [fMax]
    has weight 0 in every filter: the filter bank ignores the spectrum
    outside its band.  (In the code the first and the last center are the
    band edges up to rounding, and so is the band that is not ignored.) *)
Theorem filter_weights_zero_outside_band (sr : R) (fMax : num)
    (fftSize melBins : Z) (lo hi : R) (fb : Mel.MelFilterbank) :
  Mel.new (Fin sr) fftSize melBins (Fin lo) fMax = Ok fb ->
  Mel.fMax fb = Fin hi -> (-700 < lo)%R -> (lo < hi)%R -> fftSize <> 0%Z ->
  forall m k, (m < Z.to_nat melBins)%nat ->
    (k < Z.to_nat (fftSize / 2 + 1))%nat ->
    (INR k * (sr / IZR fftSize) < lo \/ hi < INR k * (sr / IZR fftSize))%R ->
    get (nth m (Mel.filters fb) []) k = Fin 0.
Proof.
  intros Hnew Hmax Hlo Hlt Hfft m k Hm Hk Hout.
  assert (Hbins : (0 <= melBins)%Z) by lia.
  destruct (new_centers _ _ _ _ _ _ _ Hnew Hmax Hlo Hlt Hbins)
    as [c [Hmono [Hinc [H0 [Hend Hw]]]]].
  rewrite (Hw m k Hm Hk). unfold Num.ofZ, Num.ofNat.
  rewrite div_Fin by (apply not_0_IZR; exact Hfft). cbn [Num.mul].
  assert (Hl : (lo <= c m)%R) by (rewrite <- H0; apply Hmono; lia).
  assert (Hr : (c (m + 2)%nat <= hi)%R) by (rewrite <- Hend; apply Hmono; lia).
  apply triangle_outside.
  - replace (m + 1)%nat with (S m) by lia. apply Hinc.
  - replace (m + 2)%nat with (S (m + 1)) by lia. apply Hinc.
  - destruct Hout; [left | right]; lra.
Qed.

Lemma filter_weights_zero_outside_band_witness :
  exists fb,
    Mel.new (Fin 44100) 2048 128 (Fin 500) (Fin 12000) = Ok fb /\
    get (nth 5 (Mel.filters fb) []) 3 = Fin 0.
Proof.
  destruct default_bank_44100 as [fb [Hfb Hmax]].
  exists fb. split; [exact Hfb|].
  apply (filter_weights_zero_outside_band 44100 (Fin 12000) 2048 128
           500 12000 fb Hfb Hmax);
    [lra | lra | lia | apply Nat.ltb_lt; reflexivity
    | apply Nat.ltb_lt; reflexivity |].
  left. cbn [INR]. lra.
Defined.

(** X12: two neighbouring filters share the slope between their peaks.  In
    exact arithmetic, at a bin whose frequency lies between the center of
    filter [m] and the center of filter [m + 1], the weights of the two
    filters add up to 1: the falling slope of the one and the rising slope of
    the other are complementary.  (The weights the code stores are rounded
    to single precision and add up to 1 within that rounding.) *)
Theorem filter_weights_neighbours_sum (sr : R) (fMax : num)
    (fftSize melBins : Z) (lo hi : R) (fb : Mel.MelFilterbank) :
  Mel.new (Fin sr) fftSize melBins (Fin lo) fMax = Ok fb ->
  Mel.fMax fb = Fin hi -> (-700 < lo)%R -> (lo < hi)%R -> fftSize <> 0%Z ->
  forall m k, (m + 1 < Z.to_nat melBins)%nat ->
    (k < Z.to_nat (fftSize / 2 + 1))%nat ->
    let cf := Mel.centerFreqs melBins (Fin lo) (Fin hi) in
    let freq := (ofNat k * (Fin sr / ofZ fftSize))%num in
    Num.le (get cf (m + 1)) freq = true ->
    Num.le freq (get cf (m + 2)) = true ->
    (get (nth m (Mel.filters fb) []) k
     + get (nth (m + 1) (Mel.filters fb) []) k)%num = Fin 1.
Proof.
  intros Hnew Hmax Hlo Hlt Hfft m k Hm Hk cf freq.
  assert (Hbins : (0 <= melBins)%Z) by lia.
  destruct (centerFreqs_explicit melBins lo hi Hbins Hlo Hlt)
    as [Hd [_ [_ Hcf]]].
  assert (Hm0 : (m < Z.to_nat melBins)%nat) by lia.
  rewrite (new_entries _ _ _ _ _ _ Hnew m k Hm0 Hk).
  rewrite (new_entries _ _ _ _ _ _ Hnew (m + 1)%nat k Hm Hk).
  cbn zeta. rewrite Hmax. fold cf. fold freq.
  unfold cf. rewrite Hcf. rewrite !get_map_seq by lia.
  unfold freq, Num.ofZ, Num.ofNat.
  rewrite div_Fin by (apply not_0_IZR; exact Hfft). cbn [Num.mul Num.le].
  intros H1 H2. apply Rleb_true in H1, H2.
  replace (m + 1 + 1)%nat with (m + 2)%nat by lia.
  replace (m + 1 + 2)%nat with (S (m + 2)) by lia.
  apply triangle_overlap.
  - replace (m + 1)%nat with (S m) by lia. now apply centerHz_increasing.
  - replace (m + 2)%nat with (S (m + 1)) by lia. now apply centerHz_increasing.
  - now apply centerHz_increasing.
  - split; assumption.
Qed.

Section DefaultBankBins.

Local Open Scope R_scope.

Lemma exp_monotone (x y : R) : x <= y -> exp x <= exp y.
Proof.
  intros [H| ->]; [left; now apply exp_increasing | right; reflexivity].
Qed.

Lemma ln_monotone (x y : R) : 0 < x -> x <= y -> ln x <= ln y.
Proof.
  intros Hx [H| ->]; [left; now apply ln_increasing | right; reflexivity].
Qed.

(** The logarithm of the product that locates center [i] of [n + 1]
    mel-spaced centers between the band edges. *)
Lemma ln_weighted (L H : R) (p q : nat) :
  0 < L -> 0 < H -> ln (L ^ p * H ^ q) = INR p * ln L + INR q * ln H.
Proof.
  intros HL HH.
  rewrite ln_mult by (apply pow_lt; assumption).
  now rewrite !ln_pow.
Qed.

Lemma centerHz_log (lo hi N : R) (i : nat) :
  -700 < lo -> -700 < hi -> 0 < N ->
  centerHz (melOf lo) ((melOf hi - melOf lo) / N) i
  = 700 * (exp (ln (1 + lo / 700)
                + (ln (1 + hi / 700) - ln (1 + lo / 700)) * (INR i / N)) + - 1).
Proof.
  intros Hlo Hhi HN. unfold centerHz, melOf, Rpower. pose proof ln10_pos.
  do 3 f_equal. field. lra.
Qed.

Lemma centerHz_below (lo hi f : R) (n i : nat) :
  -700 < lo -> -700 < hi -> -700 < f -> (i <= n)%nat -> (0 < n)%nat ->
  (1 + lo / 700) ^ (n - i) * (1 + hi / 700) ^ i <= (1 + f / 700) ^ n ->
  centerHz (melOf lo) ((melOf hi - melOf lo) / INR n) i <= f.
Proof.
  intros Hlo Hhi Hf Hi Hn Hpow.
  assert (HL : 0 < 1 + lo / 700) by lra.
  assert (HH : 0 < 1 + hi / 700) by lra.
  assert (HX : 0 < 1 + f / 700) by lra.
  assert (HN : 0 < INR n) by now apply lt_0_INR.
  rewrite centerHz_log by assumption.
  apply ln_monotone in Hpow;
    [|apply Rmult_lt_0_compat; apply pow_lt; assumption].
  rewrite ln_weighted, ln_pow, minus_INR in Hpow by assumption.
  assert (Hexp : exp (ln (1 + lo / 700)
                      + (ln (1 + hi / 700) - ln (1 + lo / 700)) * (INR i / INR n))
                 <= 1 + f / 700).
  { replace (1 + f / 700) with (exp (ln (1 + f / 700))) by now apply exp_ln.
    apply exp_monotone.
    apply (Rmult_le_reg_r (INR n)); [exact HN|].
    replace ((ln (1 + lo / 700)
              + (ln (1 + hi / 700) - ln (1 + lo / 700)) * (INR i / INR n)) * INR n)
      with ((INR n - INR i) * ln (1 + lo / 700) + INR i * ln (1 + hi / 700))
      by (field; lra).
    lra. }
  lra.
Qed.

Lemma centerHz_above (lo hi f : R) (n i : nat) :
  -700 < lo -> -700 < hi -> -700 < f -> (i <= n)%nat -> (0 < n)%nat ->
  (1 + f / 700) ^ n <= (1 + lo / 700) ^ (n - i) * (1 + hi / 700) ^ i ->
  f <= centerHz (melOf lo) ((melOf hi - melOf lo) / INR n) i.
Proof.
  intros Hlo Hhi Hf Hi Hn Hpow.
  assert (HL : 0 < 1 + lo / 700) by lra.
  assert (HH : 0 < 1 + hi / 700) by lra.
  assert (HX : 0 < 1 + f / 700) by lra.
  assert (HN : 0 < INR n) by now apply lt_0_INR.
  rewrite centerHz_log by assumption.
  apply ln_monotone in Hpow; [|apply pow_lt; assumption].
  rewrite ln_weighted, ln_pow, minus_INR in Hpow by assumption.
  assert (Hexp : 1 + f / 700
                 <= exp (ln (1 + lo / 700)
                         + (ln (1 + hi / 700) - ln (1 + lo / 700)) * (INR i / INR n))).
  { replace (1 + f / 700) with (exp (ln (1 + f / 700))) by now apply exp_ln.
    apply exp_monotone.
    apply (Rmult_le_reg_r (INR n)); [exact HN|].
    replace ((ln (1 + lo / 700)
              + (ln (1 + hi / 700) - ln (1 + lo / 700)) * (INR i / INR n)) * INR n)
      with ((INR n - INR i) * ln (1 + lo / 700) + INR i * ln (1 + hi / 700))
      by (field; lra).
    lra. }
  lra.
Qed.

(** Powers of fractions of integers, compared through the integers. *)
Lemma fractions_pow_le (a b c d e g : Z) (p q r : nat) :
  (0 < b)%Z -> (0 < d)%Z -> (0 < g)%Z ->
  (a ^ Z.of_nat p * c ^ Z.of_nat q * g ^ Z.of_nat r
   <= e ^ Z.of_nat r * (b ^ Z.of_nat p * d ^ Z.of_nat q))%Z ->
  (IZR a / IZR b) ^ p * (IZR c / IZR d) ^ q <= (IZR e / IZR g) ^ r.
Proof.
  intros Hb Hd Hg H. apply IZR_le in H.
  rewrite !mult_IZR, <- !pow_IZR in H.
  assert (HB : 0 < IZR b ^ p) by (apply pow_lt; now apply IZR_lt).
  assert (HD : 0 < IZR d ^ q) by (apply pow_lt; now apply IZR_lt).
  assert (HG : 0 < IZR g ^ r) by (apply pow_lt; now apply IZR_lt).
  unfold Rdiv. rewrite !Rpow_mult_distr, !pow_inv.
  set (A := IZR a ^ p) in *. set (B := IZR b ^ p) in *.
  set (C := IZR c ^ q) in *. set (D := IZR d ^ q) in *.
  set (E := IZR e ^ r) in *. set (G := IZR g ^ r) in *.
  apply (Rmult_le_reg_r (B * D * G));
    [repeat apply Rmult_lt_0_compat; assumption|].
  replace (A * / B * (C * / D) * (B * D * G)) with (A * C * G) by (field; lra).
  replace (E * / G * (B * D * G)) with (E * (B * D)) by (field; lra).
  exact H.
Qed.

Lemma fractions_pow_ge (a b c d e g : Z) (p q r : nat) :
  (0 < b)%Z -> (0 < d)%Z -> (0 < g)%Z ->
  (e ^ Z.of_nat r * (b ^ Z.of_nat p * d ^ Z.of_nat q)
   <= a ^ Z.of_nat p * c ^ Z.of_nat q * g ^ Z.of_nat r)%Z ->
  (IZR e / IZR g) ^ r <= (IZR a / IZR b) ^ p * (IZR c / IZR d) ^ q.
Proof.
  intros Hb Hd Hg H. apply IZR_le in H.
  rewrite !mult_IZR, <- !pow_IZR in H.
  assert (HB : 0 < IZR b ^ p) by (apply pow_lt; now apply IZR_lt).
  assert (HD : 0 < IZR d ^ q) by (apply pow_lt; now apply IZR_lt).
  assert (HG : 0 < IZR g ^ r) by (apply pow_lt; now apply IZR_lt).
  unfold Rdiv. rewrite !Rpow_mult_distr, !pow_inv.
  set (A := IZR a ^ p) in *. set (B := IZR b ^ p) in *.
  set (C := IZR c ^ q) in *. set (D := IZR d ^ q) in *.
  set (E := IZR e ^ r) in *. set (G := IZR g ^ r) in *.
  apply (Rmult_le_reg_r (B * D * G));
    [repeat apply Rmult_lt_0_compat; assumption|].
  replace (A * / B * (C * / D) * (B * D * G)) with (A * C * G) by (field; lra).
  replace (E * / G * (B * D * G)) with (E * (B * D)) by (field; lra).
  exact H.
Qed.

Lemma band_edges :
  1 + 500 / 700 = IZR 12 / IZR 7 /\ 1 + 12000 / 700 = IZR 127 / IZR 7 /\
  1 + 540 * (44100 / 2048) / 700 = IZR 9017 / IZR 512.
Proof. repeat split; field. Qed.

Lemma bin540_above_center127 :
  (1 + 500 / 700) ^ (129 - 127) * (1 + 12000 / 700) ^ 127
  <= (1 + 540 * (44100 / 2048) / 700) ^ 129.
Proof.
  destruct band_edges as [-> [-> ->]].
  apply fractions_pow_le; [reflexivity | reflexivity | reflexivity |].
  apply Z.leb_le. vm_compute. reflexivity.
Qed.

Lemma bin540_below_center128 :
  (1 + 540 * (44100 / 2048) / 700) ^ 129
  <= (1 + 500 / 700) ^ (129 - 128) * (1 + 12000 / 700) ^ 128.
Proof.
  destruct band_edges as [-> [-> ->]].
  apply fractions_pow_ge; [reflexivity | reflexivity | reflexivity |].
  apply Z.leb_le. vm_compute. reflexivity.
Qed.

(** Bin 540 of the default bank at 44100 Hz (11627.9 Hz) lies between the
    centers of the last two filters. *)
Lemma default_bank_bin540 :
  let cf := Mel.centerFreqs 128 (Fin 500) (Fin 12000) in
  let freq := (ofNat 540 * (Fin 44100 / ofZ 2048))%num in
  Num.le (get cf 127) freq = true /\ Num.le freq (get cf 128) = true.
Proof.
  intros cf freq.
  destruct (centerFreqs_explicit 128 500 12000) as [_ [_ [_ Hcf]]];
    [lia | lra | lra |].
  unfold cf, freq. rewrite Hcf. change (Z.to_nat (128 + 2)) with 130%nat.
  rewrite !get_map_seq by lia.
  unfold Num.ofZ, Num.ofNat. rewrite div_Fin by lra. cbn [Num.mul Num.le].
  replace (INR 540) with 540 by (rewrite INR_IZR_INZ; reflexivity).
  replace (IZR (128 + 1)) with (INR 129) by (rewrite INR_IZR_INZ; reflexivity).
  split; apply Rleb_true.
  - apply centerHz_below; [lra | lra | lra | lia | lia |].
    exact bin540_above_center127.
  - apply centerHz_above; [lra | lra | lra | lia | lia |].
    exact bin540_below_center128.
Qed.

End DefaultBankBins.

Lemma filter_weights_neighbours_sum_witness :
  exists fb,
    Mel.new (Fin 44100) 2048 128 (Fin 500) (Fin 12000) = Ok fb /\
    (get (nth 126 (Mel.filters fb) []) 540
     + get (nth (126 + 1) (Mel.filters fb) []) 540)%num = Fin 1.
Proof.
  destruct default_bank_44100 as [fb [Hfb Hmax]].
  destruct default_bank_bin540 as [Hlow Hhigh].
  exists fb. split; [exact Hfb|].
  apply (filter_weights_neighbours_sum 44100 (Fin 12000) 2048 128 500 12000
           fb Hfb Hmax);
    [lra | lra | lia | apply Nat.ltb_lt; reflexivity
    | apply Nat.ltb_lt; reflexivity | exact Hlow | exact Hhigh].
Defined.

(** ** spectrogram.ts: silence *)

Section Silence.

Local Open Scope R_scope.

Lemma silent_map (l : list num) :
  Forall (fun v => v = Fin 0) l -> l = map Fin (repeat 0 (length l)).
Proof.
  induction 1 as [|v l Hv Hl IH]; [reflexivity|].
  cbn [length repeat map]. now rewrite Hv, <- IH.
Qed.

Lemma nth_all_zero (l : list R) :
  Forall (fun v => v = 0) l -> forall n, nth n l 0 = 0.
Proof.
  induction 1 as [|v l Hv Hl IH]; intros [|n]; cbn [nth]; auto.
Qed.

Lemma dft_zero (x : list R) (j : nat) :
  Forall (fun v => v = 0) x -> DFT.re x j = 0 /\ DFT.im x j = 0.
Proof.
  intros Hx. pose proof (nth_all_zero x Hx) as Hnth.
  unfold DFT.re, DFT.im. split.
  - apply dsum_zero. intros n _. rewrite Hnth. ring.
  - rewrite dsum_zero; [ring|]. intros n _. rewrite Hnth. ring.
Qed.

Lemma pointwise_mul_silent (xs : list num) :
  forall ys, Forall (fun v => v = Fin 0) xs -> Forall finite ys ->
             Forall (fun v => v = Fin 0) (pointwise_mul xs ys).
Proof.
  induction xs as [|x xs IH]; intros [|y ys] Hx Hy; cbn [pointwise_mul];
    try constructor; inversion Hx; inversion Hy; subst.
  - destruct (finite_Fin y) as [w ->]; [assumption|].
    cbn [Num.mul]. f_equal. ring.
  - now apply IH.
Qed.

Lemma preEmphasis_silent (n : nat) :
  Forall (fun v => v = Fin 0) (Spectrogram.preEmphasis (repeat zero n)).
Proof.
  unfold Spectrogram.preEmphasis. rewrite repeat_length.
  apply Forall_map, Forall_forall. intros i Hi. apply in_seq in Hi.
  unfold get. destruct (i =? 0)%nat.
  - now rewrite nth_repeat_lt by lia.
  - rewrite !nth_repeat_lt by lia. unfold Num.zero, DSP_CONFIG.preEmphasisCoeff.
    cbn [Num.mul Num.sub Num.neg Num.add]. f_equal. ring.
Qed.

Lemma log2_up_nextPow2 (n : Z) :
  (1 <= n)%Z -> Z.log2_up (nextPow2 n) = Z.log2_up n.
Proof.
  intros H. rewrite nextPow2_pos by exact H.
  apply Z.log2_up_pow2, Z.log2_up_nonneg.
Qed.

Lemma frameBody_silent (stack : nat) (preEmphasized window : list num)
    (windowSize start : Z) (frame : list num) :
  (1 <= windowSize)%Z ->
  (Z.to_nat (Z.log2_up windowSize) < stack)%nat ->
  Forall (fun v => v = Fin 0) preEmphasized -> Forall finite window ->
  Spectrogram.frameBody stack preEmphasized window windowSize
    (nextPow2 windowSize) start = Ok frame ->
  Forall (fun v => v = Fin 0) frame.
Proof.
  intros Hw Hstack Hpre Hwin H. unfold Spectrogram.frameBody in H.
  unfold applyWindow in H. destruct (negb _); [discriminate|]. cbn [bind] in H.
  unfold newFloat32Array in H.
  destruct (nextPow2 windowSize <? 0)%Z; [discriminate|]. cbn [bind] in H.
  unfold Spectrogram.set in H. destruct (_ <? _)%nat; [discriminate|].
  cbn [bind] in H.
  destruct (computeFFT _ _ _) as [r|] eqn:Hr; [|discriminate].
  cbn [bind] in H. injection H as <-.
  unfold Spectrogram.slice. apply Forall_firstn, Forall_skipn.
  match type of Hr with computeFFT _ ?padded _ = _ =>
    assert (Hpad : Forall (fun v => v = Fin 0) padded)
  end.
  { apply Forall_app. split.
    - apply pointwise_mul_silent; [|exact Hwin].
      unfold Spectrogram.slice. now apply Forall_firstn, Forall_skipn.
    - apply Forall_skipn, Forall_repeat. reflexivity. }
  rewrite (silent_map _ Hpad) in Hr.
  pose proof (nextPow2_ge1 windowSize Hw) as Hge.
  rewrite computeFFT_dft in Hr
    by (rewrite ?log2_up_nextPow2 by exact Hw; assumption).
  injection Hr as <-.
  set (P := Z.to_nat (nextPow2 (nextPow2 windowSize))).
  set (x := DFT.pad P _).
  assert (Hx : Forall (fun v => v = 0) x).
  { unfold x, DFT.pad. apply Forall_app.
    split; [apply Forall_firstn|]; apply Forall_repeat; reflexivity. }
  apply Forall_forall. intros v Hv.
  destruct (In_nth _ v NaN Hv) as [j [Hj <-]].
  rewrite magnitudeSpectrum_length in Hj. cbn [real] in Hj.
  rewrite length_map_seq in Hj.
  change (get (magnitudeSpectrum
                 (mkFFT (map (fun j => Fin (DFT.re x j)) (seq 0 P))
                        (map (fun j => Fin (DFT.im x j)) (seq 0 P)))) j = Fin 0).
  rewrite (magnitude_value (DFT.re x) (DFT.im x) P j Hj).
  destruct (dft_zero x j Hx) as [-> ->].
  replace (0 * 0 + 0 * 0) with 0 by ring. now rewrite sqrt_0.
Qed.

Lemma spectrogram_of_silence (stack n : nat) (sampleRate : num)
    (windowSize hopSize maxFrames : Z) :
  (2 <= windowSize)%Z -> (1 <= hopSize)%Z ->
  (Z.to_nat (Z.log2_up windowSize) < stack)%nat ->
  exists r,
    Spectrogram.computeSpectrogram stack (repeat zero n) sampleRate
      windowSize hopSize maxFrames = Ok r /\
    Forall (Forall (fun v => v = Fin 0)) (Spectrogram.data r).
Proof.
  intros Hw Hh Hstack.
  destruct (computeSpectrogram_count stack (repeat zero n) sampleRate windowSize
              hopSize maxFrames ltac:(lia) Hh Hstack) as [r [Hr _]].
  exists r. split; [exact Hr|].
  unfold Spectrogram.computeSpectrogram in Hr.
  destruct (hannWindow windowSize) as [window|] eqn:Hwindow; [|discriminate].
  cbn [bind] in Hr.
  destruct (Spectrogram.frameLoop _ _ _ _ _ _ _ _ _) as [spectrogram|] eqn:Hloop;
    [|discriminate].
  cbn [bind] in Hr. injection Hr as <-. cbn [Spectrogram.data].
  destruct (frameLoop_frames _ _ _ _ _ _ _ _ _ _ Hloop)
    as [frames [-> [_ Hframes]]].
  cbn [app]. apply Forall_forall. intros frame Hin.
  destruct (In_nth _ frame [] Hin) as [t [Ht <-]].
  apply (frameBody_silent stack (Spectrogram.preEmphasis (repeat zero n)) window
           windowSize ((0 + Z.of_nat t) * hopSize));
    [lia | exact Hstack | apply preEmphasis_silent
    | exact (hannWindow_finite windowSize window Hw Hwindow)
    | exact (Hframes t Ht)].
Qed.

End Silence.

(** X13: silence gives an all-zero spectrogram.  For a buffer of [n] zeros,
    a window of at least 2 samples, a hop of at least 1 and enough call
    stack, [computeSpectrogram] returns and every magnitude of every frame is
    exactly 0. *)
Theorem computeSpectrogram_silence (stack n : nat) (sampleRate : num)
    (windowSize hopSize maxFrames : Z) :
  (2 <= windowSize)%Z -> (1 <= hopSize)%Z ->
  (Z.to_nat (Z.log2_up windowSize) < stack)%nat ->
  exists r,
    Spectrogram.computeSpectrogram stack (repeat zero n) sampleRate
      windowSize hopSize maxFrames = Ok r /\
    Forall (Forall (fun v => v = Fin 0)) (Spectrogram.data r).
Proof.
  exact (spectrogram_of_silence stack n sampleRate windowSize hopSize maxFrames).
Qed.

Lemma computeSpectrogram_silence_witness :
  exists r,
    Spectrogram.computeSpectrogram 12 (repeat zero 4096) (Fin 44100)
      2048 512 2000 = Ok r /\
    Forall (Forall (fun v => v = Fin 0)) (Spectrogram.data r).
Proof.
  apply (computeSpectrogram_silence 12 4096 (Fin 44100) 2048 512 2000);
    [lia | lia | apply Nat.ltb_lt; reflexivity].
Defined.

(** ** pca.ts: identical frames *)

Section IdenticalFrames.

Local Open Scope R_scope.

Lemma const_sum (g : nat -> num) (a : R) (l : list nat) :
  (forall t, In t l -> g t = Fin a) ->
  forall b, fold_left (fun m t => (m + g t)%num) l (Fin b)
            = Fin (b + INR (length l) * a).
Proof.
  induction l as [|t l IH]; intros Hl b.
  - cbn. f_equal. ring.
  - cbn [fold_left]. rewrite (Hl t) by now left. cbn [Num.add].
    rewrite IH by (intros u Hu; apply Hl; now right).
    f_equal. cbn [length]. rewrite S_INR. ring.
Qed.

Lemma Rsum_repeat (f : R -> R) (x : R) (n : nat) :
  Rsum f (repeat x n) = INR n * f x.
Proof.
  induction n as [|n IH]; [cbn; ring|].
  cbn [repeat Rsum]. rewrite IH, S_INR. ring.
Qed.

Lemma map_const_repeat {A B : Type} (f : A -> B) (c : B) (l : list A) :
  (forall i, In i l -> f i = c) -> map f l = repeat c (length l).
Proof.
  induction l as [|i l IH]; intros H; [reflexivity|].
  cbn [map length repeat]. rewrite (H i) by now left.
  f_equal. apply IH. intros j Hj. apply H. now right.
Qed.

Lemma origin_points_not_normalized (T pc : nat) :
  (1 <= T)%nat -> (pc < 3)%nat ->
  PCA.normalizeAxis (repeat [zero; zero; zero] T) pc
  = repeat [zero; zero; zero] T.
Proof.
  intros T_positive Hpc. unfold PCA.normalizeAxis.
  assert (Hcol : column pc (repeat [zero; zero; zero] T) = map Fin (repeat 0 T)).
  { unfold column. rewrite !map_repeat. f_equal.
    destruct pc as [|[|[|pc]]]; try reflexivity; lia. }
  rewrite (axisStd_value pc _ _ Hcol)
    by (rewrite repeat_length; exact T_positive).
  rewrite repeat_length, !Rsum_repeat.
  assert (0 < INR T) by (apply INR_pos_lt, T_positive).
  replace (INR T * ((0 - INR T * 0 / INR T) * (0 - INR T * 0 / INR T)) / INR T)
    with 0 by (field; lra).
  rewrite sqrt_0. unfold PCA.std_threshold. cbn [Num.gt Num.lt].
  replace (Rltb (1 / 1000000) 0) with false; [reflexivity|].
  symmetry. apply Rltb_false. lra.
Qed.

Lemma projectedRaw_nonempty (frames : list (list num)) :
  (1 <= length frames)%nat ->
  PCA.projectedRaw frames
  = let featureCount := length (nth 0 frames []) in
    let timeSteps := length frames in
    let matrix := concat frames in
    let means := PCA.featureMeans matrix featureCount timeSteps in
    let centered := PCA.center matrix means featureCount timeSteps in
    let covariance := PCA.covarianceMatrix centered featureCount timeSteps in
    PCA.project centered featureCount timeSteps
      (PCA.computeTopEigenvectors covariance featureCount 3).
Proof. destruct frames; [cbn; lia | reflexivity]. Qed.

Variable row : list num.
Variable T : nat.
Hypothesis row_finite : Forall finite row.
Hypothesis T_positive : (1 <= T)%nat.

Let frames := repeat row T.
Let featureCount := length row.
Let timeSteps := length frames.
Let matrix := concat frames.
Let means := PCA.featureMeans matrix featureCount timeSteps.
Let centered := PCA.center matrix means featureCount timeSteps.
Let cov := PCA.covarianceMatrix centered featureCount timeSteps.

Lemma identical_farray : Forall (farray featureCount) frames.
Proof. apply Forall_repeat. split; [reflexivity | exact row_finite]. Qed.

Lemma identical_timeSteps : timeSteps = T.
Proof. apply repeat_length. Qed.

Lemma identical_matrix_at (t f : nat) :
  (t < T)%nat -> (f < featureCount)%nat ->
  PCA.at_ matrix featureCount t f = get row f.
Proof.
  intros Ht Hf. unfold matrix.
  assert (Hrect : Forall (fun frame => length frame = featureCount) frames)
    by (apply Forall_repeat; reflexivity).
  assert (Ht' : (t < length frames)%nat)
    by (fold timeSteps; rewrite identical_timeSteps; exact Ht).
  rewrite (at_concat featureCount frames Hrect t f Ht' Hf).
  unfold frames. now rewrite nth_repeat_lt by exact Ht.
Qed.

(** Every frame minus the mean frame: zero everywhere. *)
Lemma identical_centered_at (t f : nat) :
  (t < T)%nat -> (f < featureCount)%nat ->
  PCA.at_ centered featureCount t f = zero.
Proof.
  intros Ht Hf. unfold centered, means, matrix, timeSteps.
  assert (Ht' : (t < length frames)%nat)
    by (fold timeSteps; rewrite identical_timeSteps; exact Ht).
  rewrite (centered_at frames featureCount t f Ht' Hf).
  fold matrix timeSteps. rewrite identical_matrix_at by assumption.
  unfold PCA.featureMeans. rewrite get_map_seq by exact Hf.
  destruct (finite_Fin (get row f)) as [a Ha].
  { apply finite_get_in_range; [exact row_finite | exact Hf]. }
  unfold Num.zero.
  rewrite (const_sum (fun t => PCA.at_ matrix featureCount t f) a).
  - rewrite length_seq, identical_timeSteps, Ha. unfold Num.ofNat.
    assert (0 < INR T) by (apply INR_pos_lt, T_positive).
    rewrite div_Fin by lra. cbn [Num.sub Num.neg Num.add]. f_equal. field. lra.
  - intros u Hu. apply in_seq in Hu. rewrite identical_timeSteps in Hu.
    rewrite identical_matrix_at by (lia || exact Hf). exact Ha.
Qed.

Lemma identical_projectedRaw :
  PCA.projectedRaw frames = repeat [zero; zero; zero] T.
Proof.
  rewrite projectedRaw_nonempty
    by (fold timeSteps; rewrite identical_timeSteps; exact T_positive).
  replace (nth 0 frames []) with row
    by (unfold frames; now rewrite nth_repeat_lt by exact T_positive).
  fold featureCount timeSteps matrix means centered cov.
  destruct (computeTopEigenvectors_farray cov featureCount
              (covariance_finite_at frames featureCount identical_farray
                 ltac:(fold timeSteps; rewrite identical_timeSteps;
                       exact T_positive)) 3) as [Hcomps Hk].
  unfold PCA.project.
  transitivity (repeat [zero; zero; zero] (length (seq 0 timeSteps)));
    [|now rewrite length_seq, identical_timeSteps].
  apply map_const_repeat.
  intros t Ht. apply in_seq in Ht. rewrite identical_timeSteps in Ht.
  change [zero; zero; zero] with (map (fun _ : nat => zero) (seq 0 3)).
  apply map_ext_in. intros pc Hpc. apply in_seq in Hpc.
  apply zero_sum_seq. intros f Hf.
  rewrite identical_centered_at by (lia || exact Hf).
  rewrite Forall_forall in Hcomps.
  assert (Hlt : (pc < length (PCA.computeTopEigenvectors cov featureCount 3))%nat)
    by (rewrite Hk; lia).
  match goal with
  | |- context [get (nth pc ?comps []) f] =>
      destruct (finite_Fin (get (nth pc comps []) f)) as [c ->]
  end.
  { eapply farray_get; [apply Hcomps; apply nth_In; exact Hlt | exact Hf]. }
  unfold Num.zero. cbn. f_equal. lra.
Qed.

End IdenticalFrames.

Lemma identical_frames_origin (row : list num) (T : nat) :
  Forall finite row -> (1 <= T)%nat ->
  PCA.computePCA3D (repeat row T) = repeat [zero; zero; zero] T.
Proof.
  intros Hrow HT. unfold PCA.computePCA3D.
  destruct T as [|T']; [lia|]. cbn [repeat]. change (row :: repeat row T')
    with (repeat row (S T')).
  rewrite (identical_projectedRaw row (S T') Hrow HT).
  cbn [seq fold_left].
  now rewrite !(origin_points_not_normalized (S T') _ HT) by lia.
Qed.

(** X14: a sound that does not change maps to a single point.  In exact
    arithmetic, for [T >= 1] copies of one frame of finite features,
    [computePCA3D] returns [T] points that are all [(0, 0, 0)]: the centered
    data is zero, every projection is zero, and no axis is normalized (its
    deviation 0 is not above the threshold).  (The means of the code are
    sums in single precision: the centered data is then the residue of
    their rounding, the same for every frame, and the points are its
    projection, one point for all the frames but not always the origin.) *)
Theorem computePCA3D_identical_frames (row : list num) (T : nat) :
  Forall finite row -> (1 <= T)%nat ->
  PCA.computePCA3D (repeat row T) = repeat [zero; zero; zero] T.
Proof. exact (identical_frames_origin row T). Qed.

Lemma computePCA3D_identical_frames_witness :
  PCA.computePCA3D (repeat [Fin 1; Fin 2; Fin 3; Fin 4] 5)
  = repeat [zero; zero; zero] 5.
Proof.
  apply (computePCA3D_identical_frames [Fin 1; Fin 2; Fin 3; Fin 4] 5);
    [repeat constructor | lia].
Defined.

(** X15: no guard is missing in [computePCA3D].  In exact arithmetic, for a
    matrix whose frames all have [featureCount] finite values, every point
    has three finite coordinates: the divisors [T] and [max(1, T - 1)] are
    not zero, and a norm or a deviation is divided by only above 1e-6.  (In
    the code a covariance beyond the range of single precision is stored as
    an infinity, and features of the size of 2^64 give NaN points.) *)
Theorem computePCA3D_finite_points (frames : list (list num)) (featureCount : nat) :
  Forall (farray featureCount) frames ->
  length (PCA.computePCA3D frames) = length frames /\
  Forall (farray 3) (PCA.computePCA3D frames).
Proof.
  intros Hframes. split.
  - apply computePCA3D_shape.
  - exact (computePCA3D_finite frames featureCount Hframes).
Qed.

Lemma computePCA3D_finite_points_witness :
  length (PCA.computePCA3D [[Fin 1; Fin 2]; [Fin 3; Fin 5]; [Fin 0; Fin 1]])
  = length [[Fin 1; Fin 2]; [Fin 3; Fin 5]; [Fin 0; Fin 1]] /\
  Forall (farray 3)
         (PCA.computePCA3D [[Fin 1; Fin 2]; [Fin 3; Fin 5]; [Fin 0; Fin 1]]).
Proof.
  apply (computePCA3D_finite_points
           [[Fin 1; Fin 2]; [Fin 3; Fin 5]; [Fin 0; Fin 1]] 2).
  repeat constructor.
Defined.

(** ** pca.ts: a constant offset *)

Section Offset.

Local Open Scope R_scope.

Lemma fold_seq_sum (g : nat -> num) (gr : nat -> R) (n : nat) :
  (forall t, (t < n)%nat -> g t = Fin (gr t)) ->
  fold_left (fun m t => (m + g t)%num) (seq 0 n) zero = Fin (DFT.sum gr n).
Proof.
  induction n as [|n IH]; intros H; [reflexivity|].
  rewrite seq_S, fold_left_app. cbn [fold_left Nat.add DFT.sum].
  rewrite IH by (intros t Ht; apply H; lia).
  rewrite (H n) by lia. reflexivity.
Qed.

Lemma dsum_offset (g : nat -> R) (c : R) (n : nat) :
  DFT.sum (fun t => g t + c) n = DFT.sum g n + INR n * c.
Proof.
  induction n as [|n IH]; [cbn; ring|].
  cbn [DFT.sum]. rewrite IH, S_INR. ring.
Qed.

Variable frames frames' : list (list num).
Variable featureCount : nat.
Variable offset : nat -> R.

Hypothesis frames_finite : Forall (farray featureCount) frames.
Hypothesis frames'_length : length frames' = length frames.
Hypothesis frames'_rows :
  Forall (fun frame => length frame = featureCount) frames'.
Hypothesis frames'_values :
  forall t f, (t < length frames)%nat -> (f < featureCount)%nat ->
    get (nth t frames' []) f = (get (nth t frames []) f + Fin (offset f))%num.
Hypothesis frames_nonempty : (1 <= length frames)%nat.

Let timeSteps := length frames.

(** The features as reals. *)
Let x (t f : nat) : R :=
  match get (nth t frames []) f with Fin a => a | _ => 0 end.

Lemma offset_matrix (t f : nat) :
  (t < timeSteps)%nat -> (f < featureCount)%nat ->
  PCA.at_ (concat frames) featureCount t f = Fin (x t f) /\
  PCA.at_ (concat frames') featureCount t f = Fin (x t f + offset f).
Proof.
  intros Ht Hf.
  assert (Hrect : Forall (fun frame => length frame = featureCount) frames)
    by (eapply Forall_impl; [|exact frames_finite]; now intros fr [Hlen _]).
  assert (Hx : get (nth t frames []) f = Fin (x t f)).
  { unfold x. destruct (finite_Fin (get (nth t frames []) f)) as [a ->];
      [|reflexivity].
    rewrite Forall_forall in frames_finite.
    eapply farray_get; [apply frames_finite, nth_In; exact Ht | exact Hf]. }
  rewrite (at_concat featureCount frames Hrect t f Ht Hf).
  rewrite (at_concat featureCount frames' frames'_rows t f)
    by (rewrite ?frames'_length; assumption).
  rewrite (frames'_values t f Ht Hf), Hx. split; reflexivity.
Qed.

Lemma offset_centered :
  PCA.center (concat frames')
    (PCA.featureMeans (concat frames') featureCount timeSteps)
    featureCount timeSteps
  = PCA.center (concat frames)
      (PCA.featureMeans (concat frames) featureCount timeSteps)
      featureCount timeSteps.
Proof.
  unfold PCA.center. rewrite !flat_map_concat_map. f_equal.
  apply map_ext_in. intros t Ht. apply in_seq in Ht.
  apply map_ext_in. intros f Hf. apply in_seq in Hf.
  destruct (offset_matrix t f ltac:(lia) ltac:(lia)) as [-> ->].
  unfold PCA.featureMeans. rewrite !get_map_seq by lia.
  rewrite (fold_seq_sum (fun t => PCA.at_ (concat frames') featureCount t f)
             (fun t => x t f + offset f))
    by (intros u Hu; now destruct (offset_matrix u f Hu ltac:(lia))).
  rewrite (fold_seq_sum (fun t => PCA.at_ (concat frames) featureCount t f)
             (fun t => x t f))
    by (intros u Hu; now destruct (offset_matrix u f Hu ltac:(lia))).
  assert (0 < INR timeSteps) by (apply INR_pos_lt, frames_nonempty).
  unfold Num.ofNat. rewrite !div_Fin by lra.
  cbn [Num.sub Num.neg Num.add]. f_equal.
  rewrite dsum_offset. field. lra.
Qed.

Lemma offset_projectedRaw : PCA.projectedRaw frames' = PCA.projectedRaw frames.
Proof.
  rewrite !projectedRaw_nonempty by (rewrite ?frames'_length; assumption).
  assert (H0 : length (nth 0 frames []) = featureCount).
  { rewrite Forall_forall in frames_finite.
    apply frames_finite, nth_In, frames_nonempty. }
  assert (H0' : length (nth 0 frames' []) = featureCount).
  { rewrite Forall_forall in frames'_rows.
    apply frames'_rows, nth_In. rewrite frames'_length. exact frames_nonempty. }
  cbn zeta. rewrite H0, H0', frames'_length. fold timeSteps.
  now rewrite offset_centered.
Qed.

End Offset.

(** X16: the manifold does not depend on a constant offset of the features.
    If every frame of a second matrix is the corresponding frame of a first one
    (rectangular, finite) plus one and the same vector of finite offsets,
    [computePCA3D] returns for both exactly the same points (exact
    arithmetic): the data is centered before anything else reads it. *)
Theorem computePCA3D_offset_invariant (frames frames' : list (list num))
    (featureCount : nat) (offset : nat -> R) :
  Forall (farray featureCount) frames ->
  length frames' = length frames ->
  Forall (fun frame => length frame = featureCount) frames' ->
  (forall t f, (t < length frames)%nat -> (f < featureCount)%nat ->
     get (nth t frames' []) f = (get (nth t frames []) f + Fin (offset f))%num) ->
  PCA.computePCA3D frames' = PCA.computePCA3D frames.
Proof.
  intros Hfin Hlen Hrows Hvals. unfold PCA.computePCA3D.
  destruct frames as [|frame0 rest] eqn:Hf.
  - destruct frames'; [reflexivity | discriminate].
  - destruct frames' as [|frame0' rest'] eqn:Hf'; [discriminate|].
    rewrite <- Hf, <- Hf' in *.
    rewrite (offset_projectedRaw frames frames' featureCount offset); auto.
    rewrite Hf. cbn. lia.
Qed.

Lemma computePCA3D_offset_invariant_witness :
  PCA.computePCA3D [[Fin 11; Fin 22]; [Fin 13; Fin 25]; [Fin 10; Fin 21]]
  = PCA.computePCA3D [[Fin 1; Fin 2]; [Fin 3; Fin 5]; [Fin 0; Fin 1]].
Proof.
  apply (computePCA3D_offset_invariant
           [[Fin 1; Fin 2]; [Fin 3; Fin 5]; [Fin 0; Fin 1]]
           [[Fin 11; Fin 22]; [Fin 13; Fin 25]; [Fin 10; Fin 21]]
           2 (fun f => match f with O => 10 | _ => 20 end)%R).
  - repeat constructor.
  - reflexivity.
  - repeat constructor.
  - intros [|[|[|t]]] [|[|f]] Ht Hf; cbn in Ht, Hf; try lia;
      cbn; f_equal; lra.
Defined.

(** ** mfcc.ts: a frame of the wrong size *)

Section MFCCErrors.

Lemma mfccLoop_bad_frame (fb : Mel.MelFilterbank) (mfccCount : Z)
    (bad : list num) (rest : list (list num)) :
  (0 <= Mel.melBins fb)%Z ->
  length (Mel.filters fb) = Z.to_nat (Mel.melBins fb) ->
  (0 <= mfccCount)%Z ->
  Z.of_nat (length bad) <> (Mel.fftSize fb / 2 + 1)%Z ->
  forall (good mfccFrames : list (list num)),
    Forall (fun frame =>
              Z.of_nat (length frame) = (Mel.fftSize fb / 2 + 1)%Z) good ->
    MFCC.mfccLoop (good ++ bad :: rest) fb mfccCount mfccFrames
    = (Throw (Error_SpectrumSize (Mel.fftSize fb / 2 + 1)
                                 (Z.of_nat (length bad))), fb).
Proof.
  intros Hbins Hlen Hcount Hbad.
  induction good as [|frame good IH]; intros mfccFrames Hall.
  - cbn [app MFCC.mfccLoop]. unfold Mel.apply.
    destruct (Z.eqb_spec (Z.of_nat (length bad)) (Mel.fftSize fb / 2 + 1));
      [contradiction | reflexivity].
  - inversion Hall as [|? ? Hframe Hrest]; subst.
    cbn [app MFCC.mfccLoop]. rewrite apply_matching by assumption.
    rewrite dct2_spec by exact Hcount. now apply IH.
Qed.

End MFCCErrors.

(** X17: [computeMFCC] stops at the first frame of the wrong size.  If the
    frames before it have [floor(fftSize / 2) + 1] bins and it has not, the
    call throws the size error of [apply] naming the expected number of bins
    and the length of that frame; the cepstral frames computed so far are
    lost, and the frames after it are never read. *)
Theorem computeMFCC_first_bad_frame
    (sampleRate : num) (fftSize melBins : Z) (fMin fMax : num)
    (fb : Mel.MelFilterbank) (spectrogram : Spectrogram.SpectrogramResult)
    (mfccCount : Z) (good rest : list (list num)) (bad : list num) :
  (0 <= melBins)%Z -> (0 <= mfccCount)%Z ->
  Mel.new sampleRate fftSize melBins fMin fMax = Ok fb ->
  Spectrogram.data spectrogram = good ++ bad :: rest ->
  Forall (fun frame => Z.of_nat (length frame) = (fftSize / 2 + 1)%Z) good ->
  Z.of_nat (length bad) <> (fftSize / 2 + 1)%Z ->
  MFCC.computeMFCC spectrogram fb mfccCount
  = (Throw (Error_SpectrumSize (fftSize / 2 + 1) (Z.of_nat (length bad))), fb).
Proof.
  intros Hbins Hcount Hnew Hdata Hgood Hbad.
  destruct (new_filters _ _ _ _ _ _ Hnew) as [Hfft [Hmel [Hlen _]]].
  unfold MFCC.computeMFCC. rewrite Hdata, <- Hfft.
  apply mfccLoop_bad_frame; rewrite ?Hfft, ?Hmel; assumption.
Qed.

Lemma computeMFCC_first_bad_frame_witness :
  exists fb,
    Mel.new (Fin 8000) 4 2 (Fin 500) (Fin 12000) = Ok fb /\
    MFCC.computeMFCC
      (Spectrogram.mkSpectrogram
         [[zero; zero; zero]; [zero; zero]; [zero; zero; zero]]
         (Fin 8000) 2 4 3 3) fb 13
    = (Throw (Error_SpectrumSize (4 / 2 + 1) (Z.of_nat (length [zero; zero]))),
       fb).
Proof.
  destruct (new_ok (Fin 8000) 4 2 (Fin 500) (Fin 12000)) as [fb Hfb];
    [cbv; discriminate|].
  exists fb. split; [exact Hfb|].
  apply (computeMFCC_first_bad_frame (Fin 8000) 4 2 (Fin 500) (Fin 12000) fb
           _ 13 [[zero; zero; zero]] [[zero; zero; zero]] [zero; zero]);
    [lia | lia | exact Hfb | reflexivity | repeat constructor
    | cbn; discriminate].
Defined.

(** ** audioProcessor.worker.ts: what one call of the handler posts *)

Ltac protocol_case :=
  repeat (split; [solve [reflexivity | assumption | cbn; lia]|]);
  split; [split; discriminate|];
  let Hty := fresh "Hty" in intros [Hty|Hty]; discriminate.

(** X18: whatever the message and whatever the call stack, one call of the
    worker's handler posts a run of progress reports followed by at most one
    other response; nothing follows that response.  The progress fractions
    are strictly between 0 and 1 and strictly increasing.  The closing
    response is missing exactly for CANCEL; otherwise it is a result or an
    ERROR, and for LOAD_VIDEO and EXTRACT_AUDIO it is the ERROR about an
    unknown message type, with no progress report before it. *)
Theorem onmessage_protocol (stack : nat) (m : Worker.WorkerMessage) :
  exists (reports final : list Worker.WorkerResponse) (fractions : list R),
    Worker.onmessage stack m = reports ++ final /\
    forallb isProgress reports = true /\
    progressOf reports = map Fin fractions /\
    StronglySorted Rlt fractions /\
    Forall (fun p => (0 < p < 1)%R) fractions /\
    (length final <= 1)%nat /\
    forallb (fun r => Worker.isResult r || isError r) final = true /\
    (final = [] <-> m = Worker.CANCEL) /\
    (Worker.typeOf m = "LOAD_VIDEO"%string \/
     Worker.typeOf m = "EXTRACT_AUDIO"%string ->
     reports = [] /\
     final = [Worker.ERROR (Worker.UnknownMessageType (Worker.typeOf m))]).
Proof.
  assert (Hsorted : forall l : list R,
            match l with
            | [a] => (0 < a < 1)%R
            | [a; b] => (0 < a < b)%R /\ (b < 1)%R
            | [a; b; c] => (0 < a < b)%R /\ (b < c)%R /\ (c < 1)%R
            | [a; b; c; d] => (0 < a < b)%R /\ (b < c)%R /\ (c < d)%R /\ (d < 1)%R
            | _ => True
            end ->
            (length l <= 4)%nat ->
            StronglySorted Rlt l /\ Forall (fun p => (0 < p < 1)%R) l).
  { intros [|a [|b [|c [|d [|e l]]]]] H Hlen; cbn in Hlen; try lia;
      split; repeat constructor; lra. }
  destruct m as [file|file|samples sampleRate|samples sampleRate|];
    cbn [Worker.onmessage Worker.typeOf].
  - exists [], [Worker.ERROR (Worker.UnknownMessageType "LOAD_VIDEO")], [].
    repeat (split; [solve [reflexivity | constructor | cbn; lia]|]).
    split; [split; discriminate|]. intros _. split; reflexivity.
  - exists [], [Worker.ERROR (Worker.UnknownMessageType "EXTRACT_AUDIO")], [].
    repeat (split; [solve [reflexivity | constructor | cbn; lia]|]).
    split; [split; discriminate|]. intros _. split; reflexivity.
  - destruct (Worker.computeSpectrogramDefault stack samples sampleRate)
      as [result|e].
    + exists [Worker.PROGRESS "Computing spectrogram" (Fin (1 / 10));
              Worker.PROGRESS "Computing spectrogram" (Fin (9 / 10))],
             [Worker.SPECTROGRAM_COMPUTED (Spectrogram.data result)
                                          (Spectrogram.sampleRate result)],
             [1 / 10; 9 / 10]%R.
      destruct (Hsorted [1 / 10; 9 / 10]%R) as [H1 H2]; [lra | cbn; lia|].
      protocol_case.
    + exists [Worker.PROGRESS "Computing spectrogram" (Fin (1 / 10))],
             [Worker.ERROR (Worker.ErrorMessage e)], [1 / 10]%R.
      destruct (Hsorted [1 / 10]%R) as [H1 H2]; [lra | cbn; lia|].
      protocol_case.
  - destruct (Worker.computeSpectrogramDefault stack samples sampleRate)
      as [spectrogram|e].
    + destruct (Mel.newDefault sampleRate (Worker.melFftSize spectrogram))
        as [melFilterbank|e].
      * destruct (fst (MFCC.computeMFCC spectrogram melFilterbank
                         DSP_CONFIG.mfccCount)) as [mfcc|e].
        -- exists [Worker.PROGRESS "Computing spectrogram" (Fin (1 / 10));
                   Worker.PROGRESS "Computing mel features" (Fin (3 / 10));
                   Worker.PROGRESS "Computing MFCC" (Fin (5 / 10));
                   Worker.PROGRESS "Computing PCA" (Fin (8 / 10))],
                  [Worker.MFCC_PCA_COMPUTED (PCA.computePCA3D mfcc) mfcc],
                  [1 / 10; 3 / 10; 5 / 10; 8 / 10]%R.
           destruct (Hsorted [1 / 10; 3 / 10; 5 / 10; 8 / 10]%R) as [H1 H2];
             [lra | cbn; lia|].
           protocol_case.
        -- exists [Worker.PROGRESS "Computing spectrogram" (Fin (1 / 10));
                   Worker.PROGRESS "Computing mel features" (Fin (3 / 10));
                   Worker.PROGRESS "Computing MFCC" (Fin (5 / 10))],
                  [Worker.ERROR (Worker.ErrorMessage e)],
                  [1 / 10; 3 / 10; 5 / 10]%R.
           destruct (Hsorted [1 / 10; 3 / 10; 5 / 10]%R) as [H1 H2];
             [lra | cbn; lia|].
           protocol_case.
      * exists [Worker.PROGRESS "Computing spectrogram" (Fin (1 / 10));
                Worker.PROGRESS "Computing mel features" (Fin (3 / 10))],
               [Worker.ERROR (Worker.ErrorMessage e)],
               [1 / 10; 3 / 10]%R.
        destruct (Hsorted [1 / 10; 3 / 10]%R) as [H1 H2]; [lra | cbn; lia|].
        protocol_case.
    + exists [Worker.PROGRESS "Computing spectrogram" (Fin (1 / 10))],
             [Worker.ERROR (Worker.ErrorMessage e)], [1 / 10]%R.
      destruct (Hsorted [1 / 10]%R) as [H1 H2]; [lra | cbn; lia|].
      protocol_case.
  - exists [], [], [].
    repeat (split; [solve [reflexivity | constructor | cbn; lia]|]).
    split; [split; reflexivity|]. intros [Hty|Hty]; discriminate.
Qed.

(** ** audioProcessor.ts: the page's side *)

Section ClientCancel.

Import Client.

Lemma quiet_step (stack : nat) (sys : system) (e : event) :
  callbacks (page sys) = [] -> isRequest e = false ->
  callbacks (page (step stack sys e)) = [] /\
  observed (page (step stack sys e)) = observed (page sys).
Proof.
  intros Hcb He. destruct e as [c| |]; cbn [step].
  - destruct c; try discriminate; cbn; auto.
  - destruct (inbox sys); cbn; auto.
  - destruct (channel sys) as [|response rest]; [auto|].
    cbn [page]. unfold onmessage. rewrite Hcb.
    destruct response; cbn; rewrite ?app_nil_r; auto.
Qed.

Lemma quiet_run (stack : nat) (events : list event) :
  forall sys,
    callbacks (page sys) = [] ->
    Forall (fun e => isRequest e = false) events ->
    callbacks (page (run stack events sys)) = [] /\
    observed (page (run stack events sys)) = observed (page sys).
Proof.
  induction events as [|e events IH]; intros sys Hcb Hall; [cbn; auto|].
  inversion Hall as [|? ? He Hrest]; subst.
  destruct (quiet_step stack sys e Hcb He) as [Hcb' Hobs'].
  cbn [run fold_left]. fold (run stack events (step stack sys e)).
  destruct (IH (step stack sys e) Hcb' Hrest) as [H1 H2].
  split; [exact H1 | congruence].
Qed.

End ClientCancel.

(** X19: [cancel()] silences the page, not the worker.  After a call of
    [cancel], and as long as no new request is made, nothing the worker still
    posts reaches a caller: whatever is dispatched and delivered, no
    [onProgress] is called and no promise is resolved or rejected, so the
    promises of the requests that were pending stay pending for ever. *)
Theorem cancel_silences_page (stack : nat) (sys : Client.system)
    (events : list Client.event) :
  Forall (fun e => Client.isRequest e = false) events ->
  let after :=
    Client.run stack events (Client.step stack sys (Client.Call Client.CallCancel)) in
  Client.observed (Client.page after) = Client.observed (Client.page sys) /\
  Client.callbacks (Client.page after) = [].
Proof.
  intros Hall after.
  destruct (quiet_run stack events
              (Client.step stack sys (Client.Call Client.CallCancel)))
    as [Hcb Hobs]; [reflexivity | exact Hall |].
  split; [exact Hobs | exact Hcb].
Qed.

Lemma cancel_silences_page_witness :
  let sys :=
    Client.run 12 [Client.Call (Client.CallSpectrogram [] (Fin 44100) true);
                   Client.Dispatch; Client.Deliver] Client.start in
  let after :=
    Client.run 12 [Client.Dispatch; Client.Deliver; Client.Deliver; Client.Deliver]
      (Client.step 12 sys (Client.Call Client.CallCancel)) in
  Client.observed (Client.page after) = Client.observed (Client.page sys) /\
  Client.callbacks (Client.page after) = [].
Proof.
  apply (cancel_silences_page 12
           (Client.run 12 [Client.Call (Client.CallSpectrogram [] (Fin 44100) true);
                           Client.Dispatch; Client.Deliver] Client.start)
           [Client.Dispatch; Client.Deliver; Client.Deliver; Client.Deliver]).
  repeat constructor.
Defined.

Section ClientSettlements.

Import Client.

Let keys (p : state) : list nat := map fst (callbacks p).
Let settledIds (p : state) : list nat := flat_map settled (observed p).

(** Every key of the map is the number of a request made, no key occurs
    twice, no request is settled twice, and a request still in the map has
    not been settled. *)
Let invariant (p : state) : Prop :=
  NoDup (keys p) /\
  (forall id, In id (keys p) -> (id < messageId p)%nat) /\
  NoDup (settledIds p) /\
  (forall id, In id (settledIds p) -> (id < messageId p)%nat) /\
  (forall id, In id (keys p) -> ~ In id (settledIds p)).

Lemma map_set_fresh (id : nat) (cb : callback) (m : list (nat * callback)) :
  ~ In id (map fst m) -> map_set id cb m = m ++ [(id, cb)].
Proof.
  induction m as [|[k v] m IH]; intros Hid; [reflexivity|].
  cbn [map_set]. destruct (Nat.eqb_spec k id) as [->|Hne].
  - exfalso. apply Hid. now left.
  - cbn [app]. f_equal. apply IH. intros H. apply Hid. now right.
Qed.

Lemma map_delete_keys (id : nat) (m : list (nat * callback)) (k : nat) :
  In k (map fst (map_delete id m)) <-> In k (map fst m) /\ k <> id.
Proof.
  unfold map_delete. induction m as [|[k' v] m IH]; [cbn; tauto|].
  cbn [filter fst map]. destruct (Nat.eqb_spec k' id) as [->|Hne]; cbn [negb].
  - rewrite IH. cbn [In]. intuition congruence.
  - cbn [map In fst]. rewrite IH. intuition congruence.
Qed.

Lemma map_delete_NoDup (id : nat) (m : list (nat * callback)) :
  NoDup (map fst m) -> NoDup (map fst (map_delete id m)).
Proof.
  unfold map_delete. induction m as [|[k v] m IH]; intros H; [constructor|].
  inversion H as [|? ? Hk Hm]; subst. cbn [filter fst].
  destruct (negb (k =? id)%nat); [|now apply IH].
  cbn [map fst]. constructor; [|now apply IH].
  intros Hin. apply Hk. apply (proj1 (map_delete_keys id m k)) in Hin. tauto.
Qed.

Lemma settled_app (l1 l2 : list observation) :
  flat_map settled (l1 ++ l2) = flat_map settled l1 ++ flat_map settled l2.
Proof. apply flat_map_app. Qed.

Lemma settled_progress (stage : string) (progress : num)
    (m : list (nat * callback)) :
  flat_map settled
    (flat_map (fun kv => if onProgress (snd kv)
                         then [Progress (fst kv) stage progress] else []) m)
  = [].
Proof.
  induction m as [|[k v] m IH]; [reflexivity|].
  cbn [flat_map]. rewrite settled_app, IH.
  destruct (onProgress (snd (k, v))); reflexivity.
Qed.

Lemma NoDup_snoc (l : list nat) (x : nat) :
  NoDup l -> ~ In x l -> NoDup (l ++ [x]).
Proof.
  intros Hl Hx. apply NoDup_app; [exact Hl | repeat constructor; auto |].
  intros y Hy [<-|[]]. contradiction.
Qed.

(** The invariant after the first callback, of key [id], has settled its
    promise (or not) and deleted itself. *)
Lemma invariant_settle (p : state) (id : nat) (news : list observation) :
  invariant p -> In id (keys p) ->
  flat_map settled news = [id] \/ flat_map settled news = [] ->
  invariant (mkState (worker p) (messageId p) (map_delete id (callbacks p))
                     (observed p ++ news)).
Proof.
  intros [Hk [Hlt [Hs [Hslt Hdis]]]] Hid Hnews.
  unfold invariant, keys, settledIds in *. cbn [callbacks observed messageId].
  rewrite settled_app.
  split; [now apply map_delete_NoDup|].
  split; [intros k Hin; apply map_delete_keys in Hin; apply Hlt; tauto|].
  destruct Hnews as [-> | ->].
  - split; [apply NoDup_snoc; [exact Hs | now apply Hdis]|].
    split.
    + intros k Hin. apply in_app_or in Hin. destruct Hin as [Hin|[<-|[]]];
        [now apply Hslt | now apply Hlt].
    + intros k Hin Hin'. apply map_delete_keys in Hin. destruct Hin as [Hin Hne].
      apply in_app_or in Hin'. destruct Hin' as [Hin'|[Heq|[]]];
        [exact (Hdis k Hin Hin') | congruence].
  - rewrite app_nil_r. split; [exact Hs|]. split; [exact Hslt|].
    intros k Hin. apply map_delete_keys in Hin. apply Hdis. tauto.
Qed.

Lemma invariant_onmessage (response : Worker.WorkerResponse) (p : state) :
  invariant p -> invariant (onmessage response p).
Proof.
  intros Hinv.
  assert (Hprogress : forall stage progress,
            invariant (mkState (worker p) (messageId p) (callbacks p)
                         (observed p
                          ++ flat_map (fun kv =>
                                         if onProgress (snd kv)
                                         then [Progress (fst kv) stage progress]
                                         else [])
                                      (callbacks p)))).
  { intros stage progress. destruct Hinv as [Hk [Hlt [Hs [Hslt Hdis]]]].
    unfold invariant, keys, settledIds in *.
    cbn [callbacks observed messageId].
    rewrite settled_app, settled_progress, app_nil_r. auto. }
  unfold onmessage.
  destruct (callbacks p) as [|[id cb] rest] eqn:Hcb.
  - destruct response; auto; try (rewrite <- Hcb; apply Hprogress).
  - assert (Hid : In id (keys p)) by (unfold keys; rewrite Hcb; now left).
    destruct response as [stage progress| | | |msg];
      [first [apply Hprogress | rewrite <- Hcb; apply Hprogress] | | | |].
    + unfold onComplete. destruct cb as [[|] progress]; cbn [matches requested].
      * rewrite <- (app_nil_r (observed p)). apply invariant_settle; auto.
      * rewrite <- (app_nil_r (observed p)). apply invariant_settle; auto.
    + unfold onComplete. destruct cb as [[|] progress]; cbn [matches requested].
      * apply invariant_settle; auto.
      * rewrite <- (app_nil_r (observed p)). apply invariant_settle; auto.
    + unfold onComplete. destruct cb as [[|] progress]; cbn [matches requested].
      * rewrite <- (app_nil_r (observed p)). apply invariant_settle; auto.
      * apply invariant_settle; auto.
    + unfold onError. apply invariant_settle; auto.
Qed.

Lemma invariant_request (m : method) (message : Worker.WorkerMessage)
    (progress : bool) (p : state) :
  invariant p -> invariant (fst (request m message progress p)).
Proof.
  intros [Hk [Hlt [Hs [Hslt Hdis]]]]. unfold request.
  destruct (worker p); cbn [fst]; unfold invariant, keys, settledIds in *;
    cbn [callbacks observed messageId].
  - assert (Hfresh : ~ In (messageId p) (map fst (callbacks p)))
      by (intros H; apply Hlt in H; lia).
    rewrite map_set_fresh by exact Hfresh. rewrite map_app. cbn [map fst].
    split; [now apply NoDup_snoc|].
    split.
    { intros k Hin. apply in_app_or in Hin. destruct Hin as [Hin|[<-|[]]];
        [apply Hlt in Hin; lia | lia]. }
    split; [exact Hs|].
    split; [intros k Hin; apply Hslt in Hin; lia|].
    intros k Hin Hin'. apply in_app_or in Hin. destruct Hin as [Hin|[<-|[]]];
      [exact (Hdis k Hin Hin') | apply Hslt in Hin'; lia].
  - rewrite settled_app. cbn [flat_map settled]. rewrite app_nil_r. auto.
Qed.

Lemma invariant_step (stack : nat) (sys : system) (e : event) :
  invariant (page sys) -> invariant (page (step stack sys e)).
Proof.
  intros Hinv. destruct e as [c| |]; cbn [step].
  - destruct c as [samples sampleRate progress|samples sampleRate progress| |];
      cbn [perform].
    + unfold computeSpectrogram.
      pose proof (invariant_request ComputeSpectrogram
                    (Worker.COMPUTE_SPECTROGRAM samples sampleRate) progress
                    (page sys) Hinv) as H.
      destruct (request _ _ _ _) as [p msgs]. exact H.
    + unfold computeMFCCPCA.
      pose proof (invariant_request ComputeMFCCPCA
                    (Worker.COMPUTE_MFCC_PCA samples sampleRate) progress
                    (page sys) Hinv) as H.
      destruct (request _ _ _ _) as [p msgs]. exact H.
    + destruct Hinv as [Hk [Hlt [Hs [Hslt Hdis]]]].
      unfold invariant, keys, settledIds in *. cbn.
      repeat split; auto; try constructor; intros k [].
    + destruct Hinv as [Hk [Hlt [Hs [Hslt Hdis]]]].
      unfold invariant, keys, settledIds in *. cbn.
      repeat split; auto; try constructor; intros k [].
  - destruct (inbox sys); exact Hinv.
  - destruct (channel sys) as [|response rest]; [exact Hinv|].
    cbn [page]. now apply invariant_onmessage.
Qed.

Lemma invariant_run (stack : nat) (events : list event) :
  forall sys, invariant (page sys) -> invariant (page (run stack events sys)).
Proof.
  induction events as [|e events IH]; intros sys Hinv; [exact Hinv|].
  cbn [run fold_left]. apply IH. now apply invariant_step.
Qed.

Lemma settled_once (stack : nat) (events : list event) :
  let p := page (run stack events start) in
  NoDup (flat_map settled (observed p)) /\
  (forall id, In id (flat_map settled (observed p)) -> (id < messageId p)%nat) /\
  (forall id, In id (map fst (callbacks p)) ->
              ~ In id (flat_map settled (observed p))).
Proof.
  destruct (invariant_run stack events start) as [Hk [Hlt [Hs [Hslt Hdis]]]].
  { unfold invariant, keys, settledIds. cbn.
    repeat split; try constructor; intros k []. }
  cbn zeta. auto.
Qed.

End ClientSettlements.

(** X20: no promise is settled twice.  Whatever the page calls (requests,
    [cancel], [terminate]) and in whatever order messages are dispatched and
    delivered, [resolve] and [reject] are called at most once per request in
    total, only for requests that were made, and never for a request whose
    callbacks are still registered. *)
Theorem promise_settled_at_most_once (stack : nat) (events : list Client.event) :
  let p := Client.page (Client.run stack events Client.start) in
  NoDup (flat_map Client.settled (Client.observed p)) /\
  (forall id, In id (flat_map Client.settled (Client.observed p)) ->
              (id < Client.messageId p)%nat) /\
  (forall id, In id (map fst (Client.callbacks p)) ->
              ~ In id (flat_map Client.settled (Client.observed p))).
Proof. exact (settled_once stack events). Qed.

Section ClientOrder.

Import Client.

Variable stack : nat.
Hypothesis stack_enough : (12 <= stack)%nat.

Let nonProgress (r : Worker.WorkerResponse) : bool :=
  match r with Worker.PROGRESS _ _ => false | _ => true end.

Let isCall (c : call) : Prop :=
  match c with CallSpectrogram _ _ _ | CallMFCCPCA _ _ _ => True | _ => False end.

(** The callbacks of some requests, numbered from [first]. *)
Let numbered (first : nat) (cs : list call) : list (nat * callback) :=
  combine (seq first (length cs)) (map callbackOf cs).

Lemma answer_of_request (c : call) :
  isCall c ->
  exists r, answerOf stack c = [r] /\
            Worker.isResult r = true /\
            matches (requested (callbackOf c)) r = true.
Proof.
  destruct c as [samples sampleRate progress|samples sampleRate progress| |];
    intros Hc; try contradiction; unfold answerOf; cbn [messageOf].
  - destruct (onmessage_COMPUTE_SPECTROGRAM stack samples sampleRate stack_enough)
      as [data [-> _]].
    eexists. cbn. repeat split.
  - destruct (onmessage_COMPUTE_MFCC_PCA stack samples sampleRate stack_enough)
      as [mfcc [-> _]].
    eexists. cbn. repeat split.
Qed.

Lemma answers_app (first : nat) (cs1 cs2 : list call) :
  answers stack first (cs1 ++ cs2)
  = answers stack first cs1 ++ answers stack (first + length cs1) cs2.
Proof.
  revert first. induction cs1 as [|c cs1 IH]; intros first.
  - cbn. now rewrite Nat.add_0_r.
  - cbn [app answers length]. rewrite IH, <- app_assoc.
    now rewrite Nat.add_succ_comm.
Qed.

Lemma numbered_snoc (first : nat) (cs : list call) (c : call) :
  numbered first (cs ++ [c])
  = numbered first cs ++ [((first + length cs)%nat, callbackOf c)].
Proof.
  unfold numbered. revert first. induction cs as [|c' cs IH]; intros first.
  - cbn. now rewrite Nat.add_0_r.
  - cbn [app length seq map combine]. rewrite IH.
    now rewrite Nat.add_succ_comm.
Qed.

Lemma numbered_keys (first : nat) (cs : list call) (k : nat) :
  In k (map fst (numbered first cs)) -> (first <= k < first + length cs)%nat.
Proof.
  unfold numbered. revert first. induction cs as [|c cs IH]; intros first;
    [intros []|].
  cbn [length seq map combine fst In]. intros [<-|Hin]; [lia|].
  apply IH in Hin. lia.
Qed.

Lemma numbered_fst (first : nat) (cs : list call) :
  map fst (numbered first cs) = seq first (length cs).
Proof.
  unfold numbered. revert first. induction cs as [|c cs IH]; intros first;
    [reflexivity|].
  cbn [length seq map combine fst]. now rewrite IH.
Qed.

Lemma map_delete_head (first : nat) (cb : callback) (cs : list call) :
  map_delete first ((first, cb) :: numbered (S first) cs)
  = numbered (S first) cs.
Proof.
  unfold map_delete. cbn [filter fst]. rewrite Nat.eqb_refl. cbn [negb].
  apply forallb_filter_id. apply forallb_forall. intros [k v] Hin.
  cbn [fst]. apply (in_map fst) in Hin. apply numbered_keys in Hin.
  cbn [fst] in Hin. destruct (Nat.eqb_spec k first); [lia | reflexivity].
Qed.

Lemma settlement_progress (stage : string) (progress : num)
    (m : list (nat * callback)) :
  filter isSettlement
    (flat_map (fun kv => if onProgress (snd kv)
                         then [Progress (fst kv) stage progress] else []) m)
  = [].
Proof.
  induction m as [|[k v] m IH]; [reflexivity|].
  cbn [flat_map]. rewrite filter_app, IH.
  destruct (onProgress (snd (k, v))); reflexivity.
Qed.

(** The requests made so far are those settled, in the order they were made,
    then those whose answer is on its way to the page, then those that wait
    in the worker's queue; the map holds the callbacks of the last two, in
    this order. *)
Let invariant (requests : list call) (sys : system) : Prop :=
  exists settled_ inflight waiting,
    requests = settled_ ++ inflight ++ waiting /\
    Forall isCall requests /\
    worker (page sys) = true /\
    messageId (page sys) = length requests /\
    filter isSettlement (observed (page sys)) = answers stack 0 settled_ /\
    callbacks (page sys) = numbered (length settled_) (inflight ++ waiting) /\
    inbox sys = map messageOf waiting /\
    filter nonProgress (channel sys) = flat_map (answerOf stack) inflight.

Lemma invariant_call (requests : list call) (sys : system) (c : call) :
  invariant requests sys -> isCall c ->
  invariant (requests ++ [c]) (perform c sys).
Proof.
  intros [done [inflight [waiting [Hreq [Hall [Hw [Hid [Hobs [Hcb [Hin Hch]]]]]]]]]] Hc.
  exists done, inflight, (waiting ++ [c]).
  assert (Hlen : length requests
                 = (length done + length (inflight ++ waiting))%nat)
    by (rewrite Hreq, !length_app; lia).
  assert (Hperform :
            perform c sys
            = mkSystem (mkState true (S (length requests))
                          (numbered (length done) ((inflight ++ waiting) ++ [c]))
                          (observed (page sys)))
                       (inbox sys ++ [messageOf c]) (channel sys)).
  { assert (Hrequest : forall m message progress,
              callbackOf c = mkCallback m progress ->
              request m message progress (page sys)
              = (mkState true (S (length requests))
                   (numbered (length done) ((inflight ++ waiting) ++ [c]))
                   (observed (page sys)), [message])).
    { intros m message progress Hcbk. unfold request. rewrite Hw, Hid, Hcb.
      rewrite map_set_fresh
        by (intros H; apply numbered_keys in H; lia).
      now rewrite numbered_snoc, Hcbk, <- Hlen. }
    destruct c as [samples sampleRate progress|samples sampleRate progress| |];
      try contradiction; cbn [perform messageOf];
      unfold computeSpectrogram, computeMFCCPCA;
      now rewrite (Hrequest _ _ progress eq_refl). }
  rewrite Hperform. cbn [page inbox channel worker messageId observed callbacks].
  repeat split; auto.
  - now rewrite Hreq, <- !app_assoc.
  - apply Forall_app. split; [exact Hall | now constructor].
  - rewrite length_app. cbn. lia.
  - now rewrite <- app_assoc.
  - now rewrite Hin, map_app.
Qed.

Lemma invariant_dispatch (requests : list call) (sys : system) :
  invariant requests sys -> invariant requests (step stack sys Dispatch).
Proof.
  intros [done [inflight [waiting [Hreq [Hall [Hw [Hid [Hobs [Hcb [Hin Hch]]]]]]]]]].
  cbn [step]. destruct waiting as [|c waiting].
  - rewrite Hin. cbn [map]. exists done, inflight, []. rewrite <- Hin. auto 10.
  - rewrite Hin. cbn [map].
    exists done, (inflight ++ [c]), waiting.
    cbn [page inbox channel]. repeat split; auto.
    + now rewrite Hreq, <- !app_assoc.
    + now rewrite Hcb, <- !app_assoc.
    + rewrite filter_app, Hch, flat_map_app. cbn [flat_map].
      now rewrite app_nil_r.
Qed.

Lemma invariant_deliver (requests : list call) (sys : system) :
  invariant requests sys -> invariant requests (step stack sys Deliver).
Proof.
  intros [done [inflight [waiting [Hreq [Hall [Hw [Hid [Hobs [Hcb [Hin Hch]]]]]]]]]].
  cbn [step]. destruct (channel sys) as [|response rest] eqn:Hchannel.
  - exists done, inflight, waiting. rewrite Hchannel. auto 10.
  - destruct (nonProgress response) eqn:Hnp.
    + (* the answer to the oldest request in flight *)
      cbn [filter] in Hch. rewrite Hnp in Hch.
      destruct inflight as [|c inflight]; [discriminate|].
      assert (Hc : isCall c).
      { rewrite Forall_forall in Hall. apply Hall. rewrite Hreq.
        apply in_or_app. right. now left. }
      destruct (answer_of_request c Hc) as [r [Hr [Hres Hmatch]]].
      cbn [flat_map] in Hch. rewrite Hr in Hch. cbn [app] in Hch.
      injection Hch as -> Hrest.
      exists (done ++ [c]), inflight, waiting.
      assert (Hpage : onmessage r (page sys)
                      = mkState true (length requests)
                          (numbered (S (length done)) (inflight ++ waiting))
                          (observed (page sys) ++ [Resolve (length done) r])).
      { unfold onmessage. rewrite Hcb. unfold numbered at 1.
        cbn [app length seq map combine].
        fold (numbered (S (length done)) (inflight ++ waiting)).
        assert (Hcomplete :
                  onComplete (length done) (callbackOf c) r (page sys)
                  = mkState true (length requests)
                      (numbered (S (length done)) (inflight ++ waiting))
                      (observed (page sys) ++ [Resolve (length done) r])).
        { unfold onComplete. rewrite Hmatch, Hw, Hid, Hcb.
          unfold numbered at 1. cbn [app length seq map combine].
          fold (numbered (S (length done)) (inflight ++ waiting)).
          now rewrite map_delete_head. }
        destruct r; try discriminate; exact Hcomplete. }
      rewrite Hpage. cbn [page inbox channel worker messageId observed callbacks].
      repeat split; auto.
      * now rewrite Hreq, <- !app_assoc.
      * rewrite filter_app, Hobs, answers_app. cbn [answers filter isSettlement].
        rewrite Hr. cbn [map Nat.add]. now rewrite app_nil_r.
      * rewrite length_app. cbn [length].
        now replace (length done + 1)%nat with (S (length done)) by lia.
    + (* a progress report *)
      destruct response as [stage progress| | | |]; try discriminate.
      exists done, inflight, waiting.
      cbn [filter] in Hch. cbn [nonProgress] in Hch.
      cbn [onmessage page inbox channel worker messageId observed callbacks].
      repeat split; auto.
      rewrite filter_app, settlement_progress, app_nil_r. exact Hobs.
Qed.

Lemma invariant_events (events : list event) :
  forall (requests : list call) (sys : system),
    invariant requests sys ->
    Forall (fun e => isCancelOrTerminate e = false) events ->
    invariant (requests ++ requestsOf events) (run stack events sys).
Proof.
  induction events as [|e events IH]; intros requests sys Hinv Hall.
  - cbn. now rewrite app_nil_r.
  - inversion Hall as [|? ? He Hrest]; subst.
    cbn [run fold_left]. fold (run stack events (step stack sys e)).
    replace (requestsOf (e :: events))
      with (requestsOf [e] ++ requestsOf events)
      by (unfold requestsOf; cbn [flat_map]; now rewrite app_nil_r).
    rewrite app_assoc. apply IH; [|exact Hrest].
    destruct e as [c| |].
    + destruct c as [samples sampleRate progress|samples sampleRate progress| |];
        try discriminate; cbn [requestsOf flat_map app step];
        now apply invariant_call.
    + cbn [requestsOf flat_map]. rewrite app_nil_r. now apply invariant_dispatch.
    + cbn [requestsOf flat_map]. rewrite app_nil_r. now apply invariant_deliver.
Qed.

Lemma answered_in_order (events : list event) :
  Forall (fun e => isCancelOrTerminate e = false) events ->
  let sys := run stack events start in
  exists answered pending,
    requestsOf events = answered ++ pending /\
    filter isSettlement (observed (page sys)) = answers stack 0 answered /\
    map fst (callbacks (page sys)) = seq (length answered) (length pending) /\
    (inbox sys = [] -> channel sys = [] -> pending = []) /\
    forall c, In c (requestsOf events) ->
      exists r, answerOf stack c = [r] /\ Worker.isResult r = true.
Proof.
  intros Hall sys.
  destruct (invariant_events events [] start) as
    [done [inflight [waiting [Hreq [Hcalls [Hw [Hid [Hobs [Hcb [Hin Hch]]]]]]]]]].
  { exists [], [], []. cbn. repeat split; auto. }
  { exact Hall. }
  cbn [app] in Hreq, Hcalls. fold sys in Hw, Hid, Hobs, Hcb, Hin, Hch.
  exists done, (inflight ++ waiting). split; [exact Hreq|].
  split; [exact Hobs|]. split.
  { rewrite Hcb. apply numbered_fst. }
  split.
  { intros Hinbox Hchannel. rewrite Hinbox in Hin. rewrite Hchannel in Hch.
    destruct waiting; [|discriminate]. rewrite app_nil_r.
    destruct inflight as [|c inflight]; [reflexivity|].
    assert (Hc : isCall c).
    { rewrite Forall_forall in Hcalls. apply Hcalls. rewrite Hreq.
      apply in_or_app. right. now left. }
    destruct (answer_of_request c Hc) as [r [Hr _]].
    cbn [filter flat_map] in Hch. rewrite Hr in Hch. discriminate. }
  intros c Hc. rewrite Forall_forall in Hcalls.
  destruct (answer_of_request c (Hcalls c Hc)) as [r [Hr [Hres _]]].
  exists r. auto.
Qed.

End ClientOrder.

(** X21: without [cancel] and [terminate], every request gets its own answer.
    Whatever requests the page makes and however the dispatching and the
    delivery of messages interleave with them, the promises are settled in
    the order of the requests, each one resolved (none rejected) with the
    result the worker computed for the message of that very request; the
    callbacks still registered are those of the requests not yet settled; and
    once nothing is queued or on its way, every request is settled. *)
Theorem requests_answered_in_order (stack : nat) (events : list Client.event) :
  (12 <= stack)%nat ->
  Forall (fun e => Client.isCancelOrTerminate e = false) events ->
  let sys := Client.run stack events Client.start in
  exists answered pending,
    Client.requestsOf events = answered ++ pending /\
    filter Client.isSettlement (Client.observed (Client.page sys))
    = Client.answers stack 0 answered /\
    map fst (Client.callbacks (Client.page sys))
    = seq (length answered) (length pending) /\
    (Client.inbox sys = [] -> Client.channel sys = [] -> pending = []) /\
    forall c, In c (Client.requestsOf events) ->
      exists r, Client.answerOf stack c = [r] /\ Worker.isResult r = true.
Proof. intros Hstack Hall. exact (answered_in_order stack Hstack events Hall). Qed.

Lemma requests_answered_in_order_witness :
  let events :=
    [Client.Call (Client.CallSpectrogram [] (Fin 44100) true);
     Client.Dispatch;
     Client.Call (Client.CallMFCCPCA [] (Fin 44100) false);
     Client.Deliver; Client.Deliver; Client.Deliver] in
  let sys := Client.run 12 events Client.start in
  exists answered pending,
    Client.requestsOf events = answered ++ pending /\
    filter Client.isSettlement (Client.observed (Client.page sys))
    = Client.answers 12 0 answered /\
    map fst (Client.callbacks (Client.page sys))
    = seq (length answered) (length pending) /\
    (Client.inbox sys = [] -> Client.channel sys = [] -> pending = []) /\
    forall c, In c (Client.requestsOf events) ->
      exists r, Client.answerOf 12 c = [r] /\ Worker.isResult r = true.
Proof.
  apply (requests_answered_in_order 12
           [Client.Call (Client.CallSpectrogram [] (Fin 44100) true);
            Client.Dispatch;
            Client.Call (Client.CallMFCCPCA [] (Fin 44100) false);
            Client.Deliver; Client.Deliver; Client.Deliver]);
    [lia | repeat constructor].
Defined.

(** X22: a request made after [cancel()] can be settled by the answer to the
    cancelled one.  When a spectrogram request is cancelled before the worker
    has handled it and a second one is made, the worker still answers both;
    the first answer to arrive finds the callbacks of the second request and
    resolves its promise, with the spectrogram of the first request's
    samples, and the second request's own answer finds no callback. *)
Theorem cancelled_answer_settles_next_request
    (stack : nat) (samples1 samples2 : list num) (sampleRate1 sampleRate2 : num)
    (progress1 progress2 : bool) :
  (12 <= stack)%nat ->
  let events :=
    [Client.Call (Client.CallSpectrogram samples1 sampleRate1 progress1);
     Client.Call Client.CallCancel;
     Client.Call (Client.CallSpectrogram samples2 sampleRate2 progress2);
     Client.Dispatch; Client.Dispatch; Client.Dispatch]
    ++ repeat Client.Deliver 6 in
  let sys := Client.run stack events Client.start in
  exists data1,
    Client.answerOf stack (Client.CallSpectrogram samples1 sampleRate1 progress1)
    = [Worker.SPECTROGRAM_COMPUTED data1 sampleRate1] /\
    filter Client.isSettlement (Client.observed (Client.page sys))
    = [Client.Resolve 1 (Worker.SPECTROGRAM_COMPUTED data1 sampleRate1)] /\
    Client.callbacks (Client.page sys) = [] /\
    Client.inbox sys = [] /\ Client.channel sys = [].
Proof.
  intros Hstack events sys.
  destruct (onmessage_COMPUTE_SPECTROGRAM stack samples1 sampleRate1 Hstack)
    as [data1 [H1 _]].
  destruct (onmessage_COMPUTE_SPECTROGRAM stack samples2 sampleRate2 Hstack)
    as [data2 [H2 _]].
  exists data1. unfold Client.answerOf. cbn [Client.messageOf]. rewrite H1.
  split; [reflexivity|].
  unfold sys, events. cbn [app repeat Client.run fold_left Client.step
    Client.perform Client.computeSpectrogram Client.request Client.cancel
    Client.start Client.initial Client.page Client.inbox Client.channel
    Client.worker Client.messageId Client.callbacks Client.observed
    Client.map_set].
  rewrite H1, H2.
  destruct progress2; cbn; repeat split.
Qed.

Lemma cancelled_answer_settles_next_request_witness :
  let events :=
    [Client.Call (Client.CallSpectrogram [Fin 1] (Fin 44100) true);
     Client.Call Client.CallCancel;
     Client.Call (Client.CallSpectrogram [] (Fin 8000) false);
     Client.Dispatch; Client.Dispatch; Client.Dispatch]
    ++ repeat Client.Deliver 6 in
  let sys := Client.run 12 events Client.start in
  exists data1,
    Client.answerOf 12 (Client.CallSpectrogram [Fin 1] (Fin 44100) true)
    = [Worker.SPECTROGRAM_COMPUTED data1 (Fin 44100)] /\
    filter Client.isSettlement (Client.observed (Client.page sys))
    = [Client.Resolve 1 (Worker.SPECTROGRAM_COMPUTED data1 (Fin 44100))] /\
    Client.callbacks (Client.page sys) = [] /\
    Client.inbox sys = [] /\ Client.channel sys = [].
Proof.
  apply (cancelled_answer_settles_next_request 12 [Fin 1] [] (Fin 44100)
           (Fin 8000) true false).
  lia.
Defined.

(** ** ManifoldView.tsx: the points in the unit cube *)

Section UnitCube.

Local Open Scope R_scope.

Lemma findBounds_fields (points : list (list num)) :
  forall b,
    fold_left
      (fun b point =>
         Manifold.mkBounds
           (Num.min (Manifold.minX b) (get point 0))
           (Manifold.max (Manifold.maxX b) (get point 0))
           (Num.min (Manifold.minY b) (get point 1))
           (Manifold.max (Manifold.maxY b) (get point 1))
           (Num.min (Manifold.minZ b) (get point 2))
           (Manifold.max (Manifold.maxZ b) (get point 2)))
      points b
    = Manifold.mkBounds
        (fold_left (fun m point => Num.min m (get point 0)) points (Manifold.minX b))
        (fold_left (fun m point => Manifold.max m (get point 0)) points (Manifold.maxX b))
        (fold_left (fun m point => Num.min m (get point 1)) points (Manifold.minY b))
        (fold_left (fun m point => Manifold.max m (get point 1)) points (Manifold.maxY b))
        (fold_left (fun m point => Num.min m (get point 2)) points (Manifold.minZ b))
        (fold_left (fun m point => Manifold.max m (get point 2)) points (Manifold.maxZ b)).
Proof.
  induction points as [|point points IH]; intros b; [now destruct b|].
  cbn [fold_left]. now rewrite IH.
Qed.

Lemma min_Fin (a b : R) :
  exists c, Num.min (Fin a) (Fin b) = Fin c /\ c <= a /\ c <= b.
Proof.
  cbn [Num.min Num.lt]. destruct (Rltb b a) eqn:H.
  - apply Rltb_true in H. exists b. repeat split; lra.
  - apply Rltb_false in H. exists a. repeat split; lra.
Qed.

Lemma max_Fin (a b : R) :
  exists c, Manifold.max (Fin a) (Fin b) = Fin c /\ a <= c /\ b <= c.
Proof.
  cbn [Manifold.max Num.lt]. destruct (Rltb a b) eqn:H.
  - apply Rltb_true in H. exists b. repeat split; lra.
  - apply Rltb_false in H. exists a. repeat split; lra.
Qed.

Variable axis : nat.

Lemma lower_bound (points : list (list num)) :
  Forall (fun point => finite (get point axis)) points ->
  forall m0,
    exists m,
      fold_left (fun m point => Num.min m (get point axis)) points (Fin m0)
      = Fin m /\
      m <= m0 /\
      forall point, In point points ->
        exists x, get point axis = Fin x /\ m <= x.
Proof.
  induction 1 as [|point points Hpoint Hpoints IH]; intros m0.
  - exists m0. repeat split; [lra | intros point []].
  - destruct (finite_Fin _ Hpoint) as [x Hx]. cbn [fold_left]. rewrite Hx.
    destruct (min_Fin m0 x) as [c [-> [Hc0 Hcx]]].
    destruct (IH c) as [m [-> [Hm Hall]]].
    exists m. repeat split; [lra|].
    intros p [<-|Hin].
    + exists x. split; [exact Hx | lra].
    + exact (Hall p Hin).
Qed.

Lemma upper_bound (points : list (list num)) :
  Forall (fun point => finite (get point axis)) points ->
  forall m0,
    exists m,
      fold_left (fun m point => Manifold.max m (get point axis)) points (Fin m0)
      = Fin m /\
      m0 <= m /\
      forall point, In point points ->
        exists x, get point axis = Fin x /\ x <= m.
Proof.
  induction 1 as [|point points Hpoint Hpoints IH]; intros m0.
  - exists m0. repeat split; [lra | intros point []].
  - destruct (finite_Fin _ Hpoint) as [x Hx]. cbn [fold_left]. rewrite Hx.
    destruct (max_Fin m0 x) as [c [-> [Hc0 Hcx]]].
    destruct (IH c) as [m [-> [Hm Hall]]].
    exists m. repeat split; [lra|].
    intros p [<-|Hin].
    + exists x. split; [exact Hx | lra].
    + exact (Hall p Hin).
Qed.

(** The bounds the loop finds along one axis, and the range it derives. *)
Lemma axis_bounds (point0 : list num) (points : list (list num)) :
  Forall (fun point => finite (get point axis)) (point0 :: points) ->
  exists lo hi range,
    fold_left (fun m point => Num.min m (get point axis)) (point0 :: points) PInf
    = Fin lo /\
    fold_left (fun m point => Manifold.max m (get point axis)) (point0 :: points) NInf
    = Fin hi /\
    Manifold.max (Fin hi - Fin lo)%num Manifold.range_threshold = Fin range /\
    0 < range /\ hi - lo <= range /\
    forall point, In point (point0 :: points) ->
      exists x, get point axis = Fin x /\ lo <= x <= hi.
Proof.
  intros Hall. inversion Hall as [|? ? H0 Hrest]; subst.
  destruct (finite_Fin _ H0) as [x0 Hx0].
  cbn [fold_left]. rewrite Hx0.
  replace (Num.min PInf (Fin x0)) with (Fin x0) by reflexivity.
  replace (Manifold.max NInf (Fin x0)) with (Fin x0) by reflexivity.
  destruct (lower_bound points Hrest x0) as [lo [Hlo_eq [Hlo Hlower]]].
  destruct (upper_bound points Hrest x0) as [hi [Hhi_eq [Hhi Hupper]]].
  destruct (max_Fin (hi + - lo) (1 / 1000000)) as [range [Hrange [Hr1 Hr2]]].
  exists lo, hi, range.
  split; [exact Hlo_eq|]. split; [exact Hhi_eq|]. split; [exact Hrange|].
  split; [lra|]. split; [lra|].
  intros point [<-|Hin].
  - exists x0. split; [exact Hx0 | lra].
  - destruct (Hlower point Hin) as [x [Hx Hle]].
    destruct (Hupper point Hin) as [x' [Hx' Hle']].
    rewrite Hx in Hx'. injection Hx' as <-.
    exists x. split; [exact Hx | lra].
Qed.

End UnitCube.

Section UnitCubePoints.

Local Open Scope R_scope.

Lemma scaled_in_unit (x lo hi range maxRange : R) :
  lo <= x <= hi -> 0 < range -> hi - lo <= range -> range <= maxRange ->
  -1 <= (x + - ((lo + hi) / 2)) * (2 / maxRange) <= 1.
Proof.
  intros Hx Hpos Hrange Hmax.
  assert (Hinv : 0 < / maxRange) by (apply Rinv_0_lt_compat; lra).
  assert (Hone : maxRange * / maxRange = 1) by (apply Rinv_r; lra).
  unfold Rdiv. split; nra.
Qed.

Lemma normalizePoints_cube (points : list (list num)) :
  Forall (farray 3) points ->
  Forall (fun point =>
            exists x y z,
              point = [Fin x; Fin y; Fin z] /\
              -1 <= x <= 1 /\ -1 <= y <= 1 /\ -1 <= z <= 1)
         (Manifold.normalizePoints points).
Proof.
  intros Hall. destruct points as [|point0 points]; [constructor|].
  unfold Manifold.normalizePoints, Manifold.findBounds.
  rewrite findBounds_fields.
  cbn [Manifold.minX Manifold.maxX Manifold.minY Manifold.maxY
       Manifold.minZ Manifold.maxZ].
  assert (Haxis : forall axis, (axis < 3)%nat ->
            Forall (fun point => finite (get point axis)) (point0 :: points)).
  { intros axis Haxis. eapply Forall_impl; [|exact Hall].
    cbn beta. intros point Hpoint. exact (farray_get 3 point axis Hpoint Haxis). }
  destruct (axis_bounds 0 point0 points (Haxis 0%nat ltac:(lia)))
    as [loX [hiX [rX [-> [-> [-> [HrX [HwX HallX]]]]]]]].
  destruct (axis_bounds 1 point0 points (Haxis 1%nat ltac:(lia)))
    as [loY [hiY [rY [-> [-> [-> [HrY [HwY HallY]]]]]]]].
  destruct (axis_bounds 2 point0 points (Haxis 2%nat ltac:(lia)))
    as [loZ [hiZ [rZ [-> [-> [-> [HrZ [HwZ HallZ]]]]]]]].
  destruct (max_Fin rX rY) as [rXY [-> [HXY1 HXY2]]].
  destruct (max_Fin rXY rZ) as [maxRange [-> [Hm1 Hm2]]].
  cbn [Num.add]. rewrite !div_Fin by lra.
  apply Forall_map, Forall_forall. intros point Hin.
  destruct (HallX point Hin) as [x [-> Hx]].
  destruct (HallY point Hin) as [y [-> Hy]].
  destruct (HallZ point Hin) as [z [-> Hz]].
  cbn [Num.sub Num.neg Num.add Num.mul].
  eexists _, _, _. split; [reflexivity|].
  split; [|split].
  - apply (scaled_in_unit x loX hiX rX maxRange); lra.
  - apply (scaled_in_unit y loY hiY rY maxRange); lra.
  - apply (scaled_in_unit z loZ hiZ rZ maxRange); lra.
Qed.

End UnitCubePoints.

(** X23: [normalizePoints] fits finite points into the cube [-1, 1]^3.  For
    points of three finite coordinates each, it returns as many points, and
    in exact arithmetic each has three finite coordinates between -1 and 1.
    (The doubles of the code can pass a face of the cube by a rounding
    error, and coordinates near the largest double overflow.) *)
Theorem normalizePoints_unit_cube (points : list (list num)) :
  Forall (farray 3) points ->
  length (Manifold.normalizePoints points) = length points /\
  Forall (fun point =>
            exists x y z,
              point = [Fin x; Fin y; Fin z] /\
              (-1 <= x <= 1)%R /\ (-1 <= y <= 1)%R /\ (-1 <= z <= 1)%R)
         (Manifold.normalizePoints points).
Proof.
  intros Hall. split; [|now apply normalizePoints_cube].
  unfold Manifold.normalizePoints. destruct points; [reflexivity|].
  apply length_map.
Qed.

Lemma normalizePoints_unit_cube_witness :
  length (Manifold.normalizePoints
            [[Fin 0; Fin 5; Fin (-3)]; [Fin 10; Fin 5; Fin 4]])
  = length [[Fin 0; Fin 5; Fin (-3)]; [Fin 10; Fin 5; Fin 4]] /\
  Forall (fun point =>
            exists x y z,
              point = [Fin x; Fin y; Fin z] /\
              (-1 <= x <= 1)%R /\ (-1 <= y <= 1)%R /\ (-1 <= z <= 1)%R)
         (Manifold.normalizePoints
            [[Fin 0; Fin 5; Fin (-3)]; [Fin 10; Fin 5; Fin 4]]).
Proof.
  apply (normalizePoints_unit_cube
           [[Fin 0; Fin 5; Fin (-3)]; [Fin 10; Fin 5; Fin 4]]).
  repeat constructor.
Defined.

(** X24: the manifold as it is displayed lies in the unit cube.  For a
    matrix of finite features with frames of one length, the points
    [computePCA3D] returns, passed through [normalizePoints], are as many as
    the frames, and in exact arithmetic they have three finite coordinates
    between -1 and 1.  (In the code, up to the rounding of the two
    functions, and short of an overflow.) *)
Theorem displayed_manifold_in_unit_cube (frames : list (list num))
    (featureCount : nat) :
  Forall (farray featureCount) frames ->
  length (Manifold.normalizePoints (PCA.computePCA3D frames)) = length frames /\
  Forall (fun point =>
            exists x y z,
              point = [Fin x; Fin y; Fin z] /\
              (-1 <= x <= 1)%R /\ (-1 <= y <= 1)%R /\ (-1 <= z <= 1)%R)
         (Manifold.normalizePoints (PCA.computePCA3D frames)).
Proof.
  intros Hframes.
  pose proof (computePCA3D_finite frames featureCount Hframes) as Hpoints.
  split; [|now apply normalizePoints_cube].
  destruct (computePCA3D_shape frames) as [Hlen _]. rewrite <- Hlen.
  unfold Manifold.normalizePoints.
  destruct (PCA.computePCA3D frames); [reflexivity | apply length_map].
Qed.

Lemma displayed_manifold_in_unit_cube_witness :
  length (Manifold.normalizePoints
            (PCA.computePCA3D [[Fin 1; Fin 2]; [Fin 3; Fin 5]; [Fin 0; Fin 1]]))
  = length [[Fin 1; Fin 2]; [Fin 3; Fin 5]; [Fin 0; Fin 1]] /\
  Forall (fun point =>
            exists x y z,
              point = [Fin x; Fin y; Fin z] /\
              (-1 <= x <= 1)%R /\ (-1 <= y <= 1)%R /\ (-1 <= z <= 1)%R)
         (Manifold.normalizePoints
            (PCA.computePCA3D [[Fin 1; Fin 2]; [Fin 3; Fin 5]; [Fin 0; Fin 1]])).
Proof.
  apply (displayed_manifold_in_unit_cube
           [[Fin 1; Fin 2]; [Fin 3; Fin 5]; [Fin 0; Fin 1]] 2).
  repeat constructor.
Defined.

(** ** windowing.ts: the range of the Hann window *)

(** X25: for a size of at least 2 every value of the Hann window is a finite
    number between 0 and 1, and the first and the last value are exactly 0
    (exact arithmetic): the window tapers each frame to zero at both ends. *)
Theorem hannWindow_range (size : Z) :
  (2 <= size)%Z ->
  exists window,
    hannWindow size = Ok window /\
    length window = Z.to_nat size /\
    (forall i, (i < Z.to_nat size)%nat ->
       exists v, get window i = Fin v /\ (0 <= v <= 1)%R) /\
    get window 0 = Fin 0 /\
    get window (Z.to_nat size - 1) = Fin 0.
Proof.
  intros Hsize.
  destruct (hannWindow_ok size) as [w [Hw Hlen]]; [lia|].
  exists w. split; [exact Hw|]. split; [exact Hlen|].
  assert (Hn : (0 < IZR (size - 1))%R) by (apply IZR_lt; lia).
  split; [|split].
  - intros i Hi. rewrite (hannWindow_value size w i Hsize Hw Hi).
    eexists; split; [reflexivity|]. unfold hannValue.
    pose proof (COS_bound (2 * PI * (INR i / IZR (size - 1)))) as [Hlo Hhi].
    lra.
  - rewrite (hannWindow_value size w 0 Hsize Hw) by lia.
    f_equal. unfold hannValue. cbn [INR].
    replace (2 * PI * (0 / IZR (size - 1)))%R with 0%R by (field; lra).
    rewrite cos_0. lra.
  - rewrite (hannWindow_value size w (Z.to_nat size - 1) Hsize Hw) by lia.
    f_equal. unfold hannValue.
    replace (INR (Z.to_nat size - 1)) with (IZR (size - 1))
      by (rewrite INR_IZR_INZ; f_equal; lia).
    replace (2 * PI * (IZR (size - 1) / IZR (size - 1)))%R with (2 * PI)%R
      by (field; lra).
    rewrite cos_2PI. lra.
Qed.

Lemma hannWindow_range_witness :
  exists window,
    hannWindow 2048 = Ok window /\
    length window = Z.to_nat 2048 /\
    (forall i, (i < Z.to_nat 2048)%nat ->
       exists v, get window i = Fin v /\ (0 <= v <= 1)%R) /\
    get window 0 = Fin 0 /\
    get window (Z.to_nat 2048 - 1) = Fin 0.
Proof. apply (hannWindow_range 2048). lia. Defined.

(** ** The pipeline on silence *)

Section SilentPipeline.

Local Open Scope R_scope.

Lemma all_equal_repeat {A : Type} (c : A) (l : list A) :
  Forall (fun x => x = c) l -> l = repeat c (length l).
Proof.
  induction 1 as [|x l Hx Hl IH]; [reflexivity|].
  cbn [length repeat]. now rewrite Hx, <- IH.
Qed.

Lemma silent_manifold (stack len : nat) (sr : R) :
  (12 <= stack)%nat -> 0 < sr -> sr <> 1000 ->
  exists (coefficients : list num) (T : nat),
    Worker.onmessage stack (Worker.COMPUTE_MFCC_PCA (repeat zero len) (Fin sr))
    = [Worker.PROGRESS "Computing spectrogram" (Fin (1 / 10));
       Worker.PROGRESS "Computing mel features" (Fin (3 / 10));
       Worker.PROGRESS "Computing MFCC" (Fin (5 / 10));
       Worker.PROGRESS "Computing PCA" (Fin (8 / 10));
       Worker.MFCC_PCA_COMPUTED (repeat [zero; zero; zero] T)
                                (repeat coefficients T)] /\
    farray 40 coefficients /\
    Z.of_nat T = Z.max 0 (Z.min 2000 ((Z.of_nat len - 2048) / 512 + 1)).
Proof.
  intros Hstack Hpos Hne.
  destruct (computeSpectrogramDefault_ok stack (repeat zero len) (Fin sr) Hstack)
    as [r [Hr [Hcount [Hbins _]]]].
  rewrite repeat_length in Hcount.
  assert (Hsilent : Forall (Forall (fun v => v = Fin 0)) (Spectrogram.data r)).
  { destruct (spectrogram_of_silence stack len (Fin sr) DSP_CONFIG.windowSize
                DSP_CONFIG.hopSize DSP_CONFIG.maxFrames) as [r' [Hr' H]];
      [unfold DSP_CONFIG.windowSize; lia | unfold DSP_CONFIG.hopSize; lia
      | change (Z.to_nat (Z.log2_up DSP_CONFIG.windowSize)) with 11%nat; lia |].
    unfold Worker.computeSpectrogramDefault in Hr. rewrite Hr in Hr'.
    now injection Hr' as <-. }
  assert (Hdata : Spectrogram.data r
                  = repeat (repeat zero 1025) (length (Spectrogram.data r))).
  { apply all_equal_repeat. rewrite Forall_forall in *.
    intros frame Hin. rewrite <- (Hbins frame Hin).
    apply all_equal_repeat. now apply Hsilent. }
  destruct (pipeline_mfcc r (Fin sr) Hbins) as [fb [Hfb [Hnew Hmfcc]]].
  destruct (new_filters _ _ _ _ _ _ Hnew) as [_ [_ [Hfilters _]]].
  pose proof (new_filters_finite sr 2048 128 fb Hpos Hne ltac:(discriminate)
                ltac:(lia) Hnew) as Hfinite.
  set (T := length (Spectrogram.data r)) in *.
  set (coefficients := Spec.cepstralFrame (Mel.filters fb) 40 (repeat zero 1025)).
  assert (Hcoefficients : farray 40 coefficients).
  { apply cepstralFrame_finite;
      [rewrite Hfilters; cbn; lia | exact Hfinite | apply Forall_repeat; exact I]. }
  exists coefficients, T.
  cbn [Worker.onmessage]. rewrite Hr, Hfb, Hmfcc. cbn [fst].
  rewrite Hdata, map_repeat. fold coefficients.
  split; [|split; [exact Hcoefficients | exact Hcount]].
  assert (Hpoints : PCA.computePCA3D (repeat coefficients T)
                    = repeat [zero; zero; zero] T).
  { destruct T as [|T']; [reflexivity|].
    apply identical_frames_origin; [apply Hcoefficients | lia]. }
  now rewrite Hpoints.
Qed.

End SilentPipeline.

(** X26: silence is a single point.  For an all-zero buffer of any length
    and a positive integer sample rate other than 1000 Hz (enough call
    stack) the run of COMPUTE_MFCC_PCA posts its four progress reports and
    then the same 40 finite cepstral coefficients for every frame; in exact
    arithmetic the frames are centered to zero and the point of every frame
    is [(0, 0, 0)].  (The means of the code are sums in single precision:
    over many frames they are off by a rounding residue, and every point is
    then the projection of that residue, one and the same point for all the
    frames but not the origin.) *)
Theorem silence_is_a_single_point (stack len : nat) (sr : Z) :
  (12 <= stack)%nat -> (0 < sr)%Z -> sr <> 1000%Z ->
  exists (coefficients : list num) (T : nat),
    Worker.onmessage stack (Worker.COMPUTE_MFCC_PCA (repeat zero len) (ofZ sr))
    = [Worker.PROGRESS "Computing spectrogram" (Fin (1 / 10));
       Worker.PROGRESS "Computing mel features" (Fin (3 / 10));
       Worker.PROGRESS "Computing MFCC" (Fin (5 / 10));
       Worker.PROGRESS "Computing PCA" (Fin (8 / 10));
       Worker.MFCC_PCA_COMPUTED (repeat [zero; zero; zero] T)
                                (repeat coefficients T)] /\
    farray 40 coefficients /\
    Z.of_nat T = Z.max 0 (Z.min 2000 ((Z.of_nat len - 2048) / 512 + 1)).
Proof.
  intros Hstack Hpos Hne.
  apply (silent_manifold stack len (IZR sr) Hstack).
  - now apply IZR_lt.
  - intros H. apply eq_IZR in H. contradiction.
Qed.

Lemma silence_is_a_single_point_witness :
  exists (coefficients : list num) (T : nat),
    Worker.onmessage 12 (Worker.COMPUTE_MFCC_PCA (repeat zero 4096) (ofZ 44100))
    = [Worker.PROGRESS "Computing spectrogram" (Fin (1 / 10));
       Worker.PROGRESS "Computing mel features" (Fin (3 / 10));
       Worker.PROGRESS "Computing MFCC" (Fin (5 / 10));
       Worker.PROGRESS "Computing PCA" (Fin (8 / 10));
       Worker.MFCC_PCA_COMPUTED (repeat [zero; zero; zero] T)
                                (repeat coefficients T)] /\
    farray 40 coefficients /\
    Z.of_nat T = Z.max 0 (Z.min 2000 ((Z.of_nat 4096 - 2048) / 512 + 1)).
Proof.
  apply (silence_is_a_single_point 12 4096 44100); [lia | lia | lia].
Defined.


(** ** audioProcessor.worker.ts: the two requests on the same samples *)

(** X27: the two compute requests agree.  For the same samples and sample
    rate (any values, enough call stack) COMPUTE_MFCC_PCA works on the very
    spectrogram COMPUTE_SPECTROGRAM posts: the FFT size it recovers from the
    length of the first frame is the 2048 of the default window, its filter
    bank is the default one for that size, its features are [computeMFCC] of
    that spectrogram (one frame of features per spectral frame), and its
    points are [computePCA3D] of these features, one per frame. *)
Theorem compute_requests_agree (stack : nat) (samples : list num)
    (sampleRate : num) :
  (12 <= stack)%nat ->
  exists spectrogram fb mfcc,
    Worker.computeSpectrogramDefault stack samples sampleRate = Ok spectrogram /\
    Mel.new sampleRate 2048 DSP_CONFIG.melBins DSP_CONFIG.fMin DSP_CONFIG.fMax
    = Ok fb /\
    MFCC.computeMFCC spectrogram fb DSP_CONFIG.mfccCount = (Ok mfcc, fb) /\
    Worker.onmessage stack (Worker.COMPUTE_SPECTROGRAM samples sampleRate)
    = [Worker.PROGRESS "Computing spectrogram" (Fin (1 / 10));
       Worker.PROGRESS "Computing spectrogram" (Fin (9 / 10));
       Worker.SPECTROGRAM_COMPUTED (Spectrogram.data spectrogram) sampleRate] /\
    Worker.onmessage stack (Worker.COMPUTE_MFCC_PCA samples sampleRate)
    = [Worker.PROGRESS "Computing spectrogram" (Fin (1 / 10));
       Worker.PROGRESS "Computing mel features" (Fin (3 / 10));
       Worker.PROGRESS "Computing MFCC" (Fin (5 / 10));
       Worker.PROGRESS "Computing PCA" (Fin (8 / 10));
       Worker.MFCC_PCA_COMPUTED (PCA.computePCA3D mfcc) mfcc] /\
    length mfcc = length (Spectrogram.data spectrogram) /\
    length (PCA.computePCA3D mfcc) = length (Spectrogram.data spectrogram).
Proof.
  intros Hstack.
  destruct (computeSpectrogramDefault_ok stack samples sampleRate Hstack)
    as [r [Hr [_ [Hbins Hsr]]]].
  destruct (pipeline_mfcc r sampleRate Hbins) as [fb [Hfb [Hnew Hmfcc]]].
  exists r, fb. eexists. split; [exact Hr|]. split; [exact Hnew|].
  split; [exact Hmfcc|].
  cbn [Worker.onmessage]. rewrite Hr, Hsr, Hfb, Hmfcc. cbn [fst].
  split; [reflexivity|]. split; [reflexivity|]. split; [apply length_map|].
  rewrite (proj1 (computePCA3D_shape _)). apply length_map.
Qed.

Lemma compute_requests_agree_witness :
  exists spectrogram fb mfcc,
    Worker.computeSpectrogramDefault 12 [Fin 1; Fin 2] (Fin 44100)
    = Ok spectrogram /\
    Mel.new (Fin 44100) 2048 DSP_CONFIG.melBins DSP_CONFIG.fMin DSP_CONFIG.fMax
    = Ok fb /\
    MFCC.computeMFCC spectrogram fb DSP_CONFIG.mfccCount = (Ok mfcc, fb) /\
    Worker.onmessage 12 (Worker.COMPUTE_SPECTROGRAM [Fin 1; Fin 2] (Fin 44100))
    = [Worker.PROGRESS "Computing spectrogram" (Fin (1 / 10));
       Worker.PROGRESS "Computing spectrogram" (Fin (9 / 10));
       Worker.SPECTROGRAM_COMPUTED (Spectrogram.data spectrogram) (Fin 44100)] /\
    Worker.onmessage 12 (Worker.COMPUTE_MFCC_PCA [Fin 1; Fin 2] (Fin 44100))
    = [Worker.PROGRESS "Computing spectrogram" (Fin (1 / 10));
       Worker.PROGRESS "Computing mel features" (Fin (3 / 10));
       Worker.PROGRESS "Computing MFCC" (Fin (5 / 10));
       Worker.PROGRESS "Computing PCA" (Fin (8 / 10));
       Worker.MFCC_PCA_COMPUTED (PCA.computePCA3D mfcc) mfcc] /\
    length mfcc = length (Spectrogram.data spectrogram) /\
    length (PCA.computePCA3D mfcc) = length (Spectrogram.data spectrogram).
Proof.
  apply (compute_requests_agree 12 [Fin 1; Fin 2] (Fin 44100)). lia.
Defined.

(** ** audioProcessor.ts: after [terminate()] *)

Section ClientTerminated.

Import Client.

Lemma terminated_step (stack : nat) (sys : system) (e : event) :
  worker (page sys) = false -> callbacks (page sys) = [] -> inbox sys = [] ->
  let sys' := step stack sys e in
  worker (page sys') = false /\ callbacks (page sys') = [] /\ inbox sys' = [] /\
  observed (page sys')
  = observed (page sys)
    ++ (if isRequest e then [RejectNotInitialized] else []).
Proof.
  intros Hw Hcb Hin. destruct e as [c| |]; cbn [step isRequest].
  - destruct c; cbn [perform]; unfold computeSpectrogram, computeMFCCPCA,
      request, cancel, terminate;
      rewrite ?Hw, ?Hin, ?Hcb; cbn; rewrite ?app_nil_r; auto.
  - rewrite Hin. cbn zeta. rewrite app_nil_r. auto.
  - destruct (channel sys) as [|response rest]; cbn zeta;
      [rewrite app_nil_r; auto|].
    cbn [page inbox]. unfold onmessage. rewrite Hcb.
    destruct response; cbn; rewrite ?app_nil_r; auto.
Qed.

Lemma terminated_run (stack : nat) (events : list event) :
  forall sys,
    worker (page sys) = false -> callbacks (page sys) = [] -> inbox sys = [] ->
    let sys' := run stack events sys in
    worker (page sys') = false /\ callbacks (page sys') = [] /\
    inbox sys' = [] /\
    observed (page sys')
    = observed (page sys)
      ++ repeat RejectNotInitialized (length (filter isRequest events)).
Proof.
  induction events as [|e events IH]; intros sys Hw Hcb Hin.
  - cbn. rewrite app_nil_r. auto.
  - destruct (terminated_step stack sys e Hw Hcb Hin) as [Hw' [Hcb' [Hin' Hobs']]].
    cbn [run fold_left]. fold (run stack events (step stack sys e)).
    destruct (IH (step stack sys e) Hw' Hcb' Hin') as [H1 [H2 [H3 H4]]].
    cbn zeta. split; [exact H1|]. split; [exact H2|]. split; [exact H3|].
    rewrite H4, Hobs', <- app_assoc. f_equal.
    cbn [filter]. destruct (isRequest e); reflexivity.
Qed.

End ClientTerminated.

(** X28: [terminate()] is final.  After it, whatever the page calls and
    whatever is still delivered, the processor has no worker and no callback,
    nothing more is posted to the worker, and the page observes nothing but
    one immediate rejection ("Worker not initialized") per later request: no
    [onProgress] call and no other settlement. *)
Theorem terminate_is_final (stack : nat) (sys : Client.system)
    (events : list Client.event) :
  let after :=
    Client.run stack events
      (Client.step stack sys (Client.Call Client.CallTerminate)) in
  Client.worker (Client.page after) = false /\
  Client.callbacks (Client.page after) = [] /\
  Client.inbox after = [] /\
  Client.observed (Client.page after)
  = Client.observed (Client.page sys)
    ++ repeat Client.RejectNotInitialized
         (length (filter Client.isRequest events)).
Proof.
  exact (terminated_run stack events
           (Client.step stack sys (Client.Call Client.CallTerminate))
           eq_refl eq_refl eq_refl).
Qed.
